(** * n8n-nodes-gedcom: parser orchestration and lineage traversal

    A shallow embedding of [lib/gedcom-parser.ts] (encoding detection, the two
    normalizers, the fallback orchestration), of [lib/gedcom-ancestry.ts]
    (generation-bounded breadth-first walks over the family records), of
    [lib/gedcom-finder.ts] (filtering), of [lib/gedcom-generator.ts] (line
    emission) and of [lib/gedcom-name-parser.ts] (name splitting), with the
    properties of the specification and further properties of the code stated
    and proved over it.

    Conventions.
    - A JavaScript string is a [string]; the empty string is the only falsy
      one.  An optional property ([husband?: string], a missing field of an
      [any]-typed record) is an [option]: [None] is [undefined].
    - A [Buffer] is a list of bytes, each an integer in [0, 256).
    - [Map<string, V>] is a [gmap string V]; [Set<string>] keeps insertion
      order (which [Array.from] exposes), so it is a duplicate-free list.
    - A function that can throw returns a [Completion]. *)

From stdpp Require Import base strings list gmap.
From Stdlib Require Import ZArith Lia Ascii.

Local Open Scope string_scope.
Local Open Scope list_scope.
Local Open Scope nat_scope.

(** ** JavaScript values used by the code *)

(** [!s] for a string. *)
Definition falsy (s : string) : bool := bool_decide (s = "").

(** Truthiness of a possibly undefined string ([x && ...], [x || d]). *)
Definition truthy (o : option string) : bool :=
  match o with
  | Some s => negb (falsy s)
  | None => false
  end.

(** [o || d] on a possibly undefined string. *)
Definition orElse (o : option string) (d : string) : string :=
  match o with
  | Some s => if falsy s then d else s
  | None => d
  end.

(** [s.startsWith(p)] *)
Definition startsWith (s p : string) : bool := String.prefix p s.

(** [s.endsWith(p)] *)
Definition endsWith (s p : string) : bool :=
  (String.length p <=? String.length s)%nat
  && bool_decide
       (String.substring (String.length s - String.length p) (String.length p) s = p).

(** Errors: [NodeOperationError] extends [Error] and only sets [name]. *)
Record Exn := mkExn { exn_name : string; message : string }.

Definition NodeOperationError (msg : string) : Exn :=
  {| exn_name := "NodeOperationError"; message := msg |}.

Inductive Completion (A : Type) : Type :=
| Returns (a : A)
| Throws (e : Exn).
Arguments Returns {A} a.
Arguments Throws {A} e.

Definition bind {A B} (c : Completion A) (k : A → Completion B) : Completion B :=
  match c with
  | Returns a => k a
  | Throws e => Throws e
  end.

(** [try { body } catch (error) { handler(error) }] *)
Definition tryCatch {A} (body : Completion A) (handler : Exn → Completion A)
  : Completion A :=
  match body with
  | Returns a => Returns a
  | Throws e => handler e
  end.

#[global] Instance Completion_ret : MRet Completion := λ A a, Returns a.
#[global] Instance Completion_bind : MBind Completion := λ A B k c, bind c k.

(** ** Canonical model

    The interfaces of [lib/gedcom-types.ts], which every class imports. *)

Module ParsedPerson.
(** The [ParsedPerson] interface; [firstName] and [lastName] are optional. *)
Record t := mk {
  id : string;
  name : string;
  firstName : option string;
  lastName : option string;
  birthDate : string;
  deathDate : string;
  famc : list string;
  fams : list string
}.
End ParsedPerson.

Module ParsedFamily.
(** The [ParsedFamily] interface; [husband] and [wife] are optional. *)
Record t := mk {
  id : string;
  husband : option string;
  wife : option string;
  children : list string
}.
End ParsedFamily.

Module Meta.
(** The [ParsedMeta] interface, the type of [meta] in a [ParseResult]. *)
Record t := mk {
  individuals : nat;
  families : nat;
  encodingTag : string
}.
End Meta.

Module ParseResult.
(** The [ParseResult] interface. *)
Record t := mk {
  meta : Meta.t;
  persons : list ParsedPerson.t;
  families : list ParsedFamily.t
}.
End ParseResult.

(** The type of [relation], ['father' | 'mother']. *)
Inductive Relation := father | mother.

Module Edge.
(** The element type of [edges] in the [AncestryResult] interface. *)
Record t := mk {
  parent : string;
  child : string;
  relation : Relation
}.
End Edge.

Module AncestryResult.
(** The [AncestryResult] interface. *)
Record t := mk {
  root : string;
  generations : list (list string);
  nodes : list ParsedPerson.t;
  edges : list Edge.t
}.
End AncestryResult.

(** ** Canonicalization

    The function is written twice in the repository, once in each class. *)

Module GedcomAncestry.
Definition canonicalizeId (id : string) : string :=
  if falsy id then ""
  else if startsWith id "@" && endsWith id "@" then id
  else "@" +:+ id +:+ "@".
End GedcomAncestry.

Module GedcomParser.
Definition canonicalizeId (id : string) : string :=
  if falsy id then ""
  else if startsWith id "@" && endsWith id "@" then id
  else "@" +:+ id +:+ "@".
End GedcomParser.

(** ** Shapes handed over by the two parsing libraries *)

(** Decoded text, as the UTF-16 code units of the JavaScript string. *)
Abbreviation Text := (list Z).
Abbreviation Buffer := (list Z).

(** The record tree of [parse-gedcom]: every node has a [type] tag, an
    optional scalar [value], an optional [data] bag and optional children. *)
Module NodeData.
Record t := mk {
  xref_id : option string;
  pointer : option string
}.
End NodeData.

Module Node.
#[warnings="-register-all"] Inductive t := mk {
  type : string;
  value : option string;
  data : option NodeData.t;
  children : option (list t)
}.
End Node.

(** The object graph of [read-gedcom]. *)
Module ValueBox.
Record t := mk { value : option string }.
End ValueBox.

Module Head.
Record t := mk { characterSet : option ValueBox.t }.
End Head.

Module Event.
Record t := mk { date : option ValueBox.t }.
End Event.

Module NameRecord.
Record t := mk { given : option string; surname : option string }.
End NameRecord.

Module FamilyRef.
Record t := mk { family : option string }.
End FamilyRef.

Module PointerRef.
Record t := mk { pointer : option string }.
End PointerRef.

Module Individual.
Record t := mk {
  name : option (list NameRecord.t);
  birth : option Event.t;
  death : option Event.t;
  familyAsChild : option (list FamilyRef.t);
  familyAsSpouse : option (list FamilyRef.t)
}.
End Individual.

Module FamilyObject.
Record t := mk {
  husband : option PointerRef.t;
  wife : option PointerRef.t;
  children : option (list PointerRef.t)
}.
End FamilyObject.

(** [Object.entries] lists the own properties in order: an association list. *)
Module ReadResult.
Record t := mk {
  head : option Head.t;
  individuals : option (list (string * Individual.t));
  families : option (list (string * FamilyObject.t))
}.
End ReadResult.

Module ParsedName.
Record t := mk {
  fullName : string;
  firstName : option string;
  lastName : option string
}.
End ParsedName.

(** What the parser takes from its environment: the two [Buffer.toString]
    decodings, the two parsing libraries, [String.prototype.trim] and the
    name-splitting collaborator.  A decoding or a library call may throw. *)
Class Platform := {
  toString_utf8 : Buffer → Completion Text;
  toString_utf16le : Buffer → Completion Text;
  parseGedcom : Text → Completion (option Node.t);
  readGedcom : Buffer → Completion ReadResult.t;
  trim : string → string;
  parseName : string → ParsedName.t
}.

(** ** [GedcomParser] *)

Section Parser.
Context `{Platform}.

(** [buffer[i] === b]; an index past the end reads [undefined]. *)
Definition byteIs (buffer : Buffer) (i : nat) (b : Z) : bool :=
  bool_decide (buffer !! i = Some b).

Definition detectAndDecodeGedcom (buffer : Buffer) : Completion Text :=
  if (3 <=? length buffer) && byteIs buffer 0 0xEF && byteIs buffer 1 0xBB
     && byteIs buffer 2 0xBF
  then toString_utf8 (drop 3 buffer)
  else
    if (2 <=? length buffer) then
      if byteIs buffer 0 0xFF && byteIs buffer 1 0xFE
      then toString_utf16le (drop 2 buffer)
      else
        if byteIs buffer 0 0xFE && byteIs buffer 1 0xFF
        then toString_utf16le (drop 2 buffer)
        else toString_utf8 buffer
    else toString_utf8 buffer.

(** The detector in the words of the specification: fixed-length prefix
    checks, in order; a mark is stripped and the remainder decoded. *)
Definition hasPrefix (mark buffer : Buffer) : bool :=
  bool_decide (take (length mark) buffer = mark).

Definition utf8Mark : Buffer := [0xEF; 0xBB; 0xBF]%Z.
Definition utf16leMark : Buffer := [0xFF; 0xFE]%Z.
Definition utf16beMark : Buffer := [0xFE; 0xFF]%Z.

Definition detect_by_prefix (buffer : Buffer) : Completion Text :=
  if hasPrefix utf8Mark buffer then toString_utf8 (drop 3 buffer)
  else if hasPrefix utf16leMark buffer || hasPrefix utf16beMark buffer
  then toString_utf16le (drop 2 buffer)
  else toString_utf8 buffer.

(** [record.data && record.data.xref_id] *)
Definition xref (record : Node.t) : option string :=
  match Node.data record with
  | Some d => NodeData.xref_id d
  | None => None
  end.

(** [child.data && child.data.pointer] *)
Definition pointerOf (child : Node.t) : option string :=
  match Node.data child with
  | Some d => NodeData.pointer d
  | None => None
  end.

(** [children.find(c => c.type === tag)] on an optional children list. *)
Definition findChild (tag : string) (children : option (list Node.t))
  : option Node.t :=
  match children with
  | Some cs => List.find (λ c, String.eqb (Node.type c) tag) cs
  | None => None
  end.

(** The body of the [switch] of [parseIndividual], for one child. *)
Definition parseIndividualChild (person : ParsedPerson.t) (child : Node.t)
  : ParsedPerson.t :=
  let '(ParsedPerson.mk id name firstName lastName birthDate deathDate famc fams) :=
    person in
  if String.eqb (Node.type child) "NAME" then
    let nameValue := orElse (Node.value child) "" in
    let parsedName := parseName nameValue in
    ParsedPerson.mk id (ParsedName.fullName parsedName)
      (ParsedName.firstName parsedName) (ParsedName.lastName parsedName)
      birthDate deathDate famc fams
  else if String.eqb (Node.type child) "BIRT" then
    match findChild "DATE" (Node.children child) with
    | Some dateRecord =>
        ParsedPerson.mk id name firstName lastName
          (orElse (Node.value dateRecord) "") deathDate famc fams
    | None => person
    end
  else if String.eqb (Node.type child) "DEAT" then
    match findChild "DATE" (Node.children child) with
    | Some dateRecord =>
        ParsedPerson.mk id name firstName lastName birthDate
          (orElse (Node.value dateRecord) "") famc fams
    | None => person
    end
  else if String.eqb (Node.type child) "FAMC" then
    match pointerOf child with
    | Some p =>
        if falsy p then person
        else ParsedPerson.mk id name firstName lastName birthDate deathDate
               (famc ++ [p]) fams
    | None => person
    end
  else if String.eqb (Node.type child) "FAMS" then
    match pointerOf child with
    | Some p =>
        if falsy p then person
        else ParsedPerson.mk id name firstName lastName birthDate deathDate
               famc (fams ++ [p])
    | None => person
    end
  else person.

(** [parseIndividual] is only called on a record whose [data.xref_id] is a
    non-empty string. *)
Definition parseIndividual (record : Node.t) : ParsedPerson.t :=
  let person :=
    ParsedPerson.mk (default "" (xref record)) "" None None "" "" [] [] in
  match Node.children record with
  | Some cs => foldl parseIndividualChild person cs
  | None => person
  end.

(** [child.data && child.data.pointer ? child.data.pointer : child.value] *)
Definition pointerOrValue (child : Node.t) : option string :=
  if truthy (pointerOf child) then pointerOf child else Node.value child.

Definition parseFamilyChild (family : ParsedFamily.t) (child : Node.t)
  : ParsedFamily.t :=
  let '(ParsedFamily.mk id husband wife children) := family in
  if String.eqb (Node.type child) "HUSB" then
    ParsedFamily.mk id (pointerOrValue child) wife children
  else if String.eqb (Node.type child) "WIFE" then
    ParsedFamily.mk id husband (pointerOrValue child) children
  else if String.eqb (Node.type child) "CHIL" then
    if truthy (pointerOf child) then
      ParsedFamily.mk id husband wife (children ++ [default "" (pointerOf child)])
    else if truthy (Node.value child) then
      ParsedFamily.mk id husband wife (children ++ [default "" (Node.value child)])
    else family
  else family.

Definition parseFamily (record : Node.t) : ParsedFamily.t :=
  let family := ParsedFamily.mk (default "" (xref record)) None None [] in
  match Node.children record with
  | Some cs => foldl parseFamilyChild family cs
  | None => family
  end.

(** The [for] loop over [tree.children]; the accumulator is the pair of the
    two lists the source pushes to. *)
Definition collectRecord (acc : list ParsedPerson.t * list ParsedFamily.t)
  (record : Node.t) : list ParsedPerson.t * list ParsedFamily.t :=
  let '(persons, families) := acc in
  if String.eqb (Node.type record) "INDI" && truthy (xref record) then
    (persons ++ [parseIndividual record], families)
  else if String.eqb (Node.type record) "FAM" && truthy (xref record) then
    (persons, families ++ [parseFamily record])
  else acc.

Definition headEncoding (records : list Node.t) (encodingTag : string) : string :=
  match List.find (λ r, String.eqb (Node.type r) "HEAD") records with
  | Some headRecord =>
      match findChild "CHAR" (Node.children headRecord) with
      | Some charRecord =>
          if truthy (Node.value charRecord)
          then default "" (Node.value charRecord)
          else encodingTag
      | None => encodingTag
      end
  | None => encodingTag
  end.

Definition normalizeParseGedcomResult (tree : option Node.t) (encodingTag : string)
  : Completion ParseResult.t :=
  match tree with
  | Some t =>
      match Node.children t with
      | Some records =>
          let encodingTag := headEncoding records encodingTag in
          let '(persons, families) := foldl collectRecord ([], []) records in
          Returns
            (ParseResult.mk
               (Meta.mk (length persons) (length families) encodingTag)
               persons families)
      | None => Throws (NodeOperationError "Invalid GEDCOM structure")
      end
  | None => Throws (NodeOperationError "Invalid GEDCOM structure")
  end.

(** [canonicalizeId] applied to a reference that may be [undefined], which
    [!id] sends to the empty string as well. *)
Definition canonicalizeRef (ref : option string) : string :=
  match ref with
  | Some id => GedcomParser.canonicalizeId id
  | None => ""
  end.

Definition parseReadGedcomIndividual (id : string) (individual : Individual.t)
  : ParsedPerson.t :=
  let '(name, firstName, lastName) :=
    match Individual.name individual with
    | Some (nameRecord :: _) =>
        let rawName :=
          trim (orElse (NameRecord.given nameRecord) "" +:+ " /"
                +:+ orElse (NameRecord.surname nameRecord) "" +:+ "/") in
        let parsedName := parseName rawName in
        (ParsedName.fullName parsedName, ParsedName.firstName parsedName,
         ParsedName.lastName parsedName)
    | _ => ("", None, None)
    end in
  let dateOf (event : option Event.t) : string :=
    match event with
    | Some e =>
        match Event.date e with
        | Some d => orElse (ValueBox.value d) ""
        | None => ""
        end
    | None => ""
    end in
  let refs (l : option (list FamilyRef.t)) : list string :=
    match l with
    | Some rs => map (λ ref, canonicalizeRef (FamilyRef.family ref)) rs
    | None => []
    end in
  ParsedPerson.mk (GedcomParser.canonicalizeId id) name firstName lastName
    (dateOf (Individual.birth individual)) (dateOf (Individual.death individual))
    (refs (Individual.familyAsChild individual))
    (refs (Individual.familyAsSpouse individual)).

Definition parseReadGedcomFamily (id : string) (family : FamilyObject.t)
  : ParsedFamily.t :=
  ParsedFamily.mk (GedcomParser.canonicalizeId id)
    (match FamilyObject.husband family with
     | Some h => Some (canonicalizeRef (PointerRef.pointer h))
     | None => None
     end)
    (match FamilyObject.wife family with
     | Some w => Some (canonicalizeRef (PointerRef.pointer w))
     | None => None
     end)
    (match FamilyObject.children family with
     | Some cs => map (λ child, canonicalizeRef (PointerRef.pointer child)) cs
     | None => []
     end).

Definition normalizeReadGedcomResult (result : ReadResult.t) : ParseResult.t :=
  let encodingTag :=
    match ReadResult.head result with
    | Some h =>
        match Head.characterSet h with
        | Some cs => orElse (ValueBox.value cs) "UTF-8"
        | None => "UTF-8"
        end
    | None => "UTF-8"
    end in
  let persons :=
    match ReadResult.individuals result with
    | Some entries =>
        foldl (λ persons '(id, individual),
                 persons ++ [parseReadGedcomIndividual id individual]) [] entries
    | None => []
    end in
  let families :=
    match ReadResult.families result with
    | Some entries =>
        foldl (λ families '(id, family),
                 families ++ [parseReadGedcomFamily id family]) [] entries
    | None => []
    end in
  ParseResult.mk (Meta.mk (length persons) (length families) encodingTag)
    persons families.

(** The two attempts of the orchestrator, each the body of one [try]. *)
Definition primaryAttempt (gedcomText : Text) : Completion ParseResult.t :=
  tree ← parseGedcom gedcomText;
  normalizeParseGedcomResult tree "UTF-8".

Definition fallbackAttempt (buffer : Buffer) : Completion ParseResult.t :=
  result ← readGedcom buffer;
  mret (normalizeReadGedcomResult result).

Definition decodeFailure (error : Exn) : Exn :=
  NodeOperationError ("Failed to decode GEDCOM file: " +:+ message error).

Definition bothFailed (error fallbackError : Exn) : Exn :=
  NodeOperationError
    ("Failed to parse GEDCOM file with both parsers. Primary error: "
     +:+ message error +:+ ". Fallback error: " +:+ message fallbackError).

Definition parseGedcomWithFallback (buffer : Buffer) : Completion ParseResult.t :=
  gedcomText ←
    tryCatch (detectAndDecodeGedcom buffer) (λ error, Throws (decodeFailure error));
  tryCatch (primaryAttempt gedcomText)
    (λ error,
       tryCatch (fallbackAttempt buffer)
         (λ fallbackError, Throws (bothFailed error fallbackError))).

End Parser.

(** ** [GedcomAncestry] *)

(** [Set<string>]: [has], and [add], which appends a value not yet in the set
    and leaves the set alone otherwise. *)
Definition Set_has (s : list string) (x : string) : bool := bool_decide (x ∈ s).

Definition Set_add (s : list string) (x : string) : list string :=
  if Set_has s x then s else s ++ [x].

(** The mutable variables of a traversal. *)
Module Vars.
Record t := mk {
  generations : list (list string);
  visitedPersons : list string;
  edges : list Edge.t;
  currentGeneration : list string;
  nextGeneration : list string
}.
End Vars.

(** [for (const person of persons) personMap.set(person.id, person)] *)
Definition buildPersonMap (persons : list ParsedPerson.t)
  : gmap string ParsedPerson.t :=
  foldl (λ personMap person, <[ParsedPerson.id person := person]> personMap)
    ∅ persons.

Definition buildFamilyMap (families : list ParsedFamily.t)
  : gmap string ParsedFamily.t :=
  foldl (λ familyMap family, <[ParsedFamily.id family := family]> familyMap)
    ∅ families.

(** The three statements run on every discovery:
    [nextGeneration.push(id); visitedPersons.add(id); edges.push(edge)]. *)
Definition discover (id : string) (edge : Edge.t) (v : Vars.t) : Vars.t :=
  Vars.mk (Vars.generations v)
    (Set_add (Vars.visitedPersons v) id)
    (Vars.edges v ++ [edge])
    (Vars.currentGeneration v)
    (Vars.nextGeneration v ++ [id]).

(** The first statement of a generation, [generations.push([...current])],
    and the fresh [nextGeneration] array. *)
Definition openGeneration (v : Vars.t) : Vars.t :=
  Vars.mk (Vars.generations v ++ [Vars.currentGeneration v])
    (Vars.visitedPersons v) (Vars.edges v) (Vars.currentGeneration v) [].

(** The last one, [currentGeneration = nextGeneration]. *)
Definition closeGeneration (v : Vars.t) : Vars.t :=
  Vars.mk (Vars.generations v) (Vars.visitedPersons v) (Vars.edges v)
    (Vars.nextGeneration v) (Vars.nextGeneration v).

(** The variables before the loop: the root is the current generation and
    is marked visited. *)
Definition initialVars (canonicalRootId : string) : Vars.t :=
  Vars.mk [] (Set_add [] canonicalRootId) [] [canonicalRootId] [].

(** *** Ancestors *)

(** The two [if] blocks run for a family found in [familyMap]. *)
Definition ancestorsVisitFamily (personId : string) (family : ParsedFamily.t)
  (v : Vars.t) : Vars.t :=
  let v :=
    match ParsedFamily.husband family with
    | Some husband =>
        if negb (falsy husband) && negb (Set_has (Vars.visitedPersons v) husband)
        then discover husband (Edge.mk husband personId father) v
        else v
    | None => v
    end in
  match ParsedFamily.wife family with
  | Some wife =>
      if negb (falsy wife) && negb (Set_has (Vars.visitedPersons v) wife)
      then discover wife (Edge.mk wife personId mother) v
      else v
  | None => v
  end.

(** The body of [for (const personId of currentGeneration)]. *)
Definition ancestorsVisitPerson (personMap : gmap string ParsedPerson.t)
  (familyMap : gmap string ParsedFamily.t) (v : Vars.t) (personId : string)
  : Vars.t :=
  match personMap !! personId with
  | None => v
  | Some person =>
      foldl (λ v familyId,
               match familyMap !! familyId with
               | None => v
               | Some family => ancestorsVisitFamily personId family v
               end)
        v (ParsedPerson.famc person)
  end.

(** The generation loop.  The counter [gen] runs over 0, 1, ... and the test
    [gen < maxGenerations] holds for the first [maxGenerations] of them, so the
    recursion is on the number of iterations that the counter still allows. *)
Fixpoint ancestorsLoop (personMap : gmap string ParsedPerson.t)
  (familyMap : gmap string ParsedFamily.t) (remaining : nat) (v : Vars.t)
  : Vars.t :=
  match remaining with
  | O => v
  | S remaining' =>
      match Vars.currentGeneration v with
      | [] => v
      | _ :: _ =>
          let v := foldl (ancestorsVisitPerson personMap familyMap)
                     (openGeneration v) (Vars.currentGeneration v) in
          ancestorsLoop personMap familyMap remaining' (closeGeneration v)
      end
  end.

(** The variables when the loop of [computeAncestors] is left. *)
Definition ancestorsWalk (parseResult : ParseResult.t) (rootId : string)
  (maxGenerations : Z) : Vars.t :=
  ancestorsLoop (buildPersonMap (ParseResult.persons parseResult))
    (buildFamilyMap (ParseResult.families parseResult))
    (Z.to_nat maxGenerations)
    (initialVars (GedcomAncestry.canonicalizeId rootId)).

Definition rootNotFound (rootId : string) : Exn :=
  NodeOperationError
    ("Root person with ID '" +:+ rootId +:+ "' not found in GEDCOM data").

(** [Array.from(visitedPersons).map(id => personMap.get(id)).filter(defined)] *)
Definition materialize (personMap : gmap string ParsedPerson.t)
  (visitedPersons : list string) : list ParsedPerson.t :=
  omap (λ id, personMap !! id) visitedPersons.

Definition computeAncestors (parseResult : ParseResult.t) (rootId : string)
  (maxGenerations : Z) : Completion AncestryResult.t :=
  let canonicalRootId := GedcomAncestry.canonicalizeId rootId in
  let personMap := buildPersonMap (ParseResult.persons parseResult) in
  if negb (bool_decide (is_Some (personMap !! canonicalRootId)))
  then Throws (rootNotFound rootId)
  else
    let v := ancestorsWalk parseResult rootId maxGenerations in
    Returns
      (AncestryResult.mk canonicalRootId (Vars.generations v)
         (materialize personMap (Vars.visitedPersons v)) (Vars.edges v)).

(** *** Descendants *)

(** The body of [for (const childId of family.children)]. *)
Definition descendantsVisitChild (personId : string) (person : ParsedPerson.t)
  (family : ParsedFamily.t) (v : Vars.t) (childId : string) : Vars.t :=
  if negb (Set_has (Vars.visitedPersons v) childId) then
    let relation :=
      if bool_decide (Some (ParsedPerson.id person) = ParsedFamily.husband family)
      then father else mother in
    discover childId (Edge.mk personId childId relation) v
  else v.

Definition descendantsVisitPerson (personMap : gmap string ParsedPerson.t)
  (familyMap : gmap string ParsedFamily.t) (v : Vars.t) (personId : string)
  : Vars.t :=
  match personMap !! personId with
  | None => v
  | Some person =>
      foldl (λ v familyId,
               match familyMap !! familyId with
               | None => v
               | Some family =>
                   foldl (descendantsVisitChild personId person family)
                     v (ParsedFamily.children family)
               end)
        v (ParsedPerson.fams person)
  end.

Fixpoint descendantsLoop (personMap : gmap string ParsedPerson.t)
  (familyMap : gmap string ParsedFamily.t) (remaining : nat) (v : Vars.t)
  : Vars.t :=
  match remaining with
  | O => v
  | S remaining' =>
      match Vars.currentGeneration v with
      | [] => v
      | _ :: _ =>
          let v := foldl (descendantsVisitPerson personMap familyMap)
                     (openGeneration v) (Vars.currentGeneration v) in
          descendantsLoop personMap familyMap remaining' (closeGeneration v)
      end
  end.

Definition descendantsWalk (parseResult : ParseResult.t) (rootId : string)
  (maxGenerations : Z) : Vars.t :=
  descendantsLoop (buildPersonMap (ParseResult.persons parseResult))
    (buildFamilyMap (ParseResult.families parseResult))
    (Z.to_nat maxGenerations)
    (initialVars (GedcomAncestry.canonicalizeId rootId)).

Definition computeDescendants (parseResult : ParseResult.t) (rootId : string)
  (maxGenerations : Z) : Completion AncestryResult.t :=
  let canonicalRootId := GedcomAncestry.canonicalizeId rootId in
  let personMap := buildPersonMap (ParseResult.persons parseResult) in
  if negb (bool_decide (is_Some (personMap !! canonicalRootId)))
  then Throws (rootNotFound rootId)
  else
    let v := descendantsWalk parseResult rootId maxGenerations in
    Returns
      (AncestryResult.mk canonicalRootId (Vars.generations v)
         (materialize personMap (Vars.visitedPersons v)) (Vars.edges v)).

(** The shape the two generation loops share, over the body run for one
    member of the current generation. *)
Fixpoint generationLoop (visitPerson : Vars.t → string → Vars.t)
  (remaining : nat) (v : Vars.t) : Vars.t :=
  match remaining with
  | O => v
  | S remaining' =>
      match Vars.currentGeneration v with
      | [] => v
      | _ :: _ =>
          generationLoop visitPerson remaining'
            (closeGeneration
               (foldl visitPerson (openGeneration v) (Vars.currentGeneration v)))
      end
  end.

(** The end-to-end data of the specification: [I1] and [I2] are husband and
    wife of [F1], whose only child is [I3]. *)
Definition person (id : string) (famc fams : list string) : ParsedPerson.t :=
  ParsedPerson.mk id "" None None "" "" famc fams.

Definition smallFamily : ParseResult.t :=
  ParseResult.mk (Meta.mk 3 1 "UTF-8")
    [person "@I1@" [] ["@F1@"]; person "@I2@" [] ["@F1@"];
     person "@I3@" ["@F1@"] []]
    [ParsedFamily.mk "@F1@" (Some "@I1@") (Some "@I2@") ["@I3@"]].

(** ** Invariants of a traversal *)

(** [grows key ok v v']: from [v] to [v'] some discoveries were made, each
    pushing one edge whose [key] end is the discovered identifier, new to the
    visited set, with every pushed edge satisfying [ok]. *)
Definition grows (key : Edge.t → string) (ok : Edge.t → Prop) (v v' : Vars.t)
  : Prop :=
  ∃ es : list Edge.t,
    Vars.generations v' = Vars.generations v
    ∧ Vars.currentGeneration v' = Vars.currentGeneration v
    ∧ Vars.edges v' = Vars.edges v ++ es
    ∧ Vars.nextGeneration v' = Vars.nextGeneration v ++ map key es
    ∧ Vars.visitedPersons v' = Vars.visitedPersons v ++ map key es
    ∧ NoDup (map key es)
    ∧ (∀ x, x ∈ map key es → x ∉ Vars.visitedPersons v)
    ∧ Forall ok es.

(** What holds of the variables each time the loop test is evaluated. *)
Record WalkInv (key : Edge.t → string) (ok : Edge.t → Prop) (root : string)
  (v : Vars.t) : Prop := {
  inv_visited :
    Vars.visitedPersons v = concat (Vars.generations v) ++ Vars.currentGeneration v;
  inv_nodup : NoDup (Vars.visitedPersons v);
  inv_edges : Vars.visitedPersons v = root :: map key (Vars.edges v);
  inv_ok : Forall ok (Vars.edges v);
  inv_nonempty : Forall (λ g, g ≠ []) (Vars.generations v);
  inv_first :
    (Vars.generations v = [] ∧ Vars.currentGeneration v = [root])
    ∨ ∃ rest, Vars.generations v = [root] :: rest
}.

(** Where an edge of an ancestors walk comes from: a family among the child's
    [famc] whose husband (for [father]) or wife (for [mother]) is the parent. *)
Definition ancestorEdge (personMap : gmap string ParsedPerson.t)
  (familyMap : gmap string ParsedFamily.t) (e : Edge.t) : Prop :=
  ∃ person familyId family,
    personMap !! Edge.child e = Some person
    ∧ familyId ∈ ParsedPerson.famc person
    ∧ familyMap !! familyId = Some family
    ∧ ((Edge.relation e = father
        ∧ ParsedFamily.husband family = Some (Edge.parent e))
       ∨ (Edge.relation e = mother
          ∧ ParsedFamily.wife family = Some (Edge.parent e))).

(** Where an edge of a descendants walk comes from: a family among the
    parent's [fams] that lists the child; the relation is [father] exactly
    when the parent is that family's husband. *)
Definition descendantEdge (personMap : gmap string ParsedPerson.t)
  (familyMap : gmap string ParsedFamily.t) (e : Edge.t) : Prop :=
  ∃ person familyId family,
    personMap !! Edge.parent e = Some person
    ∧ ParsedPerson.id person = Edge.parent e
    ∧ familyId ∈ ParsedPerson.fams person
    ∧ familyMap !! familyId = Some family
    ∧ Edge.child e ∈ ParsedFamily.children family
    ∧ (Edge.relation e = father
       ↔ ParsedFamily.husband family = Some (ParsedPerson.id person))
    ∧ (Edge.relation e = mother
       ↔ ParsedFamily.husband family ≠ Some (ParsedPerson.id person)).

(** A map keyed by the identifier of its values, as [buildPersonMap] builds. *)
Definition keyedById (personMap : gmap string ParsedPerson.t) : Prop :=
  ∀ k p, personMap !! k = Some p → ParsedPerson.id p = k.

(** Data with a dangling reference: [F1] names a husband and a second child
    that have no record. *)
Definition danglingFamily : ParseResult.t :=
  ParseResult.mk (Meta.mk 1 1 "UTF-8")
    [person "@I3@" ["@F1@"] ["@F1@"]]
    [ParsedFamily.mk "@F1@" (Some "@I1@") None ["@I3@"; "@I9@"]].

(** The shape of a recorded [generations] list for a bound of [N]. *)
Definition generationsWellFormed (root : string) (N : Z)
  (generations : list (list string)) : Prop :=
  (Z.of_nat (length generations) ≤ N)%Z
  ∧ Forall (λ g, g ≠ []) generations
  ∧ ∃ rest, generations = [root] :: rest.

(** How [nodes] relates to the identifiers marked visited: every visited
    identifier (in particular every one in [generations]) that has a record
    is materialized, and one without a record is dropped. *)
Definition nodesCover (parseResult : ParseResult.t) (visitedPersons : list string)
  (r : AncestryResult.t) : Prop :=
  (∀ id, id ∈ concat (AncestryResult.generations r) → id ∈ visitedPersons)
  ∧ (∀ id, id ∈ visitedPersons →
       id ∈ map ParsedPerson.id (ParseResult.persons parseResult) →
       ∃ p, p ∈ AncestryResult.nodes r ∧ ParsedPerson.id p = id)
  ∧ (∀ p, p ∈ AncestryResult.nodes r →
       ParsedPerson.id p ∈ visitedPersons ∧ p ∈ ParseResult.persons parseResult)
  ∧ (∀ id, id ∈ visitedPersons →
       id ∉ map ParsedPerson.id (ParseResult.persons parseResult) →
       ¬ ∃ p, p ∈ AncestryResult.nodes r ∧ ParsedPerson.id p = id).

(** The family that is being traversed when a person's walk first meets
    [childId]: the first family, in the order of the person's [fams] and among
    those that exist, that lists it. *)
Definition traversedFamily (familyMap : gmap string ParsedFamily.t)
  (person : ParsedPerson.t) (childId : string) : option ParsedFamily.t :=
  List.find (λ family, bool_decide (childId ∈ ParsedFamily.children family))
    (omap (λ familyId, familyMap !! familyId) (ParsedPerson.fams person)).

(** An edge of a descendants walk with the family it was recorded under: the
    parent has a record with that id, the family is the one traversed when the
    parent's walk first met the child, and the relation is [father] exactly
    when that family's husband is the parent, [mother] in every other case. *)
Definition discoveryEdge (personMap : gmap string ParsedPerson.t)
  (familyMap : gmap string ParsedFamily.t) (e : Edge.t) : Prop :=
  ∃ person family,
    personMap !! Edge.parent e = Some person
    ∧ ParsedPerson.id person = Edge.parent e
    ∧ traversedFamily familyMap person (Edge.child e) = Some family
    ∧ (Edge.relation e = father
       ↔ ParsedFamily.husband family = Some (ParsedPerson.id person))
    ∧ (Edge.relation e = mother
       ↔ ParsedFamily.husband family ≠ Some (ParsedPerson.id person)).

(** A person who is the wife of [F1] and the husband of [F2], both of which
    list the same child: [F1] is traversed first. *)
Definition twoFamilies : ParseResult.t :=
  ParseResult.mk (Meta.mk 2 2 "UTF-8")
    [person "@I1@" [] ["@F1@"; "@F2@"]; person "@I3@" ["@F1@"; "@F2@"] []]
    [ParsedFamily.mk "@F1@" (Some "@I9@") (Some "@I1@") ["@I3@"];
     ParsedFamily.mk "@F2@" (Some "@I1@") None ["@I3@"]].

(** ** A model of the platform, for concrete runs

    [Buffer.prototype.toString] never throws: [utf8] decoding replaces every
    ill-formed sequence by U+FFFD and keeps a leading U+FEFF; [utf16le]
    pairs the bytes up and drops an odd last one.  The UTF-8 decoder below
    follows the state machine of the WHATWG Encoding Standard. *)

Module Utf8State.
Record t := mk {
  codePoint : Z;
  bytesSeen : Z;
  bytesNeeded : Z;
  lower : Z;
  upper : Z
}.
End Utf8State.

Definition utf8Start : Utf8State.t := Utf8State.mk 0 0 0 0x80 0xBF.

Inductive Lead :=
| LeadAscii (codePoint : Z)
| LeadMulti (st : Utf8State.t)
| LeadBad.

(** A byte read when no continuation byte is expected. *)
Definition utf8Lead (b : Z) : Lead :=
  if (0 <=? b)%Z && (b <=? 0x7F)%Z then LeadAscii b
  else if (0xC2 <=? b)%Z && (b <=? 0xDF)%Z then
    LeadMulti (Utf8State.mk (Z.land b 0x1F) 0 1 0x80 0xBF)
  else if (0xE0 <=? b)%Z && (b <=? 0xEF)%Z then
    LeadMulti
      (Utf8State.mk (Z.land b 0xF) 0 2
         (if (b =? 0xE0)%Z then 0xA0 else 0x80)
         (if (b =? 0xED)%Z then 0x9F else 0xBF))
  else if (0xF0 <=? b)%Z && (b <=? 0xF4)%Z then
    LeadMulti
      (Utf8State.mk (Z.land b 0x7) 0 3
         (if (b =? 0xF0)%Z then 0x90 else 0x80)
         (if (b =? 0xF4)%Z then 0x8F else 0xBF))
  else LeadBad.

(** The code points decoded from the bytes, from a decoder state. *)
Fixpoint utf8CodePoints (st : Utf8State.t) (bytes : Buffer) : list Z :=
  match bytes with
  | [] => if (Utf8State.bytesNeeded st =? 0)%Z then [] else [0xFFFD%Z]
  | b :: rest =>
      let restart :=
        match utf8Lead b with
        | LeadAscii c => c :: utf8CodePoints utf8Start rest
        | LeadMulti st' => utf8CodePoints st' rest
        | LeadBad => 0xFFFD%Z :: utf8CodePoints utf8Start rest
        end in
      if (Utf8State.bytesNeeded st =? 0)%Z then restart
      else if (b <? Utf8State.lower st)%Z || (Utf8State.upper st <? b)%Z
      then 0xFFFD%Z :: restart
      else
        let c := Z.lor (Z.shiftl (Utf8State.codePoint st) 6) (Z.land b 0x3F) in
        if (Utf8State.bytesSeen st + 1 =? Utf8State.bytesNeeded st)%Z
        then c :: utf8CodePoints utf8Start rest
        else
          utf8CodePoints
            (Utf8State.mk c (Utf8State.bytesSeen st + 1)
               (Utf8State.bytesNeeded st) 0x80 0xBF)
            rest
  end.

(** The UTF-16 code units of a code point. *)
Definition codeUnits (c : Z) : list Z :=
  if (c <? 0x10000)%Z then [c]
  else [(0xD800 + Z.shiftr (c - 0x10000) 10)%Z;
        (0xDC00 + Z.land (c - 0x10000) 0x3FF)%Z].

Definition nodeUtf8 (buffer : Buffer) : Text :=
  flat_map codeUnits (utf8CodePoints utf8Start buffer).

Fixpoint nodeUtf16le (buffer : Buffer) : Text :=
  match buffer with
  | lo :: hi :: rest => (lo + 256 * hi)%Z :: nodeUtf16le rest
  | _ => []
  end.

(** Well-formed UTF-8: the decoder never has to replace anything. *)
Fixpoint utf8WellFormed (st : Utf8State.t) (bytes : Buffer) : bool :=
  match bytes with
  | [] => (Utf8State.bytesNeeded st =? 0)%Z
  | b :: rest =>
      if (Utf8State.bytesNeeded st =? 0)%Z then
        match utf8Lead b with
        | LeadAscii _ => utf8WellFormed utf8Start rest
        | LeadMulti st' => utf8WellFormed st' rest
        | LeadBad => false
        end
      else if (b <? Utf8State.lower st)%Z || (Utf8State.upper st <? b)%Z
      then false
      else if (Utf8State.bytesSeen st + 1 =? Utf8State.bytesNeeded st)%Z
      then utf8WellFormed utf8Start rest
      else
        utf8WellFormed
          (Utf8State.mk 0 (Utf8State.bytesSeen st + 1)
             (Utf8State.bytesNeeded st) 0x80 0xBF)
          rest
  end.

Definition validUtf8 (bytes : Buffer) : bool := utf8WellFormed utf8Start bytes.

(** A platform for concrete runs: Node's decoders, libraries that answer with
    a fixed outcome whatever they are given, and a name collaborator that
    keeps the raw name. *)
Definition nodePlatform (primary : Completion (option Node.t))
  (fallback : Completion ReadResult.t) : Platform :=
  {| toString_utf8 := λ buffer, Returns (nodeUtf8 buffer);
     toString_utf16le := λ buffer, Returns (nodeUtf16le buffer);
     parseGedcom := λ _, primary;
     readGedcom := λ _, fallback;
     trim := λ s, s;
     parseName := λ s, ParsedName.mk s None None |}.

(** The same with a strict UTF-8 decoding, which throws on ill-formed input
    (as a [TextDecoder] with [fatal] set does). *)
Definition strictPlatform (primary : Completion (option Node.t))
  (fallback : Completion ReadResult.t) : Platform :=
  {| toString_utf8 :=
       λ buffer,
         if validUtf8 buffer then Returns (nodeUtf8 buffer)
         else Throws (mkExn "TypeError" "The encoded data was not valid");
     toString_utf16le := λ buffer, Returns (nodeUtf16le buffer);
     parseGedcom := λ _, primary;
     readGedcom := λ _, fallback;
     trim := λ s, s;
     parseName := λ s, ParsedName.mk s None None |}.

(** A record tree with a header, two individuals and a family, and an object
    graph with one individual and one family. *)
Definition leaf (type : string) (value : option string) (pointer : option string)
  : Node.t :=
  Node.mk type value
    (match pointer with
     | Some p => Some (NodeData.mk None (Some p))
     | None => None
     end)
    (Some []).

Definition sampleTree : Node.t :=
  Node.mk "root" None None
    (Some
       [Node.mk "HEAD" None None (Some [leaf "CHAR" (Some "ANSEL") None]);
        Node.mk "INDI" None (Some (NodeData.mk (Some "@I1@") None))
          (Some [leaf "NAME" (Some "John /Doe/") None;
                 Node.mk "BIRT" None None
                   (Some [leaf "DATE" (Some "01 JAN 1900") None]);
                 leaf "FAMS" None (Some "@F1@")]);
        Node.mk "INDI" None (Some (NodeData.mk (Some "@I3@") None))
          (Some [leaf "FAMC" None (Some "@F1@")]);
        Node.mk "FAM" None (Some (NodeData.mk (Some "@F1@") None))
          (Some [leaf "HUSB" None (Some "@I1@"); leaf "CHIL" None (Some "@I3@")]);
        Node.mk "TRLR" None None (Some [])]).

Definition sampleGraph : ReadResult.t :=
  ReadResult.mk None
    (Some [("I1", Individual.mk (Some [NameRecord.mk (Some "John") (Some "Doe")])
                    None None None (Some [FamilyRef.mk (Some "F1")]))])
    (Some [("F1", FamilyObject.mk (Some (PointerRef.mk (Some "@I1@"))) None None)]).

(** ["0 HEAD"] in ASCII, alone and after a UTF-8 byte-order mark; a buffer that
    is no UTF-8; and the letter A after one and after two marks. *)
Definition headLine : Buffer := [0x30; 0x20; 0x48; 0x45; 0x41; 0x44]%Z.
Definition markedHeadLine : Buffer := utf8Mark ++ headLine.
Definition illFormed : Buffer := [0x30; 0xC0; 0x80]%Z.
Definition markedA : Buffer := [0xEF; 0xBB; 0xBF; 0x41]%Z.

(** ** [GedcomFinder] *)

(** The [PersonFilter] and [FamilyFilter] interfaces of [lib/gedcom-types.ts]:
    every criterion is optional. *)
Module PersonFilter.
Record t := mk {
  id : option string;
  name : option string;
  birthDate : option string;
  deathDate : option string;
  fams : option string;
  famc : option string
}.
End PersonFilter.

Module FamilyFilter.
Record t := mk {
  id : option string;
  husband : option string;
  wife : option string;
  children : option string
}.
End FamilyFilter.

(** The object [findAll] returns. *)
Module FoundMeta.
Record t := mk {
  individuals : nat;
  families : nat;
  totalIndividuals : nat;
  totalFamilies : nat;
  encodingTag : string
}.
End FoundMeta.

Module Found.
Record t := mk {
  meta : FoundMeta.t;
  persons : list ParsedPerson.t;
  families : list ParsedFamily.t
}.
End Found.

(** [s.includes(sub)]: [sub] occurs in [s] at some position. *)
Fixpoint includes (s sub : string) : bool :=
  String.prefix sub s
  || match s with
     | EmptyString => false
     | String _ rest => includes rest sub
     end.

Section Finder.
(** [String.prototype.toLowerCase]. *)
Variable toLowerCase : string → string.

(** [criterion && !test(criterion)]: a criterion that is set and not met. *)
Definition unmet (criterion : option string) (test : string → bool) : bool :=
  match criterion with
  | Some c => negb (falsy c) && negb (test c)
  | None => false
  end.

(** The predicate given to [data.persons.filter]. *)
Definition personMatches (filter : PersonFilter.t) (person : ParsedPerson.t)
  : bool :=
  if unmet (PersonFilter.id filter) (λ c, includes (ParsedPerson.id person) c)
  then false
  else if unmet (PersonFilter.name filter)
            (λ c, includes (toLowerCase (ParsedPerson.name person))
                    (toLowerCase c))
  then false
  else if unmet (PersonFilter.birthDate filter)
            (λ c, includes (ParsedPerson.birthDate person) c)
  then false
  else if unmet (PersonFilter.deathDate filter)
            (λ c, includes (ParsedPerson.deathDate person) c)
  then false
  else if unmet (PersonFilter.fams filter)
            (λ c, existsb (λ id, includes id c) (ParsedPerson.fams person))
  then false
  else if unmet (PersonFilter.famc filter)
            (λ c, existsb (λ id, includes id c) (ParsedPerson.famc person))
  then false
  else true.

Definition findIndividuals (data : ParseResult.t) (filter : PersonFilter.t)
  : list ParsedPerson.t :=
  List.filter (personMatches filter) (ParseResult.persons data).

(** [!family.husband || !family.husband.includes(c)], negated. *)
Definition spouseIncludes (spouse : option string) (c : string) : bool :=
  match spouse with
  | Some s => negb (falsy s) && includes s c
  | None => false
  end.

Definition familyMatches (filter : FamilyFilter.t) (family : ParsedFamily.t)
  : bool :=
  if unmet (FamilyFilter.id filter) (λ c, includes (ParsedFamily.id family) c)
  then false
  else if unmet (FamilyFilter.husband filter)
            (spouseIncludes (ParsedFamily.husband family))
  then false
  else if unmet (FamilyFilter.wife filter)
            (spouseIncludes (ParsedFamily.wife family))
  then false
  else if unmet (FamilyFilter.children filter)
            (λ c, existsb (λ id, includes id c) (ParsedFamily.children family))
  then false
  else true.

Definition findFamilies (data : ParseResult.t) (filter : FamilyFilter.t)
  : list ParsedFamily.t :=
  List.filter (familyMatches filter) (ParseResult.families data).

Definition findAll (data : ParseResult.t) (personFilter : option PersonFilter.t)
  (familyFilter : option FamilyFilter.t) : Found.t :=
  let individuals :=
    match personFilter with
    | Some filter => findIndividuals data filter
    | None => ParseResult.persons data
    end in
  let families :=
    match familyFilter with
    | Some filter => findFamilies data filter
    | None => ParseResult.families data
    end in
  Found.mk
    (FoundMeta.mk (length individuals) (length families)
       (Meta.individuals (ParseResult.meta data))
       (Meta.families (ParseResult.meta data))
       (Meta.encodingTag (ParseResult.meta data)))
    individuals families.

(** A filter that sets no criterion: each is absent or the empty string. *)
Definition unset (criterion : option string) : Prop :=
  criterion = None ∨ criterion = Some "".

Definition noPersonCriterion (filter : PersonFilter.t) : Prop :=
  unset (PersonFilter.id filter) ∧ unset (PersonFilter.name filter)
  ∧ unset (PersonFilter.birthDate filter) ∧ unset (PersonFilter.deathDate filter)
  ∧ unset (PersonFilter.fams filter) ∧ unset (PersonFilter.famc filter).

Definition noFamilyCriterion (filter : FamilyFilter.t) : Prop :=
  unset (FamilyFilter.id filter) ∧ unset (FamilyFilter.husband filter)
  ∧ unset (FamilyFilter.wife filter) ∧ unset (FamilyFilter.children filter).

(** [data] with its person list, or its family list, replaced: the input of
    a second search over the results of a first. *)
Definition withPersons (data : ParseResult.t) (persons : list ParsedPerson.t)
  : ParseResult.t :=
  ParseResult.mk (ParseResult.meta data) persons (ParseResult.families data).

Definition withFamilies (data : ParseResult.t) (families : list ParsedFamily.t)
  : ParseResult.t :=
  ParseResult.mk (ParseResult.meta data) (ParseResult.persons data) families.

End Finder.

(** A filter on the identifier alone. *)
Definition byId (id : string) : PersonFilter.t :=
  PersonFilter.mk (Some id) None None None None None.

(** Lower-casing of the letters A to Z, for concrete runs. *)
Definition asciiLower (s : string) : string :=
  String.string_of_list_ascii
    (map (λ c : ascii,
            let n := nat_of_ascii c in
            if (65 <=? n) && (n <=? 90) then ascii_of_nat (n + 32) else c)
       (String.list_ascii_of_string s)).

(** ** [GedcomGenerator] *)

(** [s.split(c)[0]]: what precedes the first [c], or all of [s]. *)
Fixpoint beforeChar (c : ascii) (s : string) : string :=
  match s with
  | EmptyString => EmptyString
  | String a rest =>
      if Ascii.eqb a c then EmptyString else String a (beforeChar c rest)
  end.

(** [s.replace(/a/g, b)] for single characters. *)
Fixpoint replaceChar (a b : ascii) (s : string) : string :=
  match s with
  | EmptyString => EmptyString
  | String x rest =>
      String (if Ascii.eqb x a then b else x) (replaceChar a b rest)
  end.

(** The line feed that [join] puts between the lines. *)
Definition newline : string := String (ascii_of_nat 10) EmptyString.

(** [if (field) lines.push(...)] for a string field. *)
Definition whenSet (field : string) (lines : list string) : list string :=
  if falsy field then [] else lines.

Definition generateIndividual (person : ParsedPerson.t) : list string :=
  ["0 " +:+ ParsedPerson.id person +:+ " INDI"]
  ++ whenSet (ParsedPerson.name person) ["1 NAME " +:+ ParsedPerson.name person]
  ++ whenSet (ParsedPerson.birthDate person)
       ["1 BIRT"; "2 DATE " +:+ ParsedPerson.birthDate person]
  ++ whenSet (ParsedPerson.deathDate person)
       ["1 DEAT"; "2 DATE " +:+ ParsedPerson.deathDate person]
  ++ map (λ famcId, "1 FAMC " +:+ famcId) (ParsedPerson.famc person)
  ++ map (λ famsId, "1 FAMS " +:+ famsId) (ParsedPerson.fams person).

Definition generateFamily (family : ParsedFamily.t) : list string :=
  ["0 " +:+ ParsedFamily.id family +:+ " FAM"]
  ++ (if truthy (ParsedFamily.husband family)
      then ["1 HUSB " +:+ default "" (ParsedFamily.husband family)] else [])
  ++ (if truthy (ParsedFamily.wife family)
      then ["1 WIFE " +:+ default "" (ParsedFamily.wife family)] else [])
  ++ map (λ childId, "1 CHIL " +:+ childId) (ParsedFamily.children family).

(** The [lines] array of [generateGedcom] before it is joined; [isoNow] is
    what [new Date().toISOString()] returns when the function runs. *)
Definition generateLines (isoNow : string) (data : ParseResult.t) : list string :=
  ["0 HEAD"; "1 SOUR n8n-gedcom"; "1 VERS 1.0"; "1 GEDC"; "2 VERS 5.5.1";
   "2 FORM LINEAGE-LINKED";
   "1 CHAR " +:+ Meta.encodingTag (ParseResult.meta data);
   "1 DATE " +:+ replaceChar "-" " " (beforeChar "T" isoNow)]
  ++ concat (map generateIndividual (ParseResult.persons data))
  ++ concat (map generateFamily (ParseResult.families data))
  ++ ["0 TRLR"].

Definition generateGedcom (isoNow : string) (data : ParseResult.t) : string :=
  String.concat newline (generateLines isoNow data).

(** Reading a line back: what follows [tag] in a line that starts with it. *)
Fixpoint afterTag (tag line : string) : option string :=
  match tag with
  | EmptyString => Some line
  | String a tag' =>
      match line with
      | EmptyString => None
      | String b line' => if Ascii.eqb a b then afterTag tag' line' else None
      end
  end.

(** The values of the lines that carry [tag], in order. *)
Definition tagged (tag : string) (lines : list string) : list string :=
  omap (afterTag tag) lines.

(** A string field as the list of its value, empty when it is not set. *)
Definition setField (field : string) : list string :=
  if falsy field then [] else [field].

(** ** [GedcomNameParser]

    A character of a [string] stands for the UTF-16 code unit of the same
    number, so the strings modelled here have code units below 256.  Among
    those, [trim] removes the tab, line feed, vertical tab, form feed,
    carriage return, space and no-break space. *)

Definition isWhiteSpace (c : ascii) : bool :=
  let n := nat_of_ascii c in
  (n =? 9) || (n =? 10) || (n =? 11) || (n =? 12) || (n =? 13) || (n =? 32)
  || (n =? 160).

Fixpoint trimStart (s : string) : string :=
  match s with
  | EmptyString => EmptyString
  | String c rest => if isWhiteSpace c then trimStart rest else s
  end.

Fixpoint trimEnd (s : string) : string :=
  match s with
  | EmptyString => EmptyString
  | String c rest =>
      match trimEnd rest with
      | EmptyString => if isWhiteSpace c then EmptyString else String c EmptyString
      | kept => String c kept
      end
  end.

(** [s.trim()] *)
Definition jsTrim (s : string) : string := trimEnd (trimStart s).

Definition isSlash (c : ascii) : bool := Ascii.eqb c "/".

(** The longest prefix without a slash, and what follows it. *)
Fixpoint spanNoSlash (s : string) : string * string :=
  match s with
  | EmptyString => (EmptyString, EmptyString)
  | String c rest =>
      if isSlash c then (EmptyString, s)
      else let '(run, tail) := spanNoSlash rest in (String c run, tail)
  end.

(** [nameValue.match(/\/([^\/]+)\//)]: the leftmost slash that is followed by
    one or more characters other than a slash and then a slash.  The result
    is what precedes the match ([substring(0, index)]), the captured group,
    and what follows the match ([substring(index + match[0].length)]). *)
Fixpoint matchLastName (s : string) : option (string * string * string) :=
  match s with
  | EmptyString => None
  | String c rest =>
      let later :=
        match matchLastName rest with
        | Some (before, group, after) => Some (String c before, group, after)
        | None => None
        end in
      if isSlash c then
        match spanNoSlash rest with
        | (String g run, String _ after) => Some (EmptyString, String g run, after)
        | _ => later
        end
      else later
  end.

(** [[before, after].filter(part => part).join(' ')] *)
Definition joinParts (before after : string) : string :=
  if falsy before then after
  else if falsy after then before
  else before +:+ " " +:+ after.

(** [s || undefined] *)
Definition orUndefined (s : string) : option string :=
  if falsy s then None else Some s.

Module GedcomNameParser.
Definition parseName (nameValue : string) : ParsedName.t :=
  if falsy nameValue then ParsedName.mk "" None None
  else
    let '(firstName, lastName) :=
      match matchLastName nameValue with
      | Some (before, group, after) =>
          (joinParts (jsTrim before) (jsTrim after), jsTrim group)
      | None => (jsTrim nameValue, "")
      end in
    let fullName :=
      if negb (falsy firstName) && negb (falsy lastName)
      then firstName +:+ " " +:+ lastName
      else if negb (falsy firstName) then firstName
      else if negb (falsy lastName) then lastName
      else "" in
    ParsedName.mk (if falsy fullName then nameValue else fullName)
      (orUndefined firstName) (orUndefined lastName).
End GedcomNameParser.

(** A string without a slash. *)
Fixpoint noSlash (s : string) : bool :=
  match s with
  | EmptyString => true
  | String c rest => negb (isSlash c) && noSlash rest
  end.

(** A name part as a GEDCOM file writes it: not empty, without a slash and
    without white space at either end. *)
Definition namePart (s : string) : Prop :=
  s ≠ "" ∧ noSlash s = true ∧ jsTrim s = s.

(** A platform with the repository's own name parser and the [trim] above. *)
Definition withNameParser (P : Platform) : Platform :=
  {| toString_utf8 := @toString_utf8 P;
     toString_utf16le := @toString_utf16le P;
     parseGedcom := @parseGedcom P;
     readGedcom := @readGedcom P;
     trim := jsTrim;
     parseName := GedcomNameParser.parseName |}.

(** ** Vocabulary for the properties of the normalizers *)

Section RecordKinds.
Context `{Platform}.

(** The two tests of the loop over [tree.children]. *)
Definition isIndividualRecord (record : Node.t) : bool :=
  String.eqb (Node.type record) "INDI" && truthy (xref record).

Definition isFamilyRecord (record : Node.t) : bool :=
  String.eqb (Node.type record) "FAM" && truthy (xref record).

(** The pointer a [FAMC] or [FAMS] child contributes, if any. *)
Definition linkOf (tag : string) (child : Node.t) : option string :=
  if String.eqb (Node.type child) tag then
    match pointerOf child with
    | Some p => if falsy p then None else Some p
    | None => None
    end
  else None.

(** The identifier a [CHIL] child contributes, if any. *)
Definition childOf (child : Node.t) : option string :=
  if String.eqb (Node.type child) "CHIL" then
    if truthy (pointerOf child) then pointerOf child
    else if truthy (Node.value child) then Node.value child
    else None
  else None.

(** What the last child tagged [tag] sets a spouse field to. *)
Definition spouseOf (tag : string) (children : list Node.t) : option string :=
  match last (List.filter (λ c, String.eqb (Node.type c) tag) children) with
  | Some c => pointerOrValue c
  | None => None
  end.

(** The value of the [CHAR] child of the [HEAD] record, as the normalizer
    looks it up: the first [HEAD] among the records, its first [CHAR] child. *)
Definition charValue (records : list Node.t) : option string :=
  match List.find (λ r, String.eqb (Node.type r) "HEAD") records with
  | Some headRecord =>
      match findChild "CHAR" (Node.children headRecord) with
      | Some charRecord => Node.value charRecord
      | None => None
      end
  | None => None
  end.

End RecordKinds.

(** [result.head.characterSet.value], when the object graph has one. *)
Definition characterSetValue (result : ReadResult.t) : option string :=
  match ReadResult.head result with
  | Some h =>
      match Head.characterSet h with
      | Some cs => ValueBox.value cs
      | None => None
      end
  | None => None
  end.

(** An identifier in canonical form: [canonicalizeId] leaves it alone. *)
Definition canonical (id : string) : Prop := GedcomParser.canonicalizeId id = id.

(** All the identifiers of a person, and of a family, are canonical. *)
Definition canonicalPerson (p : ParsedPerson.t) : Prop :=
  canonical (ParsedPerson.id p)
  ∧ Forall canonical (ParsedPerson.famc p)
  ∧ Forall canonical (ParsedPerson.fams p).

Definition canonicalFamily (f : ParsedFamily.t) : Prop :=
  canonical (ParsedFamily.id f)
  ∧ (∀ h, ParsedFamily.husband f = Some h → canonical h)
  ∧ (∀ w, ParsedFamily.wife f = Some w → canonical w)
  ∧ Forall canonical (ParsedFamily.children f).

(** ** Vocabulary for the properties of the traversals *)

(** [parentLink personMap familyMap id parent]: the ancestors walk follows a
    link from [id] to [parent]: [id] has a record, one of its [famc] entries
    names an existing family, and [parent] is that family's non-empty husband
    or wife. *)
Definition parentLink (personMap : gmap string ParsedPerson.t)
  (familyMap : gmap string ParsedFamily.t) (id parent : string) : Prop :=
  ∃ person familyId family,
    personMap !! id = Some person
    ∧ familyId ∈ ParsedPerson.famc person
    ∧ familyMap !! familyId = Some family
    ∧ (ParsedFamily.husband family = Some parent
       ∨ ParsedFamily.wife family = Some parent)
    ∧ parent ≠ "".

(** [childLink personMap familyMap id child]: the descendants walk follows a
    link from [id] to [child]: [id] has a record, one of its [fams] entries
    names an existing family, and [child] is among that family's children. *)
Definition childLink (personMap : gmap string ParsedPerson.t)
  (familyMap : gmap string ParsedFamily.t) (id child : string) : Prop :=
  ∃ person familyId family,
    personMap !! id = Some person
    ∧ familyId ∈ ParsedPerson.fams person
    ∧ familyMap !! familyId = Some family
    ∧ child ∈ ParsedFamily.children family.

(** A set of identifiers closed under a link relation. *)
Definition closedUnder (link : string → string → Prop) (ids : list string)
  : Prop :=
  ∀ id next, id ∈ ids → link id next → next ∈ ids.

(** Consecutive generations are linked by edges: every member of a generation
    after the first is the [key] end of an edge whose [src] end is in the
    generation before. *)
Definition levelled (key src : Edge.t → string) (generations : list (list string))
  (edges : list Edge.t) : Prop :=
  ∀ k g g' id,
    generations !! k = Some g → generations !! S k = Some g' → id ∈ g' →
    ∃ e, e ∈ edges ∧ key e = id ∧ src e ∈ g.

(** The current generation hangs off the last recorded one in the same way. *)
Definition frontierLinked (key src : Edge.t → string) (v : Vars.t) : Prop :=
  ∀ g id,
    last (Vars.generations v) = Some g → id ∈ Vars.currentGeneration v →
    ∃ e, e ∈ Vars.edges v ∧ key e = id ∧ src e ∈ g.

(** ** Strings *)

Lemma endsWith_snoc (s : string) : endsWith (s +:+ "@") "@" = true.
Proof.
  unfold endsWith.
  assert (Hlen : ∀ t, String.length (t +:+ "@") = S (String.length t)).
  { induction t as [|c t IH]; simpl; [done | by rewrite IH]. }
  assert (Hsub : ∀ t, String.substring (String.length t) 1 (t +:+ "@") = "@").
  { induction t as [|c t IH]; simpl; [done | exact IH]. }
  rewrite Hlen. simpl String.length.
  replace (S (String.length s) - 1)%nat with (String.length s) by lia.
  rewrite Hsub. rewrite bool_decide_eq_true_2 by done.
  rewrite andb_true_r. apply Nat.leb_le. lia.
Qed.

Lemma canonicalizeId_wrapped (s : string) :
  GedcomAncestry.canonicalizeId ("@" +:+ s +:+ "@") = "@" +:+ s +:+ "@".
Proof.
  unfold GedcomAncestry.canonicalizeId.
  replace ("@" +:+ s +:+ "@") with (String "@"%char (s +:+ "@")) by done.
  assert (Hend : endsWith (String "@"%char (s +:+ "@")) "@" = true).
  { exact (endsWith_snoc (String "@"%char s)). }
  rewrite Hend. unfold falsy, startsWith. simpl.
  destruct (s +:+ "@"); reflexivity.
Qed.

Lemma canonicalizeId_same (s : string) :
  GedcomParser.canonicalizeId s = GedcomAncestry.canonicalizeId s.
Proof. reflexivity. Qed.

(** C8. [canonicalizeId] is idempotent; a string that already starts and ends
    with [@] is returned unchanged, any other non-empty string [s] becomes
    [@s@], and the empty string stays empty.  In particular
    [canonicalizeId "I5" = "@I5@" = canonicalizeId "@I5@"].  All of this holds
    for the copy of the function in the traversal class and for the copy in
    the parser class, which agree on every string. *)
Theorem canonicalizeId_idempotent :
  ((∀ x, GedcomAncestry.canonicalizeId (GedcomAncestry.canonicalizeId x)
         = GedcomAncestry.canonicalizeId x)
   ∧ (∀ x, startsWith x "@" = true → endsWith x "@" = true →
           GedcomAncestry.canonicalizeId x = x)
   ∧ (∀ s, s ≠ "" → ¬ (startsWith s "@" = true ∧ endsWith s "@" = true) →
           GedcomAncestry.canonicalizeId s = "@" +:+ s +:+ "@")
   ∧ GedcomAncestry.canonicalizeId "" = ""
   ∧ GedcomAncestry.canonicalizeId "I5" = "@I5@"
   ∧ GedcomAncestry.canonicalizeId "@I5@" = "@I5@")
  ∧ ((∀ x, GedcomParser.canonicalizeId (GedcomParser.canonicalizeId x)
           = GedcomParser.canonicalizeId x)
     ∧ (∀ x, startsWith x "@" = true → endsWith x "@" = true →
             GedcomParser.canonicalizeId x = x)
     ∧ (∀ s, s ≠ "" → ¬ (startsWith s "@" = true ∧ endsWith s "@" = true) →
             GedcomParser.canonicalizeId s = "@" +:+ s +:+ "@")
     ∧ GedcomParser.canonicalizeId "" = ""
     ∧ GedcomParser.canonicalizeId "I5" = "@I5@"
     ∧ GedcomParser.canonicalizeId "@I5@" = "@I5@")
  ∧ (∀ x, GedcomParser.canonicalizeId x = GedcomAncestry.canonicalizeId x).
Proof.
  assert (Hidem : ∀ x, GedcomAncestry.canonicalizeId (GedcomAncestry.canonicalizeId x)
                       = GedcomAncestry.canonicalizeId x).
  { intros x. unfold GedcomAncestry.canonicalizeId at 2 3.
    destruct (falsy x) eqn:Hx; [reflexivity |].
    destruct (startsWith x "@" && endsWith x "@") eqn:Hw.
    - unfold GedcomAncestry.canonicalizeId. by rewrite Hx, Hw.
    - apply canonicalizeId_wrapped. }
  assert (Hkeep : ∀ x, startsWith x "@" = true → endsWith x "@" = true →
                       GedcomAncestry.canonicalizeId x = x).
  { intros x Hs He. unfold GedcomAncestry.canonicalizeId.
    rewrite Hs, He. simpl. destruct (falsy x) eqn:Hx; [| reflexivity].
    unfold falsy in Hx. by apply bool_decide_eq_true_1 in Hx. }
  assert (Hwrap : ∀ s, s ≠ "" →
                       ¬ (startsWith s "@" = true ∧ endsWith s "@" = true) →
                       GedcomAncestry.canonicalizeId s = "@" +:+ s +:+ "@").
  { intros s Hne Hnot. unfold GedcomAncestry.canonicalizeId, falsy.
    rewrite bool_decide_eq_false_2 by done.
    destruct (startsWith s "@" && endsWith s "@") eqn:Hw; [| reflexivity].
    apply andb_true_iff in Hw. contradiction. }
  split; [| split].
  - repeat split; try reflexivity; assumption.
  - split; [intros x; rewrite !canonicalizeId_same; apply Hidem |].
    split; [intros x; rewrite canonicalizeId_same; apply Hkeep |].
    split; [intros s; rewrite canonicalizeId_same; apply Hwrap |].
    repeat split; reflexivity.
  - exact canonicalizeId_same.
Qed.

Lemma canonicalizeId_idempotent_witness :
  GedcomAncestry.canonicalizeId "@F1@" = "@F1@"
  ∧ GedcomAncestry.canonicalizeId "I7" = "@" +:+ "I7" +:+ "@"
  ∧ GedcomParser.canonicalizeId "@F1@" = "@F1@"
  ∧ GedcomParser.canonicalizeId "I7" = "@" +:+ "I7" +:+ "@".
Proof.
  destruct canonicalizeId_idempotent
    as ((_ & Hkeep & Hwrap & _) & (_ & Hkeep' & Hwrap' & _) & _).
  split; [apply Hkeep; reflexivity |].
  split; [apply Hwrap; [discriminate | intros [Hs _]; discriminate Hs] |].
  split; [apply Hkeep'; reflexivity |].
  apply Hwrap'; [discriminate | intros [Hs _]; discriminate Hs].
Defined.
(** ** Maps built from the record lists *)

Lemma buildPersonMap_lookup_gen (ps : list ParsedPerson.t)
  (m : gmap string ParsedPerson.t) (k : string) (p : ParsedPerson.t) :
  foldl (λ personMap person, <[ParsedPerson.id person := person]> personMap) m ps
    !! k = Some p →
  (p ∈ ps ∧ ParsedPerson.id p = k) ∨ m !! k = Some p.
Proof.
  revert m. induction ps as [|q ps IH]; intros m Hlook; simpl in Hlook.
  - by right.
  - destruct (IH _ Hlook) as [[Hin Hid] | Hm].
    + left. split; [by apply elem_of_cons; right | done].
    + destruct (decide (ParsedPerson.id q = k)) as [Heq | Hne].
      * rewrite Heq, lookup_insert_eq in Hm. injection Hm as <-.
        left. split; [by apply elem_of_cons; left | done].
      * rewrite lookup_insert_ne in Hm by done. by right.
Qed.

Lemma buildPersonMap_lookup (ps : list ParsedPerson.t) (k : string)
  (p : ParsedPerson.t) :
  buildPersonMap ps !! k = Some p → p ∈ ps ∧ ParsedPerson.id p = k.
Proof.
  intros Hlook. apply buildPersonMap_lookup_gen in Hlook as [Hin | Hempty].
  - exact Hin.
  - by rewrite lookup_empty in Hempty.
Qed.

Lemma buildPersonMap_keyed (ps : list ParsedPerson.t) :
  keyedById (buildPersonMap ps).
Proof. intros k p Hlook. by apply buildPersonMap_lookup in Hlook as [_ Hid]. Qed.

Lemma buildPersonMap_has_gen (ps : list ParsedPerson.t)
  (m : gmap string ParsedPerson.t) (k : string) :
  k ∈ map ParsedPerson.id ps ∨ is_Some (m !! k) →
  is_Some
    (foldl (λ personMap person, <[ParsedPerson.id person := person]> personMap)
       m ps !! k).
Proof.
  revert m. induction ps as [|q ps IH]; intros m Hk; simpl in *.
  - destruct Hk as [Hin | Hm]; [by apply elem_of_nil in Hin | done].
  - apply IH. destruct Hk as [Hin | Hm].
    + apply elem_of_cons in Hin as [-> | Hin]; [| by left].
      right. rewrite lookup_insert_eq. by eexists.
    + right. destruct (decide (ParsedPerson.id q = k)) as [<- | Hne].
      * rewrite lookup_insert_eq. by eexists.
      * by rewrite lookup_insert_ne.
Qed.

Lemma buildPersonMap_has (ps : list ParsedPerson.t) (k : string) :
  k ∈ map ParsedPerson.id ps ↔ is_Some (buildPersonMap ps !! k).
Proof.
  split.
  - intros Hin. apply buildPersonMap_has_gen. by left.
  - intros [p Hp]. apply buildPersonMap_lookup in Hp as [Hin <-].
    apply list_elem_of_fmap. by exists p.
Qed.

(** ** The set of visited identifiers *)

Lemma Set_add_fresh (s : list string) (x : string) :
  Set_has s x = false → Set_add s x = s ++ [x].
Proof. intros Hx. unfold Set_add. by rewrite Hx. Qed.

Lemma Set_has_false (s : list string) (x : string) :
  Set_has s x = false ↔ x ∉ s.
Proof. unfold Set_has. apply bool_decide_eq_false. Qed.

Lemma Set_has_true (s : list string) (x : string) :
  Set_has s x = true ↔ x ∈ s.
Proof. unfold Set_has. apply bool_decide_eq_true. Qed.

(** ** Discoveries *)

Section Growth.
Variable key : Edge.t → string.
Variable ok : Edge.t → Prop.

Lemma grows_refl (v : Vars.t) : grows key ok v v.
Proof.
  exists []. simpl. rewrite !app_nil_r.
  repeat split; try done.
  - constructor.
  - intros x Hx. by apply elem_of_nil in Hx.
Qed.

Lemma grows_trans (v1 v2 v3 : Vars.t) :
  grows key ok v1 v2 → grows key ok v2 v3 → grows key ok v1 v3.
Proof.
  intros (es1 & Hg1 & Hc1 & He1 & Hn1 & Hv1 & Hd1 & Hf1 & Hok1)
         (es2 & Hg2 & Hc2 & He2 & Hn2 & Hv2 & Hd2 & Hf2 & Hok2).
  exists (es1 ++ es2). rewrite map_app.
  split; [congruence |]. split; [congruence |].
  split; [by rewrite He2, He1, app_assoc |].
  split; [by rewrite Hn2, Hn1, app_assoc |].
  split; [by rewrite Hv2, Hv1, app_assoc |].
  split.
  { apply NoDup_app. split; [done |]. split; [| done].
    intros x Hx1 Hx2. apply (Hf2 x Hx2). rewrite Hv1.
    apply elem_of_app. by right. }
  split.
  { intros x Hx. apply elem_of_app in Hx as [Hx | Hx]; [by apply Hf1 |].
    intros Hin. apply (Hf2 x Hx). rewrite Hv1. apply elem_of_app. by left. }
  by apply Forall_app.
Qed.

Lemma grows_foldl {A} (f : Vars.t → A → Vars.t) (l : list A) (v : Vars.t) :
  (∀ w a, a ∈ l → grows key ok w (f w a)) → grows key ok v (foldl f v l).
Proof.
  revert v. induction l as [|a l IH]; intros v Hf; simpl.
  - apply grows_refl.
  - eapply grows_trans.
    + apply Hf. by apply elem_of_cons; left.
    + apply IH. intros w b Hb. apply Hf. by apply elem_of_cons; right.
Qed.

Lemma grows_discover (v : Vars.t) (id : string) (e : Edge.t) :
  Set_has (Vars.visitedPersons v) id = false → key e = id → ok e →
  grows key ok v (discover id e v).
Proof.
  intros Hfresh Hkey Hok. exists [e]. simpl. rewrite Hkey.
  rewrite Set_add_fresh by done.
  repeat split; try done.
  - apply NoDup_singleton.
  - intros x Hx. apply list_elem_of_singleton in Hx as ->.
    by apply Set_has_false.
  - by apply Forall_singleton.
Qed.

(** *** The generation loop *)

Variable visitPerson : Vars.t → string → Vars.t.
Hypothesis visitPerson_grows : ∀ v personId, grows key ok v (visitPerson v personId).
Variable root : string.

Lemma WalkInv_initial : WalkInv key ok root (initialVars root).
Proof.
  split; simpl; try done.
  - apply NoDup_singleton.
  - by left.
Qed.

Lemma WalkInv_generation (v : Vars.t) :
  WalkInv key ok root v → Vars.currentGeneration v ≠ [] →
  WalkInv key ok root
    (closeGeneration
       (foldl visitPerson (openGeneration v) (Vars.currentGeneration v))).
Proof.
  intros [Hvis Hnd Hed Hok Hne Hfirst] Hcur.
  destruct (grows_foldl visitPerson (Vars.currentGeneration v) (openGeneration v))
    as (es & Hg & Hc & He & Hn & Hv & Hd & Hf & Hoks).
  { intros w a _. apply visitPerson_grows. }
  simpl in Hg, Hc, He, Hn, Hv, Hf.
  split; simpl.
  - rewrite Hv, Hn, Hg, Hvis, concat_app. simpl.
    by rewrite app_nil_r.
  - rewrite Hv. apply NoDup_app. split; [done |]. split; [| done].
    intros x Hx1 Hx2. by apply (Hf x Hx2).
  - rewrite Hv, He, Hed, map_app. done.
  - rewrite He. by apply Forall_app.
  - rewrite Hg. apply Forall_app. split; [done |]. by apply Forall_singleton.
  - right. rewrite Hg. destruct Hfirst as [[-> ->] | [rest ->]].
    + by exists [].
    + by eexists.
Qed.

Lemma generationLoop_inv (n : nat) (v : Vars.t) :
  WalkInv key ok root v → WalkInv key ok root (generationLoop visitPerson n v).
Proof.
  revert v. induction n as [|n IH]; intros v Hinv; simpl; [done |].
  destruct (Vars.currentGeneration v) as [|c cs] eqn:Hcur; [done |].
  apply IH. rewrite <- Hcur. apply WalkInv_generation; [done |].
  by rewrite Hcur.
Qed.

Lemma generationLoop_length (n : nat) (v : Vars.t) :
  length (Vars.generations (generationLoop visitPerson n v))
  ≤ length (Vars.generations v) + n.
Proof.
  revert v. induction n as [|n IH]; intros v; simpl; [lia |].
  destruct (Vars.currentGeneration v) as [|c cs] eqn:Hcur; [lia |].
  etrans; [apply IH |].
  destruct (grows_foldl visitPerson (c :: cs) (openGeneration v))
    as (es & Hg & _).
  { intros w a _. apply visitPerson_grows. }
  simpl in *. rewrite Hg, length_app. simpl. lia.
Qed.

(** The loop is left early only on an empty current generation. *)
Lemma generationLoop_early (n : nat) (v : Vars.t) :
  length (Vars.generations (generationLoop visitPerson n v))
  < length (Vars.generations v) + n →
  Vars.currentGeneration (generationLoop visitPerson n v) = [].
Proof.
  revert v. induction n as [|n IH]; intros v; simpl; [lia |].
  destruct (Vars.currentGeneration v) as [|c cs] eqn:Hcur; [done |].
  intros Hlt. apply IH.
  destruct (grows_foldl visitPerson (c :: cs) (openGeneration v))
    as (es & Hg & _).
  { intros w a _. apply visitPerson_grows. }
  simpl in *. rewrite Hg, length_app. simpl. lia.
Qed.

(** One allowed iteration is enough for generation 0 to be recorded. *)
Lemma generationLoop_first (n : nat) (v : Vars.t) :
  WalkInv key ok root v → 0 < n + length (Vars.generations v) →
  ∃ rest, Vars.generations (generationLoop visitPerson n v) = [root] :: rest.
Proof.
  revert v. induction n as [|n IH]; intros v Hinv Hpos; simpl.
  - destruct (inv_first _ _ _ _ Hinv) as [[Hnil _] | Hrest]; [| done].
    rewrite Hnil in Hpos. simpl in Hpos. lia.
  - destruct (Vars.currentGeneration v) as [|c cs] eqn:Hcur.
    + destruct (inv_first _ _ _ _ Hinv) as [[_ Habs] | Hrest]; [| done].
      by rewrite Hcur in Habs.
    + apply IH.
      * rewrite <- Hcur. apply WalkInv_generation; [done | by rewrite Hcur].
      * destruct (grows_foldl visitPerson (c :: cs) (openGeneration v))
          as (es & Hg & _).
        { intros w a _. apply visitPerson_grows. }
        simpl in *. rewrite Hg, length_app. simpl. lia.
Qed.

End Growth.

(** ** The two traversals as instances *)

Lemma ancestorsLoop_generationLoop (personMap : gmap string ParsedPerson.t)
  (familyMap : gmap string ParsedFamily.t) (n : nat) (v : Vars.t) :
  ancestorsLoop personMap familyMap n v
  = generationLoop (ancestorsVisitPerson personMap familyMap) n v.
Proof.
  revert v. induction n as [|n IH]; intros v; simpl; [done |].
  destruct (Vars.currentGeneration v); [done | apply IH].
Qed.

Lemma descendantsLoop_generationLoop (personMap : gmap string ParsedPerson.t)
  (familyMap : gmap string ParsedFamily.t) (n : nat) (v : Vars.t) :
  descendantsLoop personMap familyMap n v
  = generationLoop (descendantsVisitPerson personMap familyMap) n v.
Proof.
  revert v. induction n as [|n IH]; intros v; simpl; [done |].
  destruct (Vars.currentGeneration v); [done | apply IH].
Qed.

Section Instances.
Variable personMap : gmap string ParsedPerson.t.
Variable familyMap : gmap string ParsedFamily.t.

Lemma ancestorsVisitFamily_grows (personId familyId : string)
  (person : ParsedPerson.t) (family : ParsedFamily.t) (v : Vars.t) :
  personMap !! personId = Some person →
  familyId ∈ ParsedPerson.famc person →
  familyMap !! familyId = Some family →
  grows Edge.parent (ancestorEdge personMap familyMap) v
    (ancestorsVisitFamily personId family v).
Proof.
  intros Hperson Hfamc Hfamily. unfold ancestorsVisitFamily. lazy zeta.
  match goal with
  | |- grows _ _ _ (match _ with Some _ => if _ && negb (Set_has (Vars.visitedPersons ?w) _) then _ else _ | None => _ end) =>
      set (v1 := w)
  end.
  apply (grows_trans _ _ v v1).
  - subst v1.
    destruct (ParsedFamily.husband family) as [husband|] eqn:Hh;
      [| apply grows_refl].
    destruct (negb (falsy husband)
              && negb (Set_has (Vars.visitedPersons v) husband)) eqn:Hcond;
      [| apply grows_refl].
    apply andb_true_iff in Hcond as [_ Hfresh].
    apply negb_true_iff in Hfresh.
    apply grows_discover; [done | done |].
    exists person, familyId, family. simpl. repeat split; try done. by left.
  - clearbody v1.
    destruct (ParsedFamily.wife family) as [wife|] eqn:Hw; [| apply grows_refl].
    destruct (negb (falsy wife)
              && negb (Set_has (Vars.visitedPersons v1) wife)) eqn:Hcond;
      [| apply grows_refl].
    apply andb_true_iff in Hcond as [_ Hfresh].
    apply negb_true_iff in Hfresh.
    apply grows_discover; [done | done |].
    exists person, familyId, family. simpl. repeat split; try done. by right.
Qed.

Lemma ancestorsVisitPerson_grows (v : Vars.t) (personId : string) :
  grows Edge.parent (ancestorEdge personMap familyMap) v
    (ancestorsVisitPerson personMap familyMap v personId).
Proof.
  unfold ancestorsVisitPerson.
  destruct (personMap !! personId) as [person|] eqn:Hperson; [| apply grows_refl].
  apply grows_foldl. intros w familyId Hin.
  destruct (familyMap !! familyId) as [family|] eqn:Hfamily; [| apply grows_refl].
  by eapply ancestorsVisitFamily_grows.
Qed.

Hypothesis personMap_keyed : keyedById personMap.

Lemma descendantsVisitChild_grows (personId familyId childId : string)
  (person : ParsedPerson.t) (family : ParsedFamily.t) (v : Vars.t) :
  personMap !! personId = Some person →
  familyId ∈ ParsedPerson.fams person →
  familyMap !! familyId = Some family →
  childId ∈ ParsedFamily.children family →
  grows Edge.child (descendantEdge personMap familyMap) v
    (descendantsVisitChild personId person family v childId).
Proof.
  intros Hperson Hfams Hfamily Hchild. unfold descendantsVisitChild.
  destruct (negb (Set_has (Vars.visitedPersons v) childId)) eqn:Hfresh;
    [| apply grows_refl].
  apply negb_true_iff in Hfresh.
  apply grows_discover; [done | done |].
  pose proof (personMap_keyed _ _ Hperson) as Hid.
  exists person, familyId, family. simpl.
  split; [done |]. split; [done |]. split; [done |]. split; [done |].
  split; [done |].
  case_bool_decide as Hhusb; split; split; done.
Qed.

Lemma descendantsVisitPerson_grows (v : Vars.t) (personId : string) :
  grows Edge.child (descendantEdge personMap familyMap) v
    (descendantsVisitPerson personMap familyMap v personId).
Proof.
  unfold descendantsVisitPerson.
  destruct (personMap !! personId) as [person|] eqn:Hperson; [| apply grows_refl].
  apply grows_foldl. intros w familyId Hin.
  destruct (familyMap !! familyId) as [family|] eqn:Hfamily; [| apply grows_refl].
  apply grows_foldl. intros w' childId Hchild.
  by eapply descendantsVisitChild_grows.
Qed.

End Instances.

(** What the loops establish, for the maps built from a [ParseResult]. *)
Lemma ancestorsWalk_inv (parseResult : ParseResult.t) (rootId : string)
  (maxGenerations : Z) :
  WalkInv Edge.parent
    (ancestorEdge (buildPersonMap (ParseResult.persons parseResult))
       (buildFamilyMap (ParseResult.families parseResult)))
    (GedcomAncestry.canonicalizeId rootId)
    (ancestorsWalk parseResult rootId maxGenerations).
Proof.
  unfold ancestorsWalk. rewrite ancestorsLoop_generationLoop.
  apply generationLoop_inv; [apply ancestorsVisitPerson_grows |].
  apply WalkInv_initial.
Qed.

Lemma descendantsWalk_inv (parseResult : ParseResult.t) (rootId : string)
  (maxGenerations : Z) :
  WalkInv Edge.child
    (descendantEdge (buildPersonMap (ParseResult.persons parseResult))
       (buildFamilyMap (ParseResult.families parseResult)))
    (GedcomAncestry.canonicalizeId rootId)
    (descendantsWalk parseResult rootId maxGenerations).
Proof.
  unfold descendantsWalk. rewrite descendantsLoop_generationLoop.
  apply generationLoop_inv.
  - apply descendantsVisitPerson_grows, buildPersonMap_keyed.
  - apply WalkInv_initial.
Qed.

(** With the root on record both functions return, and what they return is
    read off the variables the loop leaves. *)
Lemma computeAncestors_returns (parseResult : ParseResult.t) (rootId : string)
  (maxGenerations : Z) :
  GedcomAncestry.canonicalizeId rootId
    ∈ map ParsedPerson.id (ParseResult.persons parseResult) →
  computeAncestors parseResult rootId maxGenerations
  = Returns
      (AncestryResult.mk (GedcomAncestry.canonicalizeId rootId)
         (Vars.generations (ancestorsWalk parseResult rootId maxGenerations))
         (materialize (buildPersonMap (ParseResult.persons parseResult))
            (Vars.visitedPersons (ancestorsWalk parseResult rootId maxGenerations)))
         (Vars.edges (ancestorsWalk parseResult rootId maxGenerations))).
Proof.
  intros Hroot. apply buildPersonMap_has in Hroot.
  unfold computeAncestors. by rewrite bool_decide_eq_true_2.
Qed.

Lemma computeDescendants_returns (parseResult : ParseResult.t) (rootId : string)
  (maxGenerations : Z) :
  GedcomAncestry.canonicalizeId rootId
    ∈ map ParsedPerson.id (ParseResult.persons parseResult) →
  computeDescendants parseResult rootId maxGenerations
  = Returns
      (AncestryResult.mk (GedcomAncestry.canonicalizeId rootId)
         (Vars.generations (descendantsWalk parseResult rootId maxGenerations))
         (materialize (buildPersonMap (ParseResult.persons parseResult))
            (Vars.visitedPersons (descendantsWalk parseResult rootId maxGenerations)))
         (Vars.edges (descendantsWalk parseResult rootId maxGenerations))).
Proof.
  intros Hroot. apply buildPersonMap_has in Hroot.
  unfold computeDescendants. by rewrite bool_decide_eq_true_2.
Qed.

Lemma materialize_elem (personMap : gmap string ParsedPerson.t)
  (visitedPersons : list string) (p : ParsedPerson.t) :
  p ∈ materialize personMap visitedPersons
  ↔ ∃ id, id ∈ visitedPersons ∧ personMap !! id = Some p.
Proof. unfold materialize. apply list_elem_of_omap. Qed.

(** ** Properties of the traversals *)

(** The end-to-end runs of the specification. *)
Example ancestors_of_I3 :
  computeAncestors smallFamily "I3" 3
  = Returns
      (AncestryResult.mk "@I3@" [["@I3@"]; ["@I1@"; "@I2@"]]
         [person "@I3@" ["@F1@"] []; person "@I1@" [] ["@F1@"];
          person "@I2@" [] ["@F1@"]]
         [Edge.mk "@I1@" "@I3@" father; Edge.mk "@I2@" "@I3@" mother]).
Proof. vm_compute. reflexivity. Qed.

Example descendants_of_I1 :
  computeDescendants smallFamily "I1" 3
  = Returns
      (AncestryResult.mk "@I1@" [["@I1@"]; ["@I3@"]]
         [person "@I1@" [] ["@F1@"]; person "@I3@" ["@F1@"] []]
         [Edge.mk "@I1@" "@I3@" father]).
Proof. vm_compute. reflexivity. Qed.

Example ancestors_without_parents :
  computeAncestors smallFamily "@I1@" 3
  = Returns
      (AncestryResult.mk "@I1@" [["@I1@"]] [person "@I1@" [] ["@F1@"]] []).
Proof. vm_compute. reflexivity. Qed.

Example ancestors_unknown_root :
  computeAncestors smallFamily "I999" 3
  = Throws
      (NodeOperationError "Root person with ID 'I999' not found in GEDCOM data").
Proof. vm_compute. reflexivity. Qed.

Lemma generationsWellFormed_loop (key : Edge.t → string) (ok : Edge.t → Prop)
  (visitPerson : Vars.t → string → Vars.t) (root : string) (N : Z) :
  (∀ v personId, grows key ok v (visitPerson v personId)) → (1 ≤ N)%Z →
  generationsWellFormed root N
    (Vars.generations
       (generationLoop visitPerson (Z.to_nat N) (initialVars root))).
Proof.
  intros Hgrows HN.
  pose proof (generationLoop_inv key ok visitPerson Hgrows root (Z.to_nat N)
                (initialVars root) (WalkInv_initial key ok root)) as Hinv.
  split; [| split].
  - pose proof (generationLoop_length key ok visitPerson Hgrows (Z.to_nat N)
                  (initialVars root)) as Hlen.
    simpl in Hlen. lia.
  - exact (inv_nonempty _ _ _ _ Hinv).
  - apply (generationLoop_first key ok visitPerson Hgrows root);
      [apply WalkInv_initial | simpl; lia].
Qed.

Lemma visited_all_recorded (key : Edge.t → string) (ok : Edge.t → Prop)
  (visitPerson : Vars.t → string → Vars.t) (root : string) (N : Z) :
  (∀ v personId, grows key ok v (visitPerson v personId)) →
  (Z.of_nat
     (length
        (Vars.generations
           (generationLoop visitPerson (Z.to_nat N) (initialVars root)))) < N)%Z →
  Vars.visitedPersons (generationLoop visitPerson (Z.to_nat N) (initialVars root))
  = concat
      (Vars.generations
         (generationLoop visitPerson (Z.to_nat N) (initialVars root))).
Proof.
  intros Hgrows Hlt.
  pose proof (generationLoop_inv key ok visitPerson Hgrows root (Z.to_nat N)
                (initialVars root) (WalkInv_initial key ok root)) as Hinv.
  rewrite (inv_visited _ _ _ _ Hinv).
  rewrite (generationLoop_early key ok visitPerson Hgrows (Z.to_nat N)
             (initialVars root)).
  - by rewrite app_nil_r.
  - simpl. lia.
Qed.

(** C7. With the root on record and [maxGenerations = N >= 1], both traversals
    return a [generations] list of length at most [N] whose members are all
    non-empty and whose first member is [[root]]; when fewer than [N]
    generations are recorded, the walk ended on a generation without new
    discoveries, which is not appended: the recorded generations then hold
    every visited identifier. *)
Theorem generations_bounded_no_empty (parseResult : ParseResult.t)
  (rootId : string) (N : Z) :
  GedcomAncestry.canonicalizeId rootId
    ∈ map ParsedPerson.id (ParseResult.persons parseResult) →
  (1 ≤ N)%Z →
  ∃ ra rd,
    computeAncestors parseResult rootId N = Returns ra
    ∧ computeDescendants parseResult rootId N = Returns rd
    ∧ generationsWellFormed (GedcomAncestry.canonicalizeId rootId) N
        (AncestryResult.generations ra)
    ∧ generationsWellFormed (GedcomAncestry.canonicalizeId rootId) N
        (AncestryResult.generations rd)
    ∧ ((Z.of_nat (length (AncestryResult.generations ra)) < N)%Z →
       Vars.visitedPersons (ancestorsWalk parseResult rootId N)
       = concat (AncestryResult.generations ra))
    ∧ ((Z.of_nat (length (AncestryResult.generations rd)) < N)%Z →
       Vars.visitedPersons (descendantsWalk parseResult rootId N)
       = concat (AncestryResult.generations rd)).
Proof.
  intros Hroot HN.
  eexists _, _.
  split; [by apply computeAncestors_returns |].
  split; [by apply computeDescendants_returns |].
  simpl. unfold ancestorsWalk, descendantsWalk.
  rewrite ancestorsLoop_generationLoop, descendantsLoop_generationLoop.
  split; [| split; [| split]].
  - eapply generationsWellFormed_loop; [apply ancestorsVisitPerson_grows | done].
  - eapply generationsWellFormed_loop; [| done].
    apply descendantsVisitPerson_grows, buildPersonMap_keyed.
  - eapply visited_all_recorded. apply ancestorsVisitPerson_grows.
  - eapply visited_all_recorded.
    apply descendantsVisitPerson_grows, buildPersonMap_keyed.
Qed.

Lemma generations_bounded_no_empty_witness :
  ∃ ra rd,
    computeAncestors smallFamily "I3" 3 = Returns ra
    ∧ computeDescendants smallFamily "I3" 3 = Returns rd
    ∧ generationsWellFormed "@I3@" 3 (AncestryResult.generations ra)
    ∧ generationsWellFormed "@I3@" 3 (AncestryResult.generations rd)
    ∧ ((Z.of_nat (length (AncestryResult.generations ra)) < 3)%Z →
       Vars.visitedPersons (ancestorsWalk smallFamily "I3" 3)
       = concat (AncestryResult.generations ra))
    ∧ ((Z.of_nat (length (AncestryResult.generations rd)) < 3)%Z →
       Vars.visitedPersons (descendantsWalk smallFamily "I3" 3)
       = concat (AncestryResult.generations rd)).
Proof.
  apply (generations_bounded_no_empty smallFamily "I3" 3).
  - apply (bool_decide_unpack _). vm_compute. exact I.
  - lia.
Defined.

Lemma nodesCover_walk (key : Edge.t → string) (ok : Edge.t → Prop)
  (parseResult : ParseResult.t) (root : string) (v : Vars.t) :
  WalkInv key ok root v →
  nodesCover parseResult (Vars.visitedPersons v)
    (AncestryResult.mk root (Vars.generations v)
       (materialize (buildPersonMap (ParseResult.persons parseResult))
          (Vars.visitedPersons v))
       (Vars.edges v)).
Proof.
  intros Hinv. unfold nodesCover. simpl.
  split; [| split; [| split]].
  - intros id Hid. rewrite (inv_visited _ _ _ _ Hinv).
    apply elem_of_app. by left.
  - intros id Hvis Hrec. apply buildPersonMap_has in Hrec as [p Hp].
    exists p. split.
    + apply materialize_elem. by exists id.
    + by apply buildPersonMap_lookup in Hp as [_ Hid].
  - intros p Hp. apply materialize_elem in Hp as (id & Hvis & Hlook).
    apply buildPersonMap_lookup in Hlook as [Hin <-]. done.
  - intros id Hvis Hnorec (p & Hp & Hid). apply Hnorec.
    apply materialize_elem in Hp as (id' & _ & Hlook).
    apply buildPersonMap_lookup in Hlook as [Hin _].
    apply list_elem_of_fmap. by exists p.
Qed.

(** C2 (amended). With the root on record and [maxGenerations >= 1], the
    [nodes] list of either traversal holds a Person for every identifier
    marked visited that has a record in the persons list; every identifier in
    [generations] is among the visited ones; every node is the record of a
    visited identifier; and a visited identifier without a record has no
    element in [nodes]. *)
Theorem nodes_cover_recorded_visited (parseResult : ParseResult.t)
  (rootId : string) (N : Z) :
  GedcomAncestry.canonicalizeId rootId
    ∈ map ParsedPerson.id (ParseResult.persons parseResult) →
  (1 ≤ N)%Z →
  ∃ ra rd,
    computeAncestors parseResult rootId N = Returns ra
    ∧ computeDescendants parseResult rootId N = Returns rd
    ∧ nodesCover parseResult
        (Vars.visitedPersons (ancestorsWalk parseResult rootId N)) ra
    ∧ nodesCover parseResult
        (Vars.visitedPersons (descendantsWalk parseResult rootId N)) rd.
Proof.
  intros Hroot _.
  eexists _, _.
  split; [by apply computeAncestors_returns |].
  split; [by apply computeDescendants_returns |].
  split.
  - eapply nodesCover_walk, ancestorsWalk_inv.
  - eapply nodesCover_walk, descendantsWalk_inv.
Qed.

Lemma nodes_cover_recorded_visited_witness :
  ∃ ra rd,
    computeAncestors smallFamily "I3" 2 = Returns ra
    ∧ computeDescendants smallFamily "I3" 2 = Returns rd
    ∧ nodesCover smallFamily
        (Vars.visitedPersons (ancestorsWalk smallFamily "I3" 2)) ra
    ∧ nodesCover smallFamily
        (Vars.visitedPersons (descendantsWalk smallFamily "I3" 2)) rd.
Proof.
  apply (nodes_cover_recorded_visited smallFamily "I3" 2).
  - apply (bool_decide_unpack _). vm_compute. exact I.
  - lia.
Defined.

(** C2 as stated fails: in [danglingFamily] the root [@I3@] is on record and
    [maxGenerations = 2], the ancestors walk records the husband [@I1@] of
    [F1] in generation 1 and the descendants walk records the child [@I9@],
    but neither has a record, so [nodes] holds no element for them. *)
Lemma nodes_miss_unrecorded_identifier :
  GedcomAncestry.canonicalizeId "@I3@"
    ∈ map ParsedPerson.id (ParseResult.persons danglingFamily)
  ∧ (1 ≤ 2)%Z
  ∧ (∃ ra,
       computeAncestors danglingFamily "@I3@" 2 = Returns ra
       ∧ "@I1@" ∈ concat (AncestryResult.generations ra)
       ∧ ¬ ∃ p, p ∈ AncestryResult.nodes ra ∧ ParsedPerson.id p = "@I1@")
  ∧ (∃ rd,
       computeDescendants danglingFamily "@I3@" 2 = Returns rd
       ∧ "@I9@" ∈ concat (AncestryResult.generations rd)
       ∧ ¬ ∃ p, p ∈ AncestryResult.nodes rd ∧ ParsedPerson.id p = "@I9@").
Proof.
  split; [apply (bool_decide_unpack _); vm_compute; exact I |].
  split; [lia |].
  split.
  - eexists. split; [vm_compute; reflexivity |]. simpl.
    split; [apply (bool_decide_unpack _); vm_compute; exact I |].
    intros (p & Hp & Hid).
    apply list_elem_of_singleton in Hp. subst p. discriminate Hid.
  - eexists. split; [vm_compute; reflexivity |]. simpl.
    split; [apply (bool_decide_unpack _); vm_compute; exact I |].
    intros (p & Hp & Hid).
    apply list_elem_of_singleton in Hp. subst p. discriminate Hid.
Qed.

Lemma ancestorsVisitFamily_all_visited (personId : string)
  (family : ParsedFamily.t) (v : Vars.t) :
  (∀ h, ParsedFamily.husband family = Some h → h ∈ Vars.visitedPersons v) →
  (∀ w, ParsedFamily.wife family = Some w → w ∈ Vars.visitedPersons v) →
  ancestorsVisitFamily personId family v = v.
Proof.
  intros Hh Hw. unfold ancestorsVisitFamily.
  destruct (ParsedFamily.husband family) as [h|].
  - rewrite (proj2 (Set_has_true _ h)) by by apply Hh.
    rewrite andb_false_r.
    destruct (ParsedFamily.wife family) as [w|]; [| done].
    rewrite (proj2 (Set_has_true _ w)) by by apply Hw.
    by rewrite andb_false_r.
  - destruct (ParsedFamily.wife family) as [w|]; [| done].
    rewrite (proj2 (Set_has_true _ w)) by by apply Hw.
    by rewrite andb_false_r.
Qed.

(** C3. With the root on record and [maxGenerations >= 1], [computeAncestors]
    returns; the visited identifiers are the root followed by the parents of
    the edges, in order, so there is exactly one edge per identifier
    discovered beyond the root and the number of edges is the number of
    visited identifiers minus one; every relation is [father] or [mother]; no
    identifier occurs twice across the generations; no identifier is the
    parent of two edges and the root of none; and a family whose husband and
    wife are already visited changes nothing, so a second path to a visited
    identifier adds no edge. *)
Theorem ancestors_one_edge_per_discovery (parseResult : ParseResult.t)
  (rootId : string) (N : Z) :
  GedcomAncestry.canonicalizeId rootId
    ∈ map ParsedPerson.id (ParseResult.persons parseResult) →
  (1 ≤ N)%Z →
  ∃ r,
    computeAncestors parseResult rootId N = Returns r
    ∧ Vars.visitedPersons (ancestorsWalk parseResult rootId N)
      = GedcomAncestry.canonicalizeId rootId
        :: map Edge.parent (AncestryResult.edges r)
    ∧ length (AncestryResult.edges r)
      = length (Vars.visitedPersons (ancestorsWalk parseResult rootId N)) - 1
    ∧ NoDup (Vars.visitedPersons (ancestorsWalk parseResult rootId N))
    ∧ Forall (λ e, Edge.relation e = father ∨ Edge.relation e = mother)
        (AncestryResult.edges r)
    ∧ Forall
        (ancestorEdge (buildPersonMap (ParseResult.persons parseResult))
           (buildFamilyMap (ParseResult.families parseResult)))
        (AncestryResult.edges r)
    ∧ NoDup (concat (AncestryResult.generations r))
    ∧ (∀ id, id ∈ concat (AncestryResult.generations r) →
         id ∈ Vars.visitedPersons (ancestorsWalk parseResult rootId N))
    ∧ NoDup (map Edge.parent (AncestryResult.edges r))
    ∧ (GedcomAncestry.canonicalizeId rootId
         ∉ map Edge.parent (AncestryResult.edges r))
    ∧ (∀ personId family v,
         (∀ h, ParsedFamily.husband family = Some h → h ∈ Vars.visitedPersons v) →
         (∀ w, ParsedFamily.wife family = Some w → w ∈ Vars.visitedPersons v) →
         ancestorsVisitFamily personId family v = v).
Proof.
  intros Hroot _.
  eexists. split; [by apply computeAncestors_returns |]. simpl.
  pose proof (ancestorsWalk_inv parseResult rootId N) as Hinv.
  set (v := ancestorsWalk parseResult rootId N) in *.
  pose proof (inv_nodup _ _ _ _ Hinv) as Hnd.
  pose proof (inv_edges _ _ _ _ Hinv) as Hed.
  split; [exact Hed |].
  split; [rewrite Hed; simpl; rewrite length_map; lia |].
  split; [exact Hnd |].
  split; [apply Forall_forall; intros e _; destruct (Edge.relation e); auto |].
  split; [exact (inv_ok _ _ _ _ Hinv) |].
  split.
  { rewrite (inv_visited _ _ _ _ Hinv) in Hnd.
    by apply NoDup_app in Hnd as [Hnd _]. }
  split.
  { intros id Hid. rewrite (inv_visited _ _ _ _ Hinv).
    apply elem_of_app. by left. }
  rewrite Hed in Hnd. apply NoDup_cons in Hnd as [Hnotin Hnd'].
  split; [exact Hnd' |]. split; [exact Hnotin |].
  apply ancestorsVisitFamily_all_visited.
Qed.

Lemma ancestors_one_edge_per_discovery_witness :
  ∃ r,
    computeAncestors smallFamily "I3" 3 = Returns r
    ∧ length (AncestryResult.edges r)
      = length (Vars.visitedPersons (ancestorsWalk smallFamily "I3" 3)) - 1.
Proof.
  destruct (ancestors_one_edge_per_discovery smallFamily "I3" 3)
    as (r & Hr & _ & Hlen & _).
  - apply (bool_decide_unpack _). vm_compute. exact I.
  - lia.
  - exists r. split; [exact Hr | exact Hlen].
Defined.

Lemma foldl_skip_absent {V W} (m : gmap string W) (f : V → W → V)
  (keys : list string) (v : V) :
  foldl (λ v k, match m !! k with None => v | Some w => f v w end) v keys
  = foldl f v (omap (λ k, m !! k) keys).
Proof.
  revert v. induction keys as [|k keys IH]; intros v; simpl; [done |].
  destruct (m !! k); simpl; apply IH.
Qed.

(** C10. With the root on record both traversals return, for every
    [maxGenerations]; without it both throw root-not-found, naming the
    identifier as the caller gave it.  A generation member without a Person
    record leaves every variable as it was, and a person's [famc] or [fams]
    list is walked as the list of the families it names that exist: an entry
    naming an absent family contributes nothing. *)
Theorem traversal_only_fails_on_root (parseResult : ParseResult.t)
  (rootId : string) (N : Z) :
  let personMap := buildPersonMap (ParseResult.persons parseResult) in
  let familyMap := buildFamilyMap (ParseResult.families parseResult) in
  (GedcomAncestry.canonicalizeId rootId
     ∈ map ParsedPerson.id (ParseResult.persons parseResult) →
   (∃ r, computeAncestors parseResult rootId N = Returns r)
   ∧ (∃ r, computeDescendants parseResult rootId N = Returns r))
  ∧ (GedcomAncestry.canonicalizeId rootId
       ∉ map ParsedPerson.id (ParseResult.persons parseResult) →
     computeAncestors parseResult rootId N = Throws (rootNotFound rootId)
     ∧ computeDescendants parseResult rootId N = Throws (rootNotFound rootId))
  ∧ (∀ v personId,
       personId ∉ map ParsedPerson.id (ParseResult.persons parseResult) →
       ancestorsVisitPerson personMap familyMap v personId = v
       ∧ descendantsVisitPerson personMap familyMap v personId = v)
  ∧ (∀ v personId person,
       personMap !! personId = Some person →
       ancestorsVisitPerson personMap familyMap v personId
       = foldl (λ v family, ancestorsVisitFamily personId family v) v
           (omap (λ familyId, familyMap !! familyId) (ParsedPerson.famc person))
       ∧ descendantsVisitPerson personMap familyMap v personId
         = foldl
             (λ v family,
                foldl (descendantsVisitChild personId person family) v
                  (ParsedFamily.children family))
             v
             (omap (λ familyId, familyMap !! familyId) (ParsedPerson.fams person))).
Proof.
  intros personMap familyMap.
  split.
  { intros Hroot. split; eexists.
    - by apply computeAncestors_returns.
    - by apply computeDescendants_returns. }
  split.
  { intros Hroot. rewrite buildPersonMap_has in Hroot.
    unfold computeAncestors, computeDescendants.
    by rewrite bool_decide_eq_false_2. }
  split.
  { intros v personId Habsent. rewrite buildPersonMap_has in Habsent.
    unfold ancestorsVisitPerson, descendantsVisitPerson. fold personMap.
    destruct (personMap !! personId) eqn:Hlook; [| done].
    destruct Habsent. by eexists. }
  intros v personId person Hlook.
  unfold ancestorsVisitPerson, descendantsVisitPerson. rewrite Hlook.
  split.
  - apply (foldl_skip_absent familyMap
             (λ v family, ancestorsVisitFamily personId family v)).
  - apply (foldl_skip_absent familyMap
             (λ v family,
                foldl (descendantsVisitChild personId person family) v
                  (ParsedFamily.children family))).
Qed.

Lemma traversal_only_fails_on_root_witness :
  (∃ r, computeAncestors danglingFamily "I3" 4 = Returns r)
  ∧ (∃ r, computeDescendants danglingFamily "I3" 4 = Returns r).
Proof.
  apply (traversal_only_fails_on_root danglingFamily "I3" 4).
  apply (bool_decide_unpack _). vm_compute. exact I.
Defined.

(** ** The encoding detector *)

Section Detector.
Context `{Platform}.

Lemma detect_prefix_eq (buffer : Buffer) :
  detectAndDecodeGedcom buffer = detect_by_prefix buffer.
Proof.
  unfold detectAndDecodeGedcom, detect_by_prefix, hasPrefix, byteIs,
    utf8Mark, utf16leMark, utf16beMark.
  destruct buffer as [|a [|b [|c rest]]]; simpl;
    repeat case_bool_decide; simplify_eq; simpl; try done.
Qed.

Lemma detect_marked (b : Buffer) :
  detectAndDecodeGedcom (utf8Mark ++ b) = toString_utf8 b.
Proof. reflexivity. Qed.

Lemma validUtf8_first (x : Z) (rest : Buffer) :
  validUtf8 (x :: rest) = true → (x ≤ 0xF4)%Z.
Proof.
  unfold validUtf8. simpl. unfold utf8Lead.
  repeat (case_match; try lia); discriminate.
Qed.

Lemma detect_unmarked (b : Buffer) :
  validUtf8 b = true → hasPrefix utf8Mark b = false →
  detectAndDecodeGedcom b = toString_utf8 b.
Proof.
  intros Hvalid Hmark. rewrite detect_prefix_eq. unfold detect_by_prefix.
  rewrite Hmark.
  destruct b as [|x rest]; [done |].
  apply validUtf8_first in Hvalid.
  unfold hasPrefix, utf16leMark, utf16beMark.
  destruct rest as [|y rest]; simpl;
    repeat case_bool_decide; simplify_eq; simpl; try done; lia.
Qed.

End Detector.

(** C5. The detector is the prefix-check definition of the specification: a
    buffer beginning EF BB BF is decoded as UTF-8 without its first 3 bytes, one
    beginning FF FE or FE FF as UTF-16 little-endian without its first 2 bytes
    (the big-endian mark included), and any other buffer whole as UTF-8. *)
Theorem detector_is_prefix_check `{Platform} (buffer : Buffer) :
  detectAndDecodeGedcom buffer = detect_by_prefix buffer.
Proof. apply detect_prefix_eq. Qed.

(** C9 (amended). For a well-formed UTF-8 byte sequence [b] that does not
    itself begin with EF BB BF, the buffer EF BB BF ++ [b] decodes to the same
    text as [b] alone, namely the UTF-8 decoding of [b]. *)
Theorem utf8_mark_transparent `{Platform} (b : Buffer) :
  validUtf8 b = true →
  hasPrefix utf8Mark b = false →
  detectAndDecodeGedcom (utf8Mark ++ b) = detectAndDecodeGedcom b
  ∧ detectAndDecodeGedcom b = toString_utf8 b.
Proof.
  intros Hvalid Hmark.
  rewrite detect_marked, detect_unmarked by done. done.
Qed.

Lemma utf8_mark_transparent_witness :
  validUtf8 headLine = true
  ∧ @detectAndDecodeGedcom (nodePlatform (Returns None) (Returns sampleGraph))
      (utf8Mark ++ headLine)
    = @detectAndDecodeGedcom (nodePlatform (Returns None) (Returns sampleGraph))
        headLine.
Proof.
  split; [reflexivity |].
  apply (@utf8_mark_transparent
           (nodePlatform (Returns None) (Returns sampleGraph)) headLine);
    reflexivity.
Defined.

(** C9 as stated fails when the text itself begins with U+FEFF: [markedA] is
    well-formed UTF-8, the buffer EF BB BF ++ [markedA] decodes to U+FEFF "A"
    (one mark stripped, the second decoded), and [markedA] alone to "A". *)
Lemma utf8_mark_not_transparent :
  validUtf8 markedA = true
  ∧ @detectAndDecodeGedcom (nodePlatform (Returns None) (Returns sampleGraph))
      (utf8Mark ++ markedA)
    = Returns [0xFEFF; 0x41]%Z
  ∧ @detectAndDecodeGedcom (nodePlatform (Returns None) (Returns sampleGraph))
      markedA
    = Returns [0x41]%Z
  ∧ @detectAndDecodeGedcom (nodePlatform (Returns None) (Returns sampleGraph))
      (utf8Mark ++ markedA)
    ≠ @detectAndDecodeGedcom (nodePlatform (Returns None) (Returns sampleGraph))
        markedA.
Proof.
  split; [reflexivity |].
  split; [reflexivity |].
  split; [reflexivity |].
  vm_compute. discriminate.
Qed.

(** ** The normalizers and the orchestrator *)

Section Orchestrator.
Context `{Platform}.

Lemma normalizeParseGedcomResult_counts (tree : option Node.t)
  (encodingTag : string) (r : ParseResult.t) :
  normalizeParseGedcomResult tree encodingTag = Returns r →
  Meta.individuals (ParseResult.meta r) = length (ParseResult.persons r)
  ∧ Meta.families (ParseResult.meta r) = length (ParseResult.families r).
Proof.
  unfold normalizeParseGedcomResult.
  destruct tree as [t|]; [| discriminate].
  destruct (Node.children t) as [records|]; [| discriminate].
  destruct (foldl collectRecord ([], []) records) as [persons families].
  intros [= <-]. done.
Qed.

Lemma normalizeReadGedcomResult_counts (result : ReadResult.t) :
  Meta.individuals (ParseResult.meta (normalizeReadGedcomResult result))
  = length (ParseResult.persons (normalizeReadGedcomResult result))
  ∧ Meta.families (ParseResult.meta (normalizeReadGedcomResult result))
    = length (ParseResult.families (normalizeReadGedcomResult result)).
Proof. done. Qed.

Lemma parse_returns_inv (buffer : Buffer) (r : ParseResult.t) :
  parseGedcomWithFallback buffer = Returns r →
  ∃ gedcomText,
    detectAndDecodeGedcom buffer = Returns gedcomText
    ∧ (primaryAttempt gedcomText = Returns r
       ∨ ∃ error result,
           primaryAttempt gedcomText = Throws error
           ∧ readGedcom buffer = Returns result
           ∧ r = normalizeReadGedcomResult result).
Proof.
  unfold parseGedcomWithFallback, fallbackAttempt.
  destruct (detectAndDecodeGedcom buffer) as [gedcomText | e]; [| discriminate].
  cbn. intros Hret. exists gedcomText. split; [done |].
  destruct (primaryAttempt gedcomText) as [r' | error]; cbn in Hret.
  - left. congruence.
  - right. destruct (readGedcom buffer) as [result | fe]; cbn in Hret;
      [| discriminate].
    exists error, result. by injection Hret as <-.
Qed.

End Orchestrator.

(** C1. Whenever [parseGedcomWithFallback] returns a [ParseResult], by the
    record-tree normalizer or by the object-graph normalizer, its
    [meta.individuals] is the length of [persons] and its [meta.families] the
    length of [families]; so it is for each normalizer on its own. *)
Theorem meta_counts_match_lists `{Platform} (buffer : Buffer) (r : ParseResult.t) :
  parseGedcomWithFallback buffer = Returns r →
  (Meta.individuals (ParseResult.meta r) = length (ParseResult.persons r)
   ∧ Meta.families (ParseResult.meta r) = length (ParseResult.families r))
  ∧ (∀ tree encodingTag r',
       normalizeParseGedcomResult tree encodingTag = Returns r' →
       Meta.individuals (ParseResult.meta r') = length (ParseResult.persons r')
       ∧ Meta.families (ParseResult.meta r') = length (ParseResult.families r'))
  ∧ (∀ result,
       Meta.individuals (ParseResult.meta (normalizeReadGedcomResult result))
       = length (ParseResult.persons (normalizeReadGedcomResult result))
       ∧ Meta.families (ParseResult.meta (normalizeReadGedcomResult result))
         = length (ParseResult.families (normalizeReadGedcomResult result))).
Proof.
  intros Hret.
  split; [| split; [apply normalizeParseGedcomResult_counts
                   | apply normalizeReadGedcomResult_counts]].
  apply parse_returns_inv in Hret
    as (gedcomText & _ & [Hprimary | (error & result & _ & _ & ->)]).
  - unfold primaryAttempt in Hprimary.
    destruct (parseGedcom gedcomText) as [tree | e]; [| discriminate].
    by eapply normalizeParseGedcomResult_counts.
  - apply normalizeReadGedcomResult_counts.
Qed.

Lemma meta_counts_match_lists_witness :
  ∃ r,
    @parseGedcomWithFallback
      (nodePlatform (Returns (Some sampleTree)) (Returns sampleGraph))
      markedHeadLine = Returns r
    ∧ Meta.individuals (ParseResult.meta r) = length (ParseResult.persons r)
    ∧ Meta.families (ParseResult.meta r) = length (ParseResult.families r)
    ∧ length (ParseResult.persons r) = 2.
Proof.
  eexists. split; [vm_compute; reflexivity |].
  destruct (@meta_counts_match_lists
              (nodePlatform (Returns (Some sampleTree)) (Returns sampleGraph))
              markedHeadLine _ eq_refl) as [[Hind Hfam] _].
  split; [exact Hind |]. split; [exact Hfam | reflexivity].
Defined.

(** C4. When decoding throws, [parseGedcomWithFallback] throws the decode
    error, whatever the two libraries would answer; when decoding returns and
    the primary attempt throws, the outcome is that of the fallback on the
    buffer it was given: its result if [readGedcom] returns, and otherwise one
    error whose message names the primary and the fallback message; a returned
    result is always the whole result of one of the two normalizers. *)
Theorem parse_error_flow (P : Platform) (buffer : Buffer) :
  (∀ (P' : Platform) e,
     @toString_utf8 P' = @toString_utf8 P →
     @toString_utf16le P' = @toString_utf16le P →
     @detectAndDecodeGedcom P buffer = Throws e →
     @parseGedcomWithFallback P' buffer
     = Throws
         (NodeOperationError ("Failed to decode GEDCOM file: " +:+ message e)))
  ∧ (∀ gedcomText r,
       detectAndDecodeGedcom buffer = Returns gedcomText →
       primaryAttempt gedcomText = Returns r →
       parseGedcomWithFallback buffer = Returns r)
  ∧ (∀ gedcomText error,
       detectAndDecodeGedcom buffer = Returns gedcomText →
       primaryAttempt gedcomText = Throws error →
       (∀ result,
          readGedcom buffer = Returns result →
          parseGedcomWithFallback buffer
          = Returns (normalizeReadGedcomResult result))
       ∧ (∀ fallbackError,
            readGedcom buffer = Throws fallbackError →
            parseGedcomWithFallback buffer
            = Throws
                (NodeOperationError
                   ("Failed to parse GEDCOM file with both parsers. Primary error: "
                    +:+ message error +:+ ". Fallback error: "
                    +:+ message fallbackError))))
  ∧ (∀ r,
       parseGedcomWithFallback buffer = Returns r →
       ∃ gedcomText,
         detectAndDecodeGedcom buffer = Returns gedcomText
         ∧ (primaryAttempt gedcomText = Returns r
            ∨ ∃ error result,
                primaryAttempt gedcomText = Throws error
                ∧ readGedcom buffer = Returns result
                ∧ r = normalizeReadGedcomResult result)).
Proof.
  split; [| split; [| split]].
  - intros P' e H8 H16 Hdec.
    assert (Hsame : @detectAndDecodeGedcom P' buffer
                    = @detectAndDecodeGedcom P buffer).
    { unfold detectAndDecodeGedcom. by rewrite H8, H16. }
    unfold parseGedcomWithFallback. by rewrite Hsame, Hdec.
  - intros gedcomText r Hdec Hprimary.
    unfold parseGedcomWithFallback. rewrite Hdec. cbn. by rewrite Hprimary.
  - intros gedcomText error Hdec Hprimary.
    unfold parseGedcomWithFallback, fallbackAttempt.
    rewrite Hdec. cbn. rewrite Hprimary. cbn.
    split; intros x Hx; by rewrite Hx.
  - apply parse_returns_inv.
Qed.

Lemma parse_error_flow_witness :
  @parseGedcomWithFallback
    (strictPlatform (Returns (Some sampleTree)) (Returns sampleGraph)) illFormed
  = Throws
      (NodeOperationError
         "Failed to decode GEDCOM file: The encoded data was not valid")
  ∧ @parseGedcomWithFallback
      (nodePlatform (Throws (mkExn "Error" "no lines"))
         (Throws (mkExn "Error" "bad header")))
      headLine
    = Throws
        (NodeOperationError
           "Failed to parse GEDCOM file with both parsers. Primary error: no lines. Fallback error: bad header").
Proof.
  split.
  - destruct (parse_error_flow (strictPlatform (Returns None) (Returns sampleGraph))
                illFormed) as (Hdecode & _).
    apply (Hdecode (strictPlatform (Returns (Some sampleTree)) (Returns sampleGraph))
             (mkExn "TypeError" "The encoded data was not valid"));
      reflexivity.
  - destruct (parse_error_flow
                (nodePlatform (Throws (mkExn "Error" "no lines"))
                   (Throws (mkExn "Error" "bad header")))
                headLine) as (_ & _ & Hfallback & _).
    destruct (Hfallback (nodeUtf8 headLine) (mkExn "Error" "no lines"))
      as [_ Hboth]; [reflexivity | reflexivity |].
    apply (Hboth (mkExn "Error" "bad header")). reflexivity.
Defined.

(** ** More on the record-tree normalizer *)

Section PrimaryNormalizer.
Context `{Platform}.

Lemma collectRecord_foldl (records : list Node.t)
  (persons : list ParsedPerson.t) (families : list ParsedFamily.t) :
  foldl collectRecord (persons, families) records
  = (persons ++ map parseIndividual (List.filter isIndividualRecord records),
     families ++ map parseFamily (List.filter isFamilyRecord records)).
Proof.
  revert persons families.
  induction records as [|record records IH]; intros persons families.
  - simpl. by rewrite !app_nil_r.
  - cbn [foldl List.filter].
    assert (Hstep : collectRecord (persons, families) record
                    = (persons ++ (if isIndividualRecord record
                                   then [parseIndividual record] else []),
                       families ++ (if isFamilyRecord record
                                    then [parseFamily record] else []))).
    { unfold collectRecord, isIndividualRecord, isFamilyRecord.
      destruct (String.eqb (Node.type record) "INDI") eqn:Hindi; simpl.
      - apply String.eqb_eq in Hindi. rewrite Hindi. simpl.
        destruct (truthy (xref record)); by rewrite ?app_nil_r.
      - destruct (String.eqb (Node.type record) "FAM" && truthy (xref record));
          by rewrite ?app_nil_r. }
    rewrite Hstep, IH.
    destruct (isIndividualRecord record), (isFamilyRecord record); simpl;
      by rewrite <- ?app_assoc, ?app_nil_r.
Qed.

Lemma parseIndividualChild_id (person : ParsedPerson.t) (child : Node.t) :
  ParsedPerson.id (parseIndividualChild person child) = ParsedPerson.id person.
Proof.
  destruct person. unfold parseIndividualChild.
  repeat (case_match; simpl; try done).
Qed.

Lemma parseIndividual_id (record : Node.t) :
  ParsedPerson.id (parseIndividual record) = default "" (xref record).
Proof.
  unfold parseIndividual. destruct (Node.children record) as [cs|]; [| done].
  assert (Hgen : ∀ q, ParsedPerson.id (foldl parseIndividualChild q cs)
                      = ParsedPerson.id q).
  { induction cs as [|c cs IH]; intros q; simpl; [done |].
    by rewrite IH, parseIndividualChild_id. }
  apply Hgen.
Qed.


Lemma parseFamilyChild_id (family : ParsedFamily.t) (child : Node.t) :
  ParsedFamily.id (parseFamilyChild family child) = ParsedFamily.id family.
Proof.
  destruct family. unfold parseFamilyChild.
  repeat (case_match; simpl; try done).
Qed.

Lemma parseFamily_id (record : Node.t) :
  ParsedFamily.id (parseFamily record) = default "" (xref record).
Proof.
  unfold parseFamily. destruct (Node.children record) as [cs|]; [| done].
  assert (Hgen : ∀ q, ParsedFamily.id (foldl parseFamilyChild q cs)
                      = ParsedFamily.id q).
  { induction cs as [|c cs IH]; intros q; simpl; [done |].
    by rewrite IH, parseFamilyChild_id. }
  apply Hgen.
Qed.

Lemma truthy_default (o : option string) : truthy o = true → default "" o ≠ "".
Proof.
  destruct o as [s|]; simpl; [| discriminate].
  unfold falsy. case_bool_decide; [discriminate | done].
Qed.

Lemma truthy_Some (o : option string) :
  truthy o = true → o = Some (default "" o).
Proof. destruct o; simpl; [done | discriminate]. Qed.

(** Two different tags are not both the type of one child. *)
Ltac other_tag Htype :=
  apply String.eqb_eq in Htype; rewrite Htype; simpl.

Lemma parseIndividualChild_links (person : ParsedPerson.t) (child : Node.t) :
  ParsedPerson.famc (parseIndividualChild person child)
  = ParsedPerson.famc person ++ option_list (linkOf "FAMC" child)
  ∧ ParsedPerson.fams (parseIndividualChild person child)
    = ParsedPerson.fams person ++ option_list (linkOf "FAMS" child).
Proof.
  destruct person. unfold parseIndividualChild, linkOf.
  destruct (String.eqb (Node.type child) "NAME") eqn:Hname.
  { other_tag Hname. by rewrite !app_nil_r. }
  destruct (String.eqb (Node.type child) "BIRT") eqn:Hbirt.
  { other_tag Hbirt. case_match; simpl; by rewrite !app_nil_r. }
  destruct (String.eqb (Node.type child) "DEAT") eqn:Hdeat.
  { other_tag Hdeat. case_match; simpl; by rewrite !app_nil_r. }
  destruct (String.eqb (Node.type child) "FAMC") eqn:Hfamc.
  { assert (Hfams : String.eqb (Node.type child) "FAMS" = false).
    { apply String.eqb_eq in Hfamc. by rewrite Hfamc. }
    rewrite Hfams.
    destruct (pointerOf child) as [p|]; simpl; [| by rewrite !app_nil_r].
    destruct (falsy p); simpl; by rewrite ?app_nil_r. }
  destruct (String.eqb (Node.type child) "FAMS") eqn:Hfams.
  { destruct (pointerOf child) as [p|]; simpl; [| by rewrite !app_nil_r].
    destruct (falsy p); simpl; by rewrite ?app_nil_r. }
  simpl. by rewrite !app_nil_r.
Qed.

Lemma omap_option_list_cons {A B} (f : A → option B) (x : A) (l : list A) :
  omap f (x :: l) = option_list (f x) ++ omap f l.
Proof. simpl. by destruct (f x). Qed.

Lemma parseIndividual_links_gen (cs : list Node.t) (q : ParsedPerson.t) :
  ParsedPerson.famc (foldl parseIndividualChild q cs)
  = ParsedPerson.famc q ++ omap (linkOf "FAMC") cs
  ∧ ParsedPerson.fams (foldl parseIndividualChild q cs)
    = ParsedPerson.fams q ++ omap (linkOf "FAMS") cs.
Proof.
  revert q. induction cs as [|c cs IH]; intros q.
  - simpl. by rewrite !app_nil_r.
  - cbn [foldl]. destruct (IH (parseIndividualChild q c)) as [-> ->].
    destruct (parseIndividualChild_links q c) as [-> ->].
    rewrite !omap_option_list_cons. by rewrite <- !app_assoc.
Qed.

Lemma parseFamilyChild_fields (family : ParsedFamily.t) (child : Node.t) :
  ParsedFamily.children (parseFamilyChild family child)
  = ParsedFamily.children family ++ option_list (childOf child)
  ∧ ParsedFamily.husband (parseFamilyChild family child)
    = (if String.eqb (Node.type child) "HUSB" then pointerOrValue child
       else ParsedFamily.husband family)
  ∧ ParsedFamily.wife (parseFamilyChild family child)
    = (if String.eqb (Node.type child) "WIFE" then pointerOrValue child
       else ParsedFamily.wife family).
Proof.
  destruct family. unfold parseFamilyChild, childOf.
  destruct (String.eqb (Node.type child) "HUSB") eqn:Hhusb.
  { other_tag Hhusb. by rewrite !app_nil_r. }
  destruct (String.eqb (Node.type child) "WIFE") eqn:Hwife.
  { other_tag Hwife. by rewrite !app_nil_r. }
  destruct (String.eqb (Node.type child) "CHIL") eqn:Hchil; simpl;
    [| by rewrite !app_nil_r].
  destruct (truthy (pointerOf child)) eqn:Hp; simpl.
  { by rewrite (truthy_Some _ Hp) at 2. }
  destruct (truthy (Node.value child)) eqn:Hv; simpl.
  { by rewrite (truthy_Some _ Hv) at 2. }
  by rewrite !app_nil_r.
Qed.

Lemma parseFamily_fields_gen (cs : list Node.t) (q : ParsedFamily.t) :
  ParsedFamily.children (foldl parseFamilyChild q cs)
  = ParsedFamily.children q ++ omap childOf cs
  ∧ ParsedFamily.husband (foldl parseFamilyChild q cs)
    = match last (List.filter (λ c, String.eqb (Node.type c) "HUSB") cs) with
      | Some c => pointerOrValue c
      | None => ParsedFamily.husband q
      end
  ∧ ParsedFamily.wife (foldl parseFamilyChild q cs)
    = match last (List.filter (λ c, String.eqb (Node.type c) "WIFE") cs) with
      | Some c => pointerOrValue c
      | None => ParsedFamily.wife q
      end.
Proof.
  revert q. induction cs as [|c cs IH]; intros q.
  - simpl. by rewrite !app_nil_r.
  - cbn [foldl List.filter].
    destruct (IH (parseFamilyChild q c)) as (-> & -> & ->).
    destruct (parseFamilyChild_fields q c) as (-> & -> & ->).
    rewrite omap_option_list_cons, <- app_assoc.
    split; [done |].
    split.
    + destruct (String.eqb (Node.type c) "HUSB"); [| done].
      rewrite last_cons.
      by destruct (last (List.filter (λ c, String.eqb (Node.type c) "HUSB") cs)).
    + destruct (String.eqb (Node.type c) "WIFE"); [| done].
      rewrite last_cons.
      by destruct (last (List.filter (λ c, String.eqb (Node.type c) "WIFE") cs)).
Qed.

Lemma normalizeParseGedcomResult_shape (t : Node.t) (records : list Node.t)
  (encodingTag : string) :
  Node.children t = Some records →
  normalizeParseGedcomResult (Some t) encodingTag
  = Returns
      (ParseResult.mk
         (Meta.mk
            (length (map parseIndividual (List.filter isIndividualRecord records)))
            (length (map parseFamily (List.filter isFamilyRecord records)))
            (headEncoding records encodingTag))
         (map parseIndividual (List.filter isIndividualRecord records))
         (map parseFamily (List.filter isFamilyRecord records))).
Proof.
  intros Hchildren. unfold normalizeParseGedcomResult.
  rewrite Hchildren, collectRecord_foldl. done.
Qed.

End PrimaryNormalizer.

(** X1. On a tree with a children list the record-tree normalizer returns,
    and its persons are the [parseIndividual] of the [INDI] records that carry
    a non-empty [xref_id], its families the [parseFamily] of such [FAM]
    records, each in source order; every other record is ignored.  Without a
    tree or without a children list it throws. *)
Theorem primary_keeps_records_in_order `{Platform} (tree : option Node.t)
  (encodingTag : string) :
  match tree with
  | Some t =>
      match Node.children t with
      | Some records =>
          ∃ r, normalizeParseGedcomResult tree encodingTag = Returns r
               ∧ ParseResult.persons r
                 = map parseIndividual (List.filter isIndividualRecord records)
               ∧ ParseResult.families r
                 = map parseFamily (List.filter isFamilyRecord records)
      | None =>
          normalizeParseGedcomResult tree encodingTag
          = Throws (NodeOperationError "Invalid GEDCOM structure")
      end
  | None =>
      normalizeParseGedcomResult tree encodingTag
      = Throws (NodeOperationError "Invalid GEDCOM structure")
  end.
Proof.
  destruct tree as [t|]; [| done].
  destruct (Node.children t) as [records|] eqn:Hchildren.
  - rewrite (normalizeParseGedcomResult_shape t records) by done. by eexists.
  - unfold normalizeParseGedcomResult. by rewrite Hchildren.
Qed.

(** X2. The identifiers of the persons and families that the record-tree
    normalizer returns are the [xref_id]s of the records they come from, in
    source order, and none is empty. *)
Theorem primary_ids_are_xrefs `{Platform} (t : Node.t) (records : list Node.t)
  (encodingTag : string) (r : ParseResult.t) :
  Node.children t = Some records →
  normalizeParseGedcomResult (Some t) encodingTag = Returns r →
  map ParsedPerson.id (ParseResult.persons r)
  = map (λ record, default "" (xref record))
      (List.filter isIndividualRecord records)
  ∧ map ParsedFamily.id (ParseResult.families r)
    = map (λ record, default "" (xref record))
        (List.filter isFamilyRecord records)
  ∧ Forall (λ p, ParsedPerson.id p ≠ "") (ParseResult.persons r)
  ∧ Forall (λ f, ParsedFamily.id f ≠ "") (ParseResult.families r).
Proof.
  intros Hchildren Hret.
  rewrite (normalizeParseGedcomResult_shape t records) in Hret by done.
  injection Hret as <-. simpl.
  rewrite <- !list_fmap_compose.
  split; [apply list_fmap_ext; intros i record _; apply parseIndividual_id |].
  split; [apply list_fmap_ext; intros i record _; apply parseFamily_id |].
  split.
  - apply Forall_fmap, Forall_forall. intros record Hin. simpl.
    rewrite parseIndividual_id. apply truthy_default.
    apply list_elem_of_In, filter_In in Hin as [_ Hkind].
    unfold isIndividualRecord in Hkind. by apply andb_true_iff in Hkind as [_ ?].
  - apply Forall_fmap, Forall_forall. intros record Hin. simpl.
    rewrite parseFamily_id. apply truthy_default.
    apply list_elem_of_In, filter_In in Hin as [_ Hkind].
    unfold isFamilyRecord in Hkind. by apply andb_true_iff in Hkind as [_ ?].
Qed.

Lemma primary_ids_are_xrefs_witness :
  ∃ r,
    @normalizeParseGedcomResult
      (nodePlatform (Returns None) (Returns sampleGraph)) (Some sampleTree) "UTF-8"
    = Returns r
    ∧ map ParsedPerson.id (ParseResult.persons r) = ["@I1@"; "@I3@"]
    ∧ Forall (λ p, ParsedPerson.id p ≠ "") (ParseResult.persons r).
Proof.
  eexists. split; [vm_compute; reflexivity |].
  destruct (@primary_ids_are_xrefs
              (nodePlatform (Returns None) (Returns sampleGraph))
              sampleTree _ "UTF-8" _ eq_refl eq_refl)
    as (Hids & _ & Hne & _).
  split; [exact Hids | exact Hne].
Defined.

(** X3. The [famc] list of a parsed individual holds the pointers of its
    [FAMC] children that have a non-empty pointer, in order, and nothing else;
    its [fams] list the same for the [FAMS] children; its id is the record's
    [xref_id]. *)
Theorem parseIndividual_links `{Platform} (record : Node.t) :
  ParsedPerson.famc (parseIndividual record)
  = omap (linkOf "FAMC") (default [] (Node.children record))
  ∧ ParsedPerson.fams (parseIndividual record)
    = omap (linkOf "FAMS") (default [] (Node.children record))
  ∧ ParsedPerson.id (parseIndividual record) = default "" (xref record).
Proof.
  split; [| split; [| apply parseIndividual_id]];
    unfold parseIndividual;
    (destruct (Node.children record) as [cs|]; [| done]); simpl;
    destruct (parseIndividual_links_gen cs
                (ParsedPerson.mk (default "" (xref record)) "" None None
                   "" "" [] [])) as [Hfamc Hfams]; done.
Qed.

(** X4. The [children] of a parsed family are the identifiers of its [CHIL]
    children (the pointer, else the raw value, skipping a child with
    neither), in order; [husband] is what the last [HUSB] child carries (its
    pointer, else its raw value, possibly nothing) and is unset without a
    [HUSB] child; [wife] likewise. *)
Theorem parseFamily_fields `{Platform} (record : Node.t) :
  ParsedFamily.children (parseFamily record)
  = omap childOf (default [] (Node.children record))
  ∧ ParsedFamily.husband (parseFamily record)
    = spouseOf "HUSB" (default [] (Node.children record))
  ∧ ParsedFamily.wife (parseFamily record)
    = spouseOf "WIFE" (default [] (Node.children record)).
Proof.
  unfold parseFamily, spouseOf.
  destruct (Node.children record) as [cs|]; [| done]. simpl.
  by destruct (parseFamily_fields_gen cs
                 (ParsedFamily.mk (default "" (xref record)) None None []))
    as (-> & -> & ->).
Qed.

(** ** The encoding tag *)

Lemma orElse_nonempty (o : option string) (d : string) : d ≠ "" → orElse o d ≠ "".
Proof.
  intros Hd. destruct o as [s|]; simpl; [| done].
  unfold falsy. by case_bool_decide.
Qed.

Lemma headEncoding_nonempty `{Platform} (records : list Node.t) (tag : string) :
  tag ≠ "" → headEncoding records tag ≠ "".
Proof.
  intros Htag. unfold headEncoding.
  repeat (case_match; try done).
  by apply truthy_default.
Qed.

Lemma headEncoding_charValue `{Platform} (records : list Node.t) (tag : string) :
  headEncoding records tag = orElse (charValue records) tag.
Proof.
  unfold headEncoding, charValue.
  destruct (List.find _ records) as [headRecord|]; [| done].
  destruct (findChild "CHAR" (Node.children headRecord)) as [charRecord|];
    [| done].
  destruct (Node.value charRecord) as [v|]; simpl; [| done].
  by destruct (falsy v).
Qed.

Lemma normalizeReadGedcomResult_tag `{Platform} (result : ReadResult.t) :
  Meta.encodingTag (ParseResult.meta (normalizeReadGedcomResult result))
  = orElse (characterSetValue result) "UTF-8".
Proof.
  unfold normalizeReadGedcomResult, characterSetValue. simpl.
  by repeat case_match.
Qed.

Lemma orElse_cases (found : option string) (d : string) :
  (found = None ∨ found = Some "" → orElse found d = d)
  ∧ (∀ v, found = Some v → v ≠ "" → orElse found d = v).
Proof.
  split.
  - by intros [-> | ->].
  - intros v -> Hne. simpl. unfold falsy. by rewrite bool_decide_eq_false_2.
Qed.

(** X5. Whatever path produced it, the [encodingTag] of a result of
    [parseGedcomWithFallback] is never empty.  It is read from the value
    found on the path taken (on the record-tree path the value of the first
    [CHAR] child of the first [HEAD] record, on the object-graph path the
    [characterSet] value of the head): a found, non-empty value is the tag,
    and an absent or empty one leaves the default ["UTF-8"]. *)
Theorem parse_encodingTag_nonempty `{Platform} (buffer : Buffer)
  (r : ParseResult.t) :
  parseGedcomWithFallback buffer = Returns r →
  Meta.encodingTag (ParseResult.meta r) ≠ ""
  ∧ ∃ found : option string,
      ((∃ gedcomText t records,
          detectAndDecodeGedcom buffer = Returns gedcomText
          ∧ parseGedcom gedcomText = Returns (Some t)
          ∧ Node.children t = Some records
          ∧ found = charValue records)
       ∨ (∃ gedcomText error result,
            detectAndDecodeGedcom buffer = Returns gedcomText
            ∧ primaryAttempt gedcomText = Throws error
            ∧ readGedcom buffer = Returns result
            ∧ found = characterSetValue result))
      ∧ (found = None ∨ found = Some "" →
         Meta.encodingTag (ParseResult.meta r) = "UTF-8")
      ∧ (∀ v, found = Some v → v ≠ "" →
           Meta.encodingTag (ParseResult.meta r) = v).
Proof.
  intros Hret.
  assert (Hfound : ∃ found : option string,
            ((∃ gedcomText t records,
                detectAndDecodeGedcom buffer = Returns gedcomText
                ∧ parseGedcom gedcomText = Returns (Some t)
                ∧ Node.children t = Some records
                ∧ found = charValue records)
             ∨ (∃ gedcomText error result,
                  detectAndDecodeGedcom buffer = Returns gedcomText
                  ∧ primaryAttempt gedcomText = Throws error
                  ∧ readGedcom buffer = Returns result
                  ∧ found = characterSetValue result))
            ∧ Meta.encodingTag (ParseResult.meta r) = orElse found "UTF-8").
  { apply parse_returns_inv in Hret
      as (gedcomText & Hdec & [Hprimary | (error & result & Hthrows & Hread & ->)]).
    - unfold primaryAttempt in Hprimary.
      destruct (parseGedcom gedcomText) as [tree | e] eqn:Hparse; [| discriminate].
      cbn in Hprimary.
      destruct tree as [t|]; [| discriminate].
      destruct (Node.children t) as [records|] eqn:Hchildren;
        [| unfold normalizeParseGedcomResult in Hprimary;
           rewrite Hchildren in Hprimary; discriminate].
      rewrite (normalizeParseGedcomResult_shape t records) in Hprimary by done.
      injection Hprimary as <-. simpl.
      exists (charValue records). split; [| apply headEncoding_charValue].
      left. by exists gedcomText, t, records.
    - exists (characterSetValue result).
      split; [| apply normalizeReadGedcomResult_tag].
      right. by exists gedcomText, error, result. }
  destruct Hfound as (found & Hpath & Htag).
  split.
  - rewrite Htag. by apply orElse_nonempty.
  - exists found. split; [exact Hpath |]. rewrite Htag. apply orElse_cases.
Qed.

Lemma parse_encodingTag_nonempty_witness :
  ∃ r,
    @parseGedcomWithFallback
      (nodePlatform (Returns None) (Returns sampleGraph)) headLine = Returns r
    ∧ Meta.encodingTag (ParseResult.meta r) ≠ ""
    ∧ Meta.encodingTag (ParseResult.meta r) = "UTF-8".
Proof.
  eexists. split; [vm_compute; reflexivity |].
  destruct (@parse_encodingTag_nonempty
              (nodePlatform (Returns None) (Returns sampleGraph)) headLine
              _ eq_refl) as (Hne & _).
  split; [exact Hne | reflexivity].
Defined.

(** ** More on the object-graph normalizer *)

Lemma canonicalizeId_canonical (x : string) :
  canonical (GedcomParser.canonicalizeId x).
Proof.
  unfold canonical.
  change (GedcomAncestry.canonicalizeId (GedcomAncestry.canonicalizeId x)
          = GedcomAncestry.canonicalizeId x).
  unfold GedcomAncestry.canonicalizeId at 2 3.
  destruct (falsy x) eqn:Hx; [reflexivity |].
  destruct (startsWith x "@" && endsWith x "@") eqn:Hw.
  - unfold GedcomAncestry.canonicalizeId. by rewrite Hx, Hw.
  - apply canonicalizeId_wrapped.
Qed.

Section FallbackNormalizer.
Context `{Platform}.

Lemma canonicalizeRef_canonical (ref : option string) :
  canonical (canonicalizeRef ref).
Proof. destruct ref; simpl; [apply canonicalizeId_canonical | done]. Qed.

Lemma parseReadGedcomIndividual_canonical (id : string)
  (individual : Individual.t) :
  canonicalPerson (parseReadGedcomIndividual id individual).
Proof.
  unfold canonicalPerson, parseReadGedcomIndividual.
  destruct (match Individual.name individual with
            | Some (nameRecord :: _) => _
            | _ => _
            end) as [[name firstName] lastName]. simpl.
  split; [apply canonicalizeId_canonical |].
  split.
  - destruct (Individual.familyAsChild individual); [| constructor].
    apply Forall_fmap, Forall_forall. intros ref _. apply canonicalizeRef_canonical.
  - destruct (Individual.familyAsSpouse individual); [| constructor].
    apply Forall_fmap, Forall_forall. intros ref _. apply canonicalizeRef_canonical.
Qed.

Lemma parseReadGedcomFamily_canonical (id : string) (family : FamilyObject.t) :
  canonicalFamily (parseReadGedcomFamily id family).
Proof.
  unfold canonicalFamily, parseReadGedcomFamily. simpl.
  split; [apply canonicalizeId_canonical |].
  split.
  { intros h Hh. destruct (FamilyObject.husband family); [| discriminate].
    injection Hh as <-. apply canonicalizeRef_canonical. }
  split.
  { intros w Hw. destruct (FamilyObject.wife family); [| discriminate].
    injection Hw as <-. apply canonicalizeRef_canonical. }
  destruct (FamilyObject.children family); [| constructor].
  apply Forall_fmap, Forall_forall. intros ref _. apply canonicalizeRef_canonical.
Qed.

Lemma foldl_push {K V B} (f : K → V → B) (entries : list (K * V))
  (acc : list B) :
  foldl (λ acc '(k, v), acc ++ [f k v]) acc entries
  = acc ++ map (λ '(k, v), f k v) entries.
Proof.
  revert acc. induction entries as [|[k v] entries IH]; intros acc; simpl.
  - by rewrite app_nil_r.
  - by rewrite IH, <- app_assoc.
Qed.

Lemma normalizeReadGedcomResult_lists (result : ReadResult.t) :
  ParseResult.persons (normalizeReadGedcomResult result)
  = map (λ '(id, individual), parseReadGedcomIndividual id individual)
      (default [] (ReadResult.individuals result))
  ∧ ParseResult.families (normalizeReadGedcomResult result)
    = map (λ '(id, family), parseReadGedcomFamily id family)
        (default [] (ReadResult.families result)).
Proof.
  unfold normalizeReadGedcomResult. simpl. split.
  - destruct (ReadResult.individuals result) as [entries|]; [| done]. simpl.
    exact (foldl_push parseReadGedcomIndividual entries []).
  - destruct (ReadResult.families result) as [entries|]; [| done]. simpl.
    exact (foldl_push parseReadGedcomFamily entries []).
Qed.

Lemma normalizeReadGedcomResult_ids (result : ReadResult.t) :
  map ParsedPerson.id (ParseResult.persons (normalizeReadGedcomResult result))
  = map (λ entry, GedcomParser.canonicalizeId (fst entry))
      (default [] (ReadResult.individuals result))
  ∧ map ParsedFamily.id (ParseResult.families (normalizeReadGedcomResult result))
    = map (λ entry, GedcomParser.canonicalizeId (fst entry))
        (default [] (ReadResult.families result)).
Proof.
  destruct (normalizeReadGedcomResult_lists result) as [-> ->].
  rewrite <- !list_fmap_compose.
  split; [apply list_fmap_ext; intros i [id individual] _; simpl;
          unfold parseReadGedcomIndividual; by repeat case_match |].
  apply list_fmap_ext; by intros i [id family] _.
Qed.

End FallbackNormalizer.

(** X6. The object-graph normalizer returns one person per entry of
    [individuals] and one family per entry of [families], in entry order, whose
    id is the canonicalized key; and every identifier it stores (ids, [famc],
    [fams], husband, wife, children) is canonical: [canonicalizeId] leaves it
    unchanged. *)
Theorem fallback_ids_canonical `{Platform} (result : ReadResult.t) :
  map ParsedPerson.id (ParseResult.persons (normalizeReadGedcomResult result))
  = map (λ entry, GedcomParser.canonicalizeId (fst entry))
      (default [] (ReadResult.individuals result))
  ∧ map ParsedFamily.id (ParseResult.families (normalizeReadGedcomResult result))
    = map (λ entry, GedcomParser.canonicalizeId (fst entry))
        (default [] (ReadResult.families result))
  ∧ Forall canonicalPerson (ParseResult.persons (normalizeReadGedcomResult result))
  ∧ Forall canonicalFamily
      (ParseResult.families (normalizeReadGedcomResult result)).
Proof.
  destruct (normalizeReadGedcomResult_ids result) as [Hpersons Hfamilies].
  split; [exact Hpersons |]. split; [exact Hfamilies |].
  destruct (normalizeReadGedcomResult_lists result) as [-> ->].
  split.
  - apply Forall_fmap, Forall_forall. intros [id individual] _.
    apply parseReadGedcomIndividual_canonical.
  - apply Forall_fmap, Forall_forall. intros [id family] _.
    apply parseReadGedcomFamily_canonical.
Qed.
(** ** More on the traversals *)

Lemma materialize_ids (personMap : gmap string ParsedPerson.t)
  (ids : list string) :
  keyedById personMap →
  map ParsedPerson.id (materialize personMap ids)
  = List.filter (λ id, bool_decide (is_Some (personMap !! id))) ids.
Proof.
  intros Hkeyed. unfold materialize.
  induction ids as [|id ids IH]; simpl; [done |].
  destruct (personMap !! id) as [p|] eqn:Hlook; simpl.
  - f_equal; [by apply Hkeyed | exact IH].
  - exact IH.
Qed.

Lemma NoDup_list_filter {A} (f : A → bool) (l : list A) :
  NoDup l → NoDup (List.filter f l).
Proof.
  induction 1 as [|x l Hx Hnd IH]; simpl; [constructor |].
  destruct (f x); [| done].
  constructor; [| done].
  intros Hin. apply Hx. apply list_elem_of_In in Hin.
  apply filter_In in Hin as [Hin _]. by apply list_elem_of_In.
Qed.

Lemma nodes_shape (key : Edge.t → string) (ok : Edge.t → Prop)
  (persons : list ParsedPerson.t) (root : string) (v : Vars.t) :
  WalkInv key ok root v →
  root ∈ map ParsedPerson.id persons →
  NoDup (map ParsedPerson.id
           (materialize (buildPersonMap persons) (Vars.visitedPersons v)))
  ∧ ∃ rootPerson rest,
      materialize (buildPersonMap persons) (Vars.visitedPersons v)
      = rootPerson :: rest
      ∧ buildPersonMap persons !! root = Some rootPerson
      ∧ ParsedPerson.id rootPerson = root.
Proof.
  intros Hinv Hroot. split.
  - rewrite materialize_ids by apply buildPersonMap_keyed.
    apply NoDup_list_filter, (inv_nodup _ _ _ _ Hinv).
  - apply buildPersonMap_has in Hroot as [rootPerson Hlook].
    rewrite (inv_edges _ _ _ _ Hinv). unfold materialize. simpl.
    rewrite Hlook. simpl. eexists _, _. split; [done |]. split; [done |].
    by apply buildPersonMap_keyed in Hlook.
Qed.

(** X7. With the root on record, the [nodes] of either traversal carry no
    identifier twice, and the first node is the record of the root. *)
Theorem nodes_unique_root_first (parseResult : ParseResult.t) (rootId : string)
  (N : Z) :
  GedcomAncestry.canonicalizeId rootId
    ∈ map ParsedPerson.id (ParseResult.persons parseResult) →
  ∃ ra rd,
    computeAncestors parseResult rootId N = Returns ra
    ∧ computeDescendants parseResult rootId N = Returns rd
    ∧ NoDup (map ParsedPerson.id (AncestryResult.nodes ra))
    ∧ NoDup (map ParsedPerson.id (AncestryResult.nodes rd))
    ∧ (∃ rootPerson rest,
         AncestryResult.nodes ra = rootPerson :: rest
         ∧ ParsedPerson.id rootPerson = AncestryResult.root ra)
    ∧ (∃ rootPerson rest,
         AncestryResult.nodes rd = rootPerson :: rest
         ∧ ParsedPerson.id rootPerson = AncestryResult.root rd).
Proof.
  intros Hroot. eexists _, _.
  split; [by apply computeAncestors_returns |].
  split; [by apply computeDescendants_returns |]. simpl.
  destruct (nodes_shape _ _ _ _ _ (ancestorsWalk_inv parseResult rootId N) Hroot)
    as (Hnda & pa & resta & Ha & _ & Hida).
  destruct (nodes_shape _ _ _ _ _ (descendantsWalk_inv parseResult rootId N) Hroot)
    as (Hndd & pd & restd & Hd & _ & Hidd).
  split; [done |]. split; [done |].
  split; eexists _, _; eauto.
Qed.

Lemma nodes_unique_root_first_witness :
  ∃ ra rd,
    computeAncestors smallFamily "I3" 3 = Returns ra
    ∧ computeDescendants smallFamily "I3" 3 = Returns rd
    ∧ NoDup (map ParsedPerson.id (AncestryResult.nodes ra))
    ∧ NoDup (map ParsedPerson.id (AncestryResult.nodes rd)).
Proof.
  destruct (nodes_unique_root_first smallFamily "I3" 3)
    as (ra & rd & Ha & Hd & Hnda & Hndd & _).
  - apply (bool_decide_unpack _). vm_compute. exact I.
  - by exists ra, rd.
Defined.

(** *** Where the edges start *)

Lemma grows_weaken (key : Edge.t → string) (ok ok' : Edge.t → Prop)
  (v v' : Vars.t) :
  (∀ e, ok e → ok' e) → grows key ok v v' → grows key ok' v v'.
Proof.
  intros Himp (es & Hg & Hc & He & Hn & Hv & Hd & Hf & Hok).
  exists es. repeat split; try done.
  eapply Forall_impl; [exact Hok | exact Himp].
Qed.

Section Sources.
Variable key : Edge.t → string.
Variable src : Edge.t → string.
Variable visitPerson : Vars.t → string → Vars.t.
Hypothesis visitPerson_src :
  ∀ v personId, grows key (λ e, src e = personId) v (visitPerson v personId).

Lemma generationLoop_sources (n : nat) (v : Vars.t) :
  Forall (λ e, src e ∈ concat (Vars.generations v)) (Vars.edges v) →
  Forall (λ e, src e ∈ concat (Vars.generations (generationLoop visitPerson n v)))
    (Vars.edges (generationLoop visitPerson n v)).
Proof.
  revert v. induction n as [|n IH]; intros v Hsrc; simpl; [done |].
  destruct (Vars.currentGeneration v) as [|c cs] eqn:Hcur; [done |].
  apply IH.
  destruct (grows_foldl key (λ e, src e ∈ c :: cs) visitPerson (c :: cs)
              (openGeneration v))
    as (es & Hg & _ & He & _ & _ & _ & _ & Hes).
  { intros w a Ha. eapply grows_weaken; [| apply visitPerson_src].
    intros e He. simpl in He. by rewrite He. }
  simpl in *. rewrite He, Hg, concat_app. simpl. rewrite app_nil_r.
  apply Forall_app. split.
  - eapply Forall_impl; [exact Hsrc |]. intros e Hin. simpl in Hin.
    apply elem_of_app. by left.
  - eapply Forall_impl; [exact Hes |]. intros e Hin. simpl in Hin.
    rewrite ?Hcur. apply elem_of_app. by right.
Qed.

End Sources.

Lemma ancestorsVisitPerson_src (personMap : gmap string ParsedPerson.t)
  (familyMap : gmap string ParsedFamily.t) (v : Vars.t) (personId : string) :
  grows Edge.parent (λ e, Edge.child e = personId) v
    (ancestorsVisitPerson personMap familyMap v personId).
Proof.
  unfold ancestorsVisitPerson.
  destruct (personMap !! personId) as [person|]; [| apply grows_refl].
  apply grows_foldl. intros w familyId _.
  destruct (familyMap !! familyId) as [family|]; [| apply grows_refl].
  unfold ancestorsVisitFamily. lazy zeta.
  match goal with
  | |- grows _ _ _ (match _ with Some _ => if _ && negb (Set_has (Vars.visitedPersons ?u) _) then _ else _ | None => _ end) =>
      set (w1 := u)
  end.
  apply (grows_trans _ _ w w1).
  - subst w1. destruct (ParsedFamily.husband family) as [husband|];
      [| apply grows_refl].
    destruct (negb (falsy husband)
              && negb (Set_has (Vars.visitedPersons w) husband)) eqn:Hcond;
      [| apply grows_refl].
    apply andb_true_iff in Hcond as [_ Hfresh].
    apply negb_true_iff in Hfresh. by apply grows_discover.
  - clearbody w1. destruct (ParsedFamily.wife family) as [wife|];
      [| apply grows_refl].
    destruct (negb (falsy wife)
              && negb (Set_has (Vars.visitedPersons w1) wife)) eqn:Hcond;
      [| apply grows_refl].
    apply andb_true_iff in Hcond as [_ Hfresh].
    apply negb_true_iff in Hfresh. by apply grows_discover.
Qed.

Lemma descendantsVisitPerson_src (personMap : gmap string ParsedPerson.t)
  (familyMap : gmap string ParsedFamily.t) (v : Vars.t) (personId : string) :
  grows Edge.child (λ e, Edge.parent e = personId) v
    (descendantsVisitPerson personMap familyMap v personId).
Proof.
  unfold descendantsVisitPerson.
  destruct (personMap !! personId) as [person|]; [| apply grows_refl].
  apply grows_foldl. intros w familyId _.
  destruct (familyMap !! familyId) as [family|]; [| apply grows_refl].
  apply grows_foldl. intros w' childId _.
  unfold descendantsVisitChild.
  destruct (negb (Set_has (Vars.visitedPersons w') childId)) eqn:Hfresh;
    [| apply grows_refl].
  apply negb_true_iff in Hfresh. by apply grows_discover.
Qed.

(** X8. Every edge starts in a recorded generation and ends at a visited
    identifier: in a result of [computeAncestors] the child of each edge is in
    [generations] and the parent is the id of a node whenever it has a record;
    in a result of [computeDescendants] the parent of each edge is in
    [generations] and the child is the id of a node whenever it has a
    record. *)
Theorem edges_start_in_generations (parseResult : ParseResult.t)
  (rootId : string) (N : Z) :
  (∀ r, computeAncestors parseResult rootId N = Returns r →
        Forall
          (λ e, Edge.child e ∈ concat (AncestryResult.generations r)
                ∧ (Edge.parent e
                     ∈ map ParsedPerson.id (ParseResult.persons parseResult) →
                   Edge.parent e
                     ∈ map ParsedPerson.id (AncestryResult.nodes r)))
          (AncestryResult.edges r))
  ∧ (∀ r, computeDescendants parseResult rootId N = Returns r →
          Forall
            (λ e, Edge.parent e ∈ concat (AncestryResult.generations r)
                  ∧ (Edge.child e
                       ∈ map ParsedPerson.id (ParseResult.persons parseResult) →
                     Edge.child e
                       ∈ map ParsedPerson.id (AncestryResult.nodes r)))
            (AncestryResult.edges r)).
Proof.
  split; intros r Hret.
  - unfold computeAncestors in Hret. destruct (negb _); [discriminate |].
    injection Hret as <-. simpl.
    pose proof (ancestorsWalk_inv parseResult rootId N) as Hinv.
    assert (Hsrc : Forall
              (λ e, Edge.child e
                      ∈ concat (Vars.generations (ancestorsWalk parseResult rootId N)))
              (Vars.edges (ancestorsWalk parseResult rootId N))).
    { unfold ancestorsWalk. rewrite ancestorsLoop_generationLoop.
      apply (generationLoop_sources Edge.parent);
        [apply ancestorsVisitPerson_src | constructor]. }
    apply Forall_forall. intros e He. split.
    + by apply (proj1 (Forall_forall _ _) Hsrc).
    + intros Hrec. rewrite materialize_ids by apply buildPersonMap_keyed.
      apply list_elem_of_In, filter_In. split.
      * apply list_elem_of_In. rewrite (inv_edges _ _ _ _ Hinv).
        apply elem_of_cons. right. apply list_elem_of_fmap. by exists e.
      * apply bool_decide_eq_true_2. by apply buildPersonMap_has.
  - unfold computeDescendants in Hret. destruct (negb _); [discriminate |].
    injection Hret as <-. simpl.
    pose proof (descendantsWalk_inv parseResult rootId N) as Hinv.
    assert (Hsrc : Forall
              (λ e, Edge.parent e
                      ∈ concat (Vars.generations (descendantsWalk parseResult rootId N)))
              (Vars.edges (descendantsWalk parseResult rootId N))).
    { unfold descendantsWalk. rewrite descendantsLoop_generationLoop.
      apply (generationLoop_sources Edge.child);
        [apply descendantsVisitPerson_src | constructor]. }
    apply Forall_forall. intros e He. split.
    + by apply (proj1 (Forall_forall _ _) Hsrc).
    + intros Hrec. rewrite materialize_ids by apply buildPersonMap_keyed.
      apply list_elem_of_In, filter_In. split.
      * apply list_elem_of_In. rewrite (inv_edges _ _ _ _ Hinv).
        apply elem_of_cons. right. apply list_elem_of_fmap. by exists e.
      * apply bool_decide_eq_true_2. by apply buildPersonMap_has.
Qed.

Lemma edges_start_in_generations_witness :
  ∃ r,
    computeAncestors smallFamily "I3" 1 = Returns r
    ∧ AncestryResult.generations r = [["@I3@"]]
    ∧ Forall (λ e, Edge.child e ∈ concat (AncestryResult.generations r))
        (AncestryResult.edges r)
    ∧ length (AncestryResult.edges r) = 2.
Proof.
  eexists. split; [vm_compute; reflexivity |]. split; [reflexivity |].
  split; [| reflexivity].
  destruct (edges_start_in_generations smallFamily "I3" 1) as [Hanc _].
  eapply Forall_impl; [apply Hanc; vm_compute; reflexivity |].
  by intros e [Hchild _].
Defined.

(** *** Nothing within reach is missed *)

Lemma grows_visited (key : Edge.t → string) (ok : Edge.t → Prop)
  (v v' : Vars.t) (x : string) :
  grows key ok v v' → x ∈ Vars.visitedPersons v → x ∈ Vars.visitedPersons v'.
Proof.
  intros (es & _ & _ & _ & _ & Hv & _) Hx. rewrite Hv.
  apply elem_of_app. by left.
Qed.

Lemma foldl_establish {A} (f : Vars.t → A → Vars.t) (P : Vars.t → Prop)
  (l : list A) (a : A) (v : Vars.t) :
  a ∈ l → (∀ w, P (f w a)) → (∀ w b, P w → P (f w b)) → P (foldl f v l).
Proof.
  intros Ha Hest Hkeep. revert v.
  induction l as [|b l IH]; intros v; [by apply elem_of_nil in Ha |].
  simpl. apply elem_of_cons in Ha as [<- | Ha]; [| by apply IH].
  clear IH. generalize (f v a) (Hest v). clear Hest.
  induction l as [|b l IH]; intros w Hw; simpl; [done |].
  apply IH. by apply Hkeep.
Qed.

Section Closure.
Variable key : Edge.t → string.
Variable ok : Edge.t → Prop.
Variable link : string → string → Prop.
Variable visitPerson : Vars.t → string → Vars.t.
Hypothesis visitPerson_grows : ∀ v personId, grows key ok v (visitPerson v personId).
Hypothesis visitPerson_links :
  ∀ v personId next, link personId next →
    next ∈ Vars.visitedPersons (visitPerson v personId).

Lemma generationLoop_expanded (n : nat) (v : Vars.t) :
  (∀ id next, id ∈ concat (Vars.generations v) → link id next →
     next ∈ Vars.visitedPersons v) →
  ∀ id next,
    id ∈ concat (Vars.generations (generationLoop visitPerson n v)) →
    link id next →
    next ∈ Vars.visitedPersons (generationLoop visitPerson n v).
Proof.
  revert v. induction n as [|n IH]; intros v Hexp; simpl; [done |].
  destruct (Vars.currentGeneration v) as [|c cs] eqn:Hcur; [done |].
  apply IH. clear IH.
  set (v2 := foldl visitPerson (openGeneration v) (c :: cs)).
  assert (Hgrows : grows key ok (openGeneration v) v2).
  { apply grows_foldl. intros w a _. apply visitPerson_grows. }
  intros id next Hid Hlink.
  change (Vars.visitedPersons (closeGeneration v2)) with (Vars.visitedPersons v2).
  change (Vars.generations (closeGeneration v2)) with (Vars.generations v2) in Hid.
  pose proof Hgrows as (es & Hg & _).
  rewrite Hg in Hid. cbn [openGeneration Vars.generations] in Hid.
  rewrite concat_app in Hid. simpl in Hid. rewrite app_nil_r in Hid.
  apply elem_of_app in Hid as [Hid | Hid].
  - eapply grows_visited; [exact Hgrows |]. simpl. by eapply Hexp.
  - rewrite Hcur in Hid.
    apply (foldl_establish visitPerson
             (λ w, next ∈ Vars.visitedPersons w) (c :: cs) id); [done | |].
    + intros w. by apply visitPerson_links.
    + intros w b Hw. by eapply grows_visited.
Qed.

Lemma generationLoop_closed (root : string) (N : Z) :
  (Z.of_nat
     (length
        (Vars.generations
           (generationLoop visitPerson (Z.to_nat N) (initialVars root)))) < N)%Z →
  closedUnder link
    (concat
       (Vars.generations
          (generationLoop visitPerson (Z.to_nat N) (initialVars root)))).
Proof.
  intros Hearly id next Hid Hlink.
  rewrite <- (visited_all_recorded key ok visitPerson root N) by done.
  eapply generationLoop_expanded; [| exact Hid | exact Hlink].
  simpl. intros ? ? Habs. by apply elem_of_nil in Habs.
Qed.

End Closure.

Lemma Set_add_elem (s : list string) (x : string) : x ∈ Set_add s x.
Proof.
  unfold Set_add. destruct (Set_has s x) eqn:Hx.
  - by apply Set_has_true.
  - apply elem_of_app. right. by apply list_elem_of_singleton.
Qed.

Lemma ancestorsVisitFamily_src (personId : string) (family : ParsedFamily.t)
  (v : Vars.t) :
  grows Edge.parent (λ e, Edge.child e = personId) v
    (ancestorsVisitFamily personId family v).
Proof.
  unfold ancestorsVisitFamily. lazy zeta.
  match goal with
  | |- grows _ _ _ (match _ with Some _ => if _ && negb (Set_has (Vars.visitedPersons ?u) _) then _ else _ | None => _ end) =>
      set (v1 := u)
  end.
  apply (grows_trans _ _ v v1).
  - subst v1. destruct (ParsedFamily.husband family) as [husband|];
      [| apply grows_refl].
    destruct (negb (falsy husband)
              && negb (Set_has (Vars.visitedPersons v) husband)) eqn:Hcond;
      [| apply grows_refl].
    apply andb_true_iff in Hcond as [_ Hfresh].
    apply negb_true_iff in Hfresh. by apply grows_discover.
  - clearbody v1. destruct (ParsedFamily.wife family) as [wife|];
      [| apply grows_refl].
    destruct (negb (falsy wife)
              && negb (Set_has (Vars.visitedPersons v1) wife)) eqn:Hcond;
      [| apply grows_refl].
    apply andb_true_iff in Hcond as [_ Hfresh].
    apply negb_true_iff in Hfresh. by apply grows_discover.
Qed.

Lemma visitSpouse_reached (spouse : option string) (personId parent : string)
  (relation : Relation) (v : Vars.t) :
  spouse = Some parent → parent ≠ "" →
  parent
    ∈ Vars.visitedPersons
        (match spouse with
         | Some s =>
             if negb (falsy s) && negb (Set_has (Vars.visitedPersons v) s)
             then discover s (Edge.mk s personId relation) v
             else v
         | None => v
         end).
Proof.
  intros -> Hne. unfold falsy. rewrite bool_decide_eq_false_2 by done. simpl.
  destruct (Set_has (Vars.visitedPersons v) parent) eqn:Hhas; simpl.
  - by apply Set_has_true.
  - apply Set_add_elem.
Qed.

Lemma ancestorsVisitFamily_reached (personId parent : string)
  (family : ParsedFamily.t) (v : Vars.t) :
  ParsedFamily.husband family = Some parent ∨ ParsedFamily.wife family = Some parent →
  parent ≠ "" →
  parent ∈ Vars.visitedPersons (ancestorsVisitFamily personId family v).
Proof.
  intros Hspouse Hne.
  destruct Hspouse as [Hh | Hw].
  - pose proof (visitSpouse_reached _ personId parent father v Hh Hne) as Hin.
    unfold ancestorsVisitFamily. lazy zeta.
    match goal with
    | |- _ ∈ Vars.visitedPersons (match _ with Some _ => if _ && negb (Set_has (Vars.visitedPersons ?u) _) then _ else _ | None => _ end) =>
        set (v1 := u) in *
    end.
    destruct (ParsedFamily.wife family) as [wife|]; [| exact Hin].
    destruct (negb (falsy wife) && negb (Set_has (Vars.visitedPersons v1) wife));
      [| exact Hin].
    simpl. unfold Set_add. destruct (Set_has _ wife); [exact Hin |].
    apply elem_of_app. by left.
  - unfold ancestorsVisitFamily. lazy zeta.
    by apply visitSpouse_reached.
Qed.

Lemma ancestorsVisitPerson_links (personMap : gmap string ParsedPerson.t)
  (familyMap : gmap string ParsedFamily.t) (v : Vars.t) (personId next : string) :
  parentLink personMap familyMap personId next →
  next ∈ Vars.visitedPersons (ancestorsVisitPerson personMap familyMap v personId).
Proof.
  intros (person & familyId & family & Hperson & Hfamc & Hfamily & Hspouse & Hne).
  unfold ancestorsVisitPerson. rewrite Hperson.
  apply (foldl_establish _ (λ w, next ∈ Vars.visitedPersons w) _ familyId);
    [done | |].
  - intros w. rewrite Hfamily. by apply ancestorsVisitFamily_reached.
  - intros w fid Hw. destruct (familyMap !! fid) as [f|]; [| done].
    eapply grows_visited; [apply ancestorsVisitFamily_src | done].
Qed.

Lemma descendantsVisitChild_src (personId : string) (person : ParsedPerson.t)
  (family : ParsedFamily.t) (v : Vars.t) (childId : string) :
  grows Edge.child (λ e, Edge.parent e = personId) v
    (descendantsVisitChild personId person family v childId).
Proof.
  unfold descendantsVisitChild.
  destruct (negb (Set_has (Vars.visitedPersons v) childId)) eqn:Hfresh;
    [| apply grows_refl].
  apply negb_true_iff in Hfresh. by apply grows_discover.
Qed.

Lemma descendantsVisitPerson_links (personMap : gmap string ParsedPerson.t)
  (familyMap : gmap string ParsedFamily.t) (v : Vars.t) (personId next : string) :
  childLink personMap familyMap personId next →
  next ∈ Vars.visitedPersons (descendantsVisitPerson personMap familyMap v personId).
Proof.
  intros (person & familyId & family & Hperson & Hfams & Hfamily & Hchild).
  unfold descendantsVisitPerson. rewrite Hperson.
  apply (foldl_establish _ (λ w, next ∈ Vars.visitedPersons w) _ familyId);
    [done | |].
  - intros w. rewrite Hfamily.
    apply (foldl_establish _ (λ w, next ∈ Vars.visitedPersons w) _ next);
      [done | |].
    + intros w'. unfold descendantsVisitChild.
      destruct (Set_has (Vars.visitedPersons w') next) eqn:Hhas; simpl.
      * by apply Set_has_true.
      * apply Set_add_elem.
    + intros w' c Hw'.
      eapply grows_visited; [apply descendantsVisitChild_src | done].
  - intros w fid Hw. destruct (familyMap !! fid) as [f|]; [| done].
    eapply grows_visited; [| exact Hw].
    apply grows_foldl. intros w' c _. apply descendantsVisitChild_src.
Qed.

(** X9. When a traversal records fewer than [maxGenerations] generations,
    nothing within reach was missed: the recorded identifiers are closed under
    the links the walk follows.  For [computeAncestors], the non-empty husband
    and wife of every existing family named in the [famc] of a recorded person
    are recorded; for [computeDescendants], every child of every existing
    family named in the [fams] of a recorded person is recorded. *)
Theorem early_stop_is_complete (parseResult : ParseResult.t) (rootId : string)
  (N : Z) :
  let personMap := buildPersonMap (ParseResult.persons parseResult) in
  let familyMap := buildFamilyMap (ParseResult.families parseResult) in
  (∀ r, computeAncestors parseResult rootId N = Returns r →
        (Z.of_nat (length (AncestryResult.generations r)) < N)%Z →
        closedUnder (parentLink personMap familyMap)
          (concat (AncestryResult.generations r)))
  ∧ (∀ r, computeDescendants parseResult rootId N = Returns r →
          (Z.of_nat (length (AncestryResult.generations r)) < N)%Z →
          closedUnder (childLink personMap familyMap)
            (concat (AncestryResult.generations r))).
Proof.
  intros personMap familyMap. split; intros r Hret.
  - unfold computeAncestors in Hret. destruct (negb _); [discriminate |].
    injection Hret as <-. simpl. unfold ancestorsWalk.
    rewrite ancestorsLoop_generationLoop.
    apply (generationLoop_closed Edge.parent (λ e, True)).
    + intros v personId. eapply grows_weaken; [| apply ancestorsVisitPerson_src].
      done.
    + intros v personId next. apply ancestorsVisitPerson_links.
  - unfold computeDescendants in Hret. destruct (negb _); [discriminate |].
    injection Hret as <-. simpl. unfold descendantsWalk.
    rewrite descendantsLoop_generationLoop.
    apply (generationLoop_closed Edge.child (λ e, True)).
    + intros v personId. eapply grows_weaken; [| apply descendantsVisitPerson_src].
      done.
    + intros v personId next. apply descendantsVisitPerson_links.
Qed.

Lemma early_stop_is_complete_witness :
  closedUnder
    (parentLink (buildPersonMap (ParseResult.persons smallFamily))
       (buildFamilyMap (ParseResult.families smallFamily)))
    ["@I3@"; "@I1@"; "@I2@"].
Proof.
  destruct (early_stop_is_complete smallFamily "I3" 3) as [Hanc _].
  apply (Hanc (AncestryResult.mk "@I3@" [["@I3@"]; ["@I1@"; "@I2@"]]
                 [person "@I3@" ["@F1@"] []; person "@I1@" [] ["@F1@"];
                  person "@I2@" [] ["@F1@"]]
                 [Edge.mk "@I1@" "@I3@" father; Edge.mk "@I2@" "@I3@" mother])).
  - vm_compute. reflexivity.
  - simpl. lia.
Defined.

(** *** Edge cases of the bound and of the root *)

Lemma materialize_root (personMap : gmap string ParsedPerson.t) (root : string)
  (p : ParsedPerson.t) :
  personMap !! root = Some p → materialize personMap [root] = [p].
Proof. intros Hlook. unfold materialize. simpl. by rewrite Hlook. Qed.

(** X10. With the root on record and [maxGenerations <= 0] the loop body never
    runs: both traversals return no generation and no edge, and [nodes] holds
    the root's record alone. *)
Theorem no_generation_allowed (parseResult : ParseResult.t) (rootId : string)
  (N : Z) (p : ParsedPerson.t) :
  buildPersonMap (ParseResult.persons parseResult)
    !! GedcomAncestry.canonicalizeId rootId = Some p →
  (N ≤ 0)%Z →
  computeAncestors parseResult rootId N
  = Returns (AncestryResult.mk (GedcomAncestry.canonicalizeId rootId) [] [p] [])
  ∧ computeDescendants parseResult rootId N
    = Returns (AncestryResult.mk (GedcomAncestry.canonicalizeId rootId) [] [p] []).
Proof.
  intros Hlook HN.
  assert (Hroot : GedcomAncestry.canonicalizeId rootId
                    ∈ map ParsedPerson.id (ParseResult.persons parseResult)).
  { apply buildPersonMap_has. by eexists. }
  rewrite computeAncestors_returns, computeDescendants_returns by done.
  unfold ancestorsWalk, descendantsWalk.
  replace (Z.to_nat N) with 0 by lia. simpl.
  by rewrite Hlook.
Qed.

Lemma no_generation_allowed_witness :
  computeAncestors smallFamily "I3" 0
  = Returns (AncestryResult.mk "@I3@" [] [person "@I3@" ["@F1@"] []] [])
  ∧ computeDescendants smallFamily "I3" 0
    = Returns (AncestryResult.mk "@I3@" [] [person "@I3@" ["@F1@"] []] []).
Proof.
  apply (no_generation_allowed smallFamily "I3" 0); [reflexivity | lia].
Defined.

Lemma canonicalizeId_twice (x : string) :
  GedcomAncestry.canonicalizeId (GedcomAncestry.canonicalizeId x)
  = GedcomAncestry.canonicalizeId x.
Proof. exact (canonicalizeId_canonical x). Qed.

(** X11. A root identifier may be given bare or wrapped: with the root on
    record, both traversals return for [rootId] exactly what they return for
    its canonical form, and more generally the same result for any two
    identifiers with the same canonical form. *)
Theorem root_forms_interchangeable (parseResult : ParseResult.t)
  (rootId other : string) (N : Z) :
  GedcomAncestry.canonicalizeId rootId
    ∈ map ParsedPerson.id (ParseResult.persons parseResult) →
  GedcomAncestry.canonicalizeId other = GedcomAncestry.canonicalizeId rootId →
  computeAncestors parseResult other N = computeAncestors parseResult rootId N
  ∧ computeDescendants parseResult other N
    = computeDescendants parseResult rootId N
  ∧ computeAncestors parseResult (GedcomAncestry.canonicalizeId rootId) N
    = computeAncestors parseResult rootId N
  ∧ computeDescendants parseResult (GedcomAncestry.canonicalizeId rootId) N
    = computeDescendants parseResult rootId N.
Proof.
  intros Hroot Hsame.
  assert (Hgen : ∀ a, GedcomAncestry.canonicalizeId a
                      = GedcomAncestry.canonicalizeId rootId →
            computeAncestors parseResult a N
            = computeAncestors parseResult rootId N
            ∧ computeDescendants parseResult a N
              = computeDescendants parseResult rootId N).
  { intros a Ha.
    rewrite (computeAncestors_returns parseResult a),
      (computeDescendants_returns parseResult a) by by rewrite Ha.
    rewrite (computeAncestors_returns parseResult rootId),
      (computeDescendants_returns parseResult rootId) by done.
    unfold ancestorsWalk, descendantsWalk. by rewrite Ha. }
  destruct (Hgen other Hsame) as [-> ->].
  destruct (Hgen _ (canonicalizeId_twice rootId)) as [-> ->].
  done.
Qed.

Lemma root_forms_interchangeable_witness :
  computeAncestors smallFamily "@I3@" 3 = computeAncestors smallFamily "I3" 3.
Proof.
  apply (root_forms_interchangeable smallFamily "I3" "@I3@" 3).
  - apply (bool_decide_unpack _). vm_compute. exact I.
  - reflexivity.
Defined.

Lemma foldl_unchanged {A} (f : Vars.t → A → Vars.t) (l : list A) (v : Vars.t) :
  (∀ a, a ∈ l → f v a = v) → foldl f v l = v.
Proof.
  intros Hid. induction l as [|a l IH]; simpl; [done |].
  rewrite Hid by by apply elem_of_cons; left.
  apply IH. intros b Hb. apply Hid. by apply elem_of_cons; right.
Qed.

Lemma ancestorsVisitPerson_no_link (personMap : gmap string ParsedPerson.t)
  (familyMap : gmap string ParsedFamily.t) (v : Vars.t) (personId : string) :
  (∀ next, ¬ parentLink personMap familyMap personId next) →
  ancestorsVisitPerson personMap familyMap v personId = v.
Proof.
  intros Hnone. unfold ancestorsVisitPerson.
  destruct (personMap !! personId) as [person|] eqn:Hperson; [| done].
  apply foldl_unchanged. intros familyId Hin.
  destruct (familyMap !! familyId) as [family|] eqn:Hfamily; [| done].
  assert (Hspouse : ∀ s, ParsedFamily.husband family = Some s
                         ∨ ParsedFamily.wife family = Some s → falsy s = true).
  { intros s Hs. unfold falsy. apply bool_decide_eq_true_2.
    destruct (decide (s = "")) as [|Hne]; [done |].
    destruct (Hnone s). by exists person, familyId, family. }
  unfold ancestorsVisitFamily.
  destruct (ParsedFamily.husband family) as [h|].
  - rewrite (Hspouse h) by by left. simpl.
    destruct (ParsedFamily.wife family) as [w|]; [| done].
    by rewrite (Hspouse w) by by right.
  - destruct (ParsedFamily.wife family) as [w|]; [| done].
    by rewrite (Hspouse w) by by right.
Qed.

Lemma descendantsVisitPerson_no_link (personMap : gmap string ParsedPerson.t)
  (familyMap : gmap string ParsedFamily.t) (v : Vars.t) (personId : string) :
  (∀ next, ¬ childLink personMap familyMap personId next) →
  descendantsVisitPerson personMap familyMap v personId = v.
Proof.
  intros Hnone. unfold descendantsVisitPerson.
  destruct (personMap !! personId) as [person|] eqn:Hperson; [| done].
  apply foldl_unchanged. intros familyId Hin.
  destruct (familyMap !! familyId) as [family|] eqn:Hfamily; [| done].
  apply foldl_unchanged. intros childId Hchild.
  destruct (Hnone childId). by exists person, familyId, family.
Qed.

Lemma generationLoop_lone_root (visitPerson : Vars.t → string → Vars.t)
  (root : string) (n : nat) :
  visitPerson (openGeneration (initialVars root)) root
  = openGeneration (initialVars root) →
  generationLoop visitPerson (S n) (initialVars root)
  = Vars.mk [[root]] [root] [] [] [].
Proof.
  intros Hid. simpl. rewrite Hid. simpl. by destruct n.
Qed.

(** X12. A root with nothing to follow is returned alone: if the root is on
    record and no existing family in its [famc] has a non-empty husband or
    wife, [computeAncestors] with [maxGenerations >= 1] returns
    [generations = [[root]]], no edge and the root's record as only node; if
    no existing family in its [fams] lists a child, so does
    [computeDescendants]. *)
Theorem lone_root (parseResult : ParseResult.t) (rootId : string) (N : Z)
  (p : ParsedPerson.t) :
  let personMap := buildPersonMap (ParseResult.persons parseResult) in
  let familyMap := buildFamilyMap (ParseResult.families parseResult) in
  let root := GedcomAncestry.canonicalizeId rootId in
  personMap !! root = Some p →
  (1 ≤ N)%Z →
  ((∀ next, ¬ parentLink personMap familyMap root next) →
   computeAncestors parseResult rootId N
   = Returns (AncestryResult.mk root [[root]] [p] []))
  ∧ ((∀ next, ¬ childLink personMap familyMap root next) →
     computeDescendants parseResult rootId N
     = Returns (AncestryResult.mk root [[root]] [p] [])).
Proof.
  intros personMap familyMap root Hlook HN.
  assert (Hroot : root ∈ map ParsedPerson.id (ParseResult.persons parseResult)).
  { apply buildPersonMap_has. by eexists. }
  destruct (Z.to_nat N) as [|n] eqn:Hn; [lia |].
  split; intros Hnone.
  - rewrite computeAncestors_returns by done.
    unfold ancestorsWalk. rewrite ancestorsLoop_generationLoop, Hn.
    rewrite generationLoop_lone_root
      by by apply ancestorsVisitPerson_no_link.
    cbn [Vars.generations Vars.visitedPersons Vars.edges].
    fold personMap root. by rewrite (materialize_root personMap root p Hlook).
  - rewrite computeDescendants_returns by done.
    unfold descendantsWalk. rewrite descendantsLoop_generationLoop, Hn.
    rewrite generationLoop_lone_root
      by by apply descendantsVisitPerson_no_link.
    cbn [Vars.generations Vars.visitedPersons Vars.edges].
    fold personMap root. by rewrite (materialize_root personMap root p Hlook).
Qed.

Lemma lone_root_witness :
  computeAncestors smallFamily "I1" 3
  = Returns (AncestryResult.mk "@I1@" [["@I1@"]] [person "@I1@" [] ["@F1@"]] []).
Proof.
  destruct (lone_root smallFamily "I1" 3 (person "@I1@" [] ["@F1@"]))
    as [Hanc _]; [reflexivity | lia |].
  apply Hanc.
  intros next (q & familyId & family & Hq & Hin & _).
  vm_compute in Hq. injection Hq as <-. simpl in Hin.
  by apply elem_of_nil in Hin.
Defined.

(** *** Generations are levels *)

Section Levels.
Variable key : Edge.t → string.
Variable src : Edge.t → string.
Variable visitPerson : Vars.t → string → Vars.t.
Hypothesis visitPerson_src :
  ∀ v personId, grows key (λ e, src e = personId) v (visitPerson v personId).

Lemma generationLoop_levelled (n : nat) (v : Vars.t) :
  levelled key src (Vars.generations v) (Vars.edges v) → frontierLinked key src v →
  levelled key src (Vars.generations (generationLoop visitPerson n v))
    (Vars.edges (generationLoop visitPerson n v)).
Proof.
  revert v. induction n as [|n IH]; intros v Hlev Hfront; simpl; [done |].
  destruct (Vars.currentGeneration v) as [|c cs] eqn:Hcur; [done |].
  set (v2 := foldl visitPerson (openGeneration v) (c :: cs)).
  assert (Hgrows : grows key (λ e, src e ∈ c :: cs) (openGeneration v) v2).
  { apply grows_foldl. intros w a Ha.
    eapply grows_weaken; [| apply visitPerson_src].
    intros e He. simpl in He. by rewrite He. }
  destruct Hgrows as (es & Hg & _ & He & Hn & _ & _ & _ & Hes).
  cbn [openGeneration Vars.generations Vars.edges Vars.nextGeneration] in Hg, He, Hn.
  rewrite Hcur in Hg. simpl in Hn.
  apply IH; clear IH.
  - change (Vars.generations (closeGeneration v2)) with (Vars.generations v2).
    change (Vars.edges (closeGeneration v2)) with (Vars.edges v2).
    rewrite Hg, He. intros k g g' id Hk Hk' Hid.
    destruct (decide (S k < length (Vars.generations v))) as [Hlt | Hge].
    + rewrite lookup_app_l in Hk by lia. rewrite lookup_app_l in Hk' by lia.
      destruct (Hlev k g g' id Hk Hk' Hid) as (e & Hin & Hkey & Hsrc).
      exists e. split; [apply elem_of_app; by left | done].
    + assert (Hlen : S k = length (Vars.generations v)).
      { apply lookup_lt_Some in Hk'. rewrite length_app in Hk'. simpl in Hk'. lia. }
      rewrite lookup_app_l in Hk by lia.
      rewrite lookup_app_r in Hk' by lia.
      replace (S k - length (Vars.generations v)) with 0 in Hk' by lia.
      injection Hk' as <-.
      assert (Hlast : last (Vars.generations v) = Some g).
      { rewrite last_lookup. rewrite <- Hlen. simpl. exact Hk. }
      destruct (Hfront g id Hlast) as (e & Hin & Hkey & Hsrc);
        [by rewrite Hcur |].
      exists e. split; [apply elem_of_app; by left | done].
  - intros g id Hlast Hid.
    change (Vars.generations (closeGeneration v2)) with (Vars.generations v2)
      in Hlast.
    change (Vars.currentGeneration (closeGeneration v2))
      with (Vars.nextGeneration v2) in Hid.
    change (Vars.edges (closeGeneration v2)) with (Vars.edges v2).
    rewrite Hg, last_snoc in Hlast. injection Hlast as <-.
    rewrite Hn in Hid. apply list_elem_of_fmap in Hid as (e & -> & Hin).
    exists e. rewrite He. split; [apply elem_of_app; by right |].
    split; [done |]. by apply (proj1 (Forall_forall _ _) Hes).
Qed.

Lemma levelled_initial (root : string) :
  levelled key src (Vars.generations (initialVars root))
    (Vars.edges (initialVars root))
  ∧ frontierLinked key src (initialVars root).
Proof. split; [by intros k g g' id Hk | by intros g id Hlast]. Qed.

End Levels.

(** X13. The recorded generations are levels of the walk.  In a result of
    [computeAncestors] every member of generation [k + 1] is the parent of an
    edge whose child is in generation [k]; in a result of [computeDescendants]
    every member of generation [k + 1] is the child of an edge whose parent is
    in generation [k]. *)
Theorem generations_are_levels (parseResult : ParseResult.t) (rootId : string)
  (N : Z) :
  (∀ r, computeAncestors parseResult rootId N = Returns r →
        levelled Edge.parent Edge.child (AncestryResult.generations r)
          (AncestryResult.edges r))
  ∧ (∀ r, computeDescendants parseResult rootId N = Returns r →
          levelled Edge.child Edge.parent (AncestryResult.generations r)
            (AncestryResult.edges r)).
Proof.
  split; intros r Hret.
  - unfold computeAncestors in Hret. destruct (negb _); [discriminate |].
    injection Hret as <-. simpl. unfold ancestorsWalk.
    rewrite ancestorsLoop_generationLoop.
    apply generationLoop_levelled;
      [apply ancestorsVisitPerson_src | apply levelled_initial ..].
  - unfold computeDescendants in Hret. destruct (negb _); [discriminate |].
    injection Hret as <-. simpl. unfold descendantsWalk.
    rewrite descendantsLoop_generationLoop.
    apply generationLoop_levelled;
      [apply descendantsVisitPerson_src | apply levelled_initial ..].
Qed.

Lemma generations_are_levels_witness :
  levelled Edge.parent Edge.child [["@I3@"]; ["@I1@"; "@I2@"]]
    [Edge.mk "@I1@" "@I3@" father; Edge.mk "@I2@" "@I3@" mother].
Proof.
  destruct (generations_are_levels smallFamily "I3" 3) as [Hanc _].
  apply (Hanc (AncestryResult.mk "@I3@" [["@I3@"]; ["@I1@"; "@I2@"]]
                 [person "@I3@" ["@F1@"] []; person "@I1@" [] ["@F1@"];
                  person "@I2@" [] ["@F1@"]]
                 [Edge.mk "@I1@" "@I3@" father; Edge.mk "@I2@" "@I3@" mother])).
  vm_compute. reflexivity.
Defined.
(** ** The relation of a descendants edge *)

Lemma grows_fresh_weaken (key : Edge.t → string) (ok ok' : Edge.t → Prop)
  (v v' : Vars.t) :
  (∀ e, ok e → key e ∉ Vars.visitedPersons v → ok' e) →
  grows key ok v v' → grows key ok' v v'.
Proof.
  intros Himp (es & Hg & Hc & He & Hn & Hv & Hd & Hf & Hok).
  exists es. repeat split; try done.
  apply Forall_forall. intros e Hin.
  apply Himp; [by apply (proj1 (Forall_forall _ _) Hok) |].
  apply Hf, list_elem_of_fmap. by exists e.
Qed.

Lemma find_app_skip {A} (p : A → bool) (l1 l2 : list A) :
  (∀ x, x ∈ l1 → p x = false) → List.find p (l1 ++ l2) = List.find p l2.
Proof.
  intros Hnone. induction l1 as [|x l1 IH]; simpl; [done |].
  rewrite Hnone by by apply elem_of_cons; left.
  apply IH. intros y Hy. apply Hnone. by apply elem_of_cons; right.
Qed.

Section OneParent.
Variable personId : string.
Variable person : ParsedPerson.t.

(** What the walk of one family pushes. *)
Lemma descendantsFamily_grows (family : ParsedFamily.t) (v : Vars.t) :
  grows Edge.child
    (λ e, Edge.parent e = personId
          ∧ Edge.child e ∈ ParsedFamily.children family
          ∧ Edge.relation e
            = (if bool_decide
                    (Some (ParsedPerson.id person) = ParsedFamily.husband family)
               then father else mother))
    v
    (foldl (descendantsVisitChild personId person family) v
       (ParsedFamily.children family)).
Proof.
  apply grows_foldl. intros w childId Hchild. unfold descendantsVisitChild.
  destruct (negb (Set_has (Vars.visitedPersons w) childId)) eqn:Hfresh;
    [| apply grows_refl].
  apply negb_true_iff in Hfresh. by apply grows_discover.
Qed.

(** After the walk of a family all its children are visited. *)
Lemma descendantsFamily_reached (family : ParsedFamily.t) (v : Vars.t)
  (childId : string) :
  childId ∈ ParsedFamily.children family →
  childId
    ∈ Vars.visitedPersons
        (foldl (descendantsVisitChild personId person family) v
           (ParsedFamily.children family)).
Proof.
  intros Hchild.
  apply (foldl_establish _ (λ w, childId ∈ Vars.visitedPersons w) _ childId);
    [done | |].
  - intros w. unfold descendantsVisitChild.
    destruct (Set_has (Vars.visitedPersons w) childId) eqn:Hhas; simpl.
    + by apply Set_has_true.
    + apply Set_add_elem.
  - intros w c Hw.
    eapply grows_visited; [apply descendantsVisitChild_src | done].
Qed.

(** The families of one person, walked in order: an edge is pushed under the
    first family of the whole list that lists its child. *)
Lemma descendantsFamilies_grows (families : list ParsedFamily.t)
  (walked rest : list ParsedFamily.t) (v : Vars.t) :
  families = walked ++ rest →
  (∀ family childId, family ∈ walked →
     childId ∈ ParsedFamily.children family → childId ∈ Vars.visitedPersons v) →
  grows Edge.child
    (λ e, Edge.parent e = personId
          ∧ ∃ family,
              List.find
                (λ family, bool_decide (Edge.child e ∈ ParsedFamily.children family))
                families = Some family
              ∧ Edge.relation e
                = (if bool_decide
                        (Some (ParsedPerson.id person)
                         = ParsedFamily.husband family)
                   then father else mother))
    v
    (foldl
       (λ v family,
          foldl (descendantsVisitChild personId person family) v
            (ParsedFamily.children family))
       v rest).
Proof.
  revert walked v. induction rest as [|family rest IH]; intros walked v Hall Hseen.
  - apply grows_refl.
  - cbn [foldl].
    set (v1 := foldl (descendantsVisitChild personId person family) v
                 (ParsedFamily.children family)).
    apply (grows_trans _ _ v v1).
    + eapply grows_fresh_weaken; [| apply descendantsFamily_grows].
      intros e (Hparent & Hchild & Hrel) Hfresh. simpl in *.
      split; [done |]. exists family. split; [| done].
      rewrite Hall, find_app_skip.
      * simpl. by rewrite bool_decide_eq_true_2.
      * intros f Hf. apply bool_decide_eq_false_2. intros Hin.
        apply Hfresh. by eapply Hseen.
    + apply (IH (walked ++ [family])).
      * by rewrite <- app_assoc.
      * intros f c Hf Hc. apply elem_of_app in Hf as [Hf | Hf].
        -- eapply grows_visited; [apply descendantsFamily_grows |].
           by eapply Hseen.
        -- apply list_elem_of_singleton in Hf as ->.
           by apply descendantsFamily_reached.
Qed.

End OneParent.

Lemma descendantsVisitPerson_discovery (personMap : gmap string ParsedPerson.t)
  (familyMap : gmap string ParsedFamily.t) (v : Vars.t) (personId : string) :
  keyedById personMap →
  grows Edge.child (discoveryEdge personMap familyMap) v
    (descendantsVisitPerson personMap familyMap v personId).
Proof.
  intros Hkeyed. unfold descendantsVisitPerson.
  destruct (personMap !! personId) as [person|] eqn:Hperson; [| apply grows_refl].
  rewrite (foldl_skip_absent familyMap
             (λ v family,
                foldl (descendantsVisitChild personId person family) v
                  (ParsedFamily.children family))).
  eapply grows_weaken;
    [| apply (descendantsFamilies_grows personId person
                (omap (λ familyId, familyMap !! familyId)
                   (ParsedPerson.fams person)) []);
       [done | intros f c Hf; by apply elem_of_nil in Hf]].
  intros e (Hparent & family & Hfind & Hrel). simpl in *.
  pose proof (Hkeyed _ _ Hperson) as Hid.
  exists person, family. rewrite Hparent.
  split; [done |]. split; [done |]. split; [exact Hfind |].
  rewrite Hrel. case_bool_decide as Hhusb; split; split; done.
Qed.

Lemma discoveryEdge_descendantEdge (personMap : gmap string ParsedPerson.t)
  (familyMap : gmap string ParsedFamily.t) (e : Edge.t) :
  discoveryEdge personMap familyMap e → descendantEdge personMap familyMap e.
Proof.
  intros (person & family & Hperson & Hid & Hfind & Hfather & Hmother).
  unfold traversedFamily in Hfind. apply find_some in Hfind as [Hin Hlists].
  apply list_elem_of_In, list_elem_of_omap in Hin as (familyId & Hfams & Hfamily).
  apply bool_decide_eq_true_1 in Hlists.
  by exists person, familyId, family.
Qed.

(** C6. In [computeDescendants] a newly discovered child gets an edge from
    the traversing person whose relation is [father] when that person's id
    is the husband field of the family being traversed and [mother]
    otherwise, whether the person is the wife or neither spouse.  Every edge
    of a returned result was recorded that way: its parent has a record with
    that id, and its relation is [father] if and only if the parent is the
    husband of the family that was being traversed when the child was
    discovered, which is the first existing family of the parent's [fams]
    that lists the child; the relation of an edge is therefore determined,
    and no other family of the parent that lists the child has a say. *)
Theorem descendants_relation_by_husband (parseResult : ParseResult.t)
  (rootId : string) (N : Z) (r : AncestryResult.t) :
  computeDescendants parseResult rootId N = Returns r →
  (∀ personId person family v childId,
     childId ∉ Vars.visitedPersons v →
     Vars.edges (descendantsVisitChild personId person family v childId)
     = Vars.edges v
       ++ [Edge.mk personId childId
             (if bool_decide
                   (ParsedFamily.husband family = Some (ParsedPerson.id person))
              then father else mother)])
  ∧ Forall
      (descendantEdge (buildPersonMap (ParseResult.persons parseResult))
         (buildFamilyMap (ParseResult.families parseResult)))
      (AncestryResult.edges r)
  ∧ Forall
      (discoveryEdge (buildPersonMap (ParseResult.persons parseResult))
         (buildFamilyMap (ParseResult.families parseResult)))
      (AncestryResult.edges r)
  ∧ (∀ e person family,
       e ∈ AncestryResult.edges r →
       buildPersonMap (ParseResult.persons parseResult) !! Edge.parent e
       = Some person →
       traversedFamily (buildFamilyMap (ParseResult.families parseResult))
         person (Edge.child e) = Some family →
       Edge.relation e
       = (if bool_decide
               (ParsedFamily.husband family = Some (Edge.parent e))
          then father else mother)).
Proof.
  intros Hret.
  assert (Hdisc : Forall
            (discoveryEdge (buildPersonMap (ParseResult.persons parseResult))
               (buildFamilyMap (ParseResult.families parseResult)))
            (AncestryResult.edges r)).
  { unfold computeDescendants in Hret.
    destruct (negb _); [discriminate |].
    injection Hret as <-. simpl.
    assert (Hinv : WalkInv Edge.child
              (discoveryEdge (buildPersonMap (ParseResult.persons parseResult))
                 (buildFamilyMap (ParseResult.families parseResult)))
              (GedcomAncestry.canonicalizeId rootId)
              (descendantsWalk parseResult rootId N)).
    { unfold descendantsWalk. rewrite descendantsLoop_generationLoop.
      apply generationLoop_inv; [| apply WalkInv_initial].
      intros v personId.
      apply descendantsVisitPerson_discovery, buildPersonMap_keyed. }
    exact (inv_ok _ _ _ _ Hinv). }
  split.
  { intros personId person family v childId Hfresh.
    unfold descendantsVisitChild.
    rewrite (proj2 (Set_has_false _ childId)) by done. simpl.
    do 3 f_equal. repeat case_bool_decide; congruence. }
  split.
  { eapply Forall_impl; [exact Hdisc |].
    intros e. apply discoveryEdge_descendantEdge. }
  split; [exact Hdisc |].
  intros e person family Hin Hperson Hfamily.
  apply (proj1 (Forall_forall _ _) Hdisc) in Hin
    as (person' & family' & Hperson' & Hid & Hfamily' & Hfather & Hmother).
  rewrite Hperson in Hperson'. injection Hperson' as <-.
  rewrite Hfamily in Hfamily'. injection Hfamily' as <-.
  rewrite Hid in Hfather, Hmother.
  case_bool_decide as Hhusb.
  - by apply Hfather.
  - by apply Hmother.
Qed.

Lemma descendants_relation_by_husband_witness :
  ∃ r,
    computeDescendants twoFamilies "I1" 3 = Returns r
    ∧ AncestryResult.edges r = [Edge.mk "@I1@" "@I3@" mother]
    ∧ Forall
        (discoveryEdge (buildPersonMap (ParseResult.persons twoFamilies))
           (buildFamilyMap (ParseResult.families twoFamilies)))
        (AncestryResult.edges r)
    ∧ traversedFamily (buildFamilyMap (ParseResult.families twoFamilies))
        (person "@I1@" [] ["@F1@"; "@F2@"]) "@I3@"
      = Some (ParsedFamily.mk "@F1@" (Some "@I9@") (Some "@I1@") ["@I3@"]).
Proof.
  eexists. split; [vm_compute; reflexivity |]. split; [reflexivity |].
  split; [| vm_compute; reflexivity].
  destruct (descendants_relation_by_husband twoFamilies "I1" 3 _ eq_refl)
    as (_ & _ & Hdisc & _).
  exact Hdisc.
Defined.

(** ** Searching *)

Lemma prefix_app (s t : string) : String.prefix s (s +:+ t) = true.
Proof.
  induction s as [|c s IH]; simpl; [by destruct t |].
  destruct (Ascii.ascii_dec c c); [exact IH | done].
Qed.

Lemma includes_prefix (s sub : string) :
  String.prefix sub s = true → includes s sub = true.
Proof. intros Hp. destruct s; cbn [includes]; by rewrite Hp. Qed.

Lemma includes_self_prefix (s t : string) : includes (s +:+ t) s = true.
Proof. apply includes_prefix, prefix_app. Qed.

Lemma includes_middle (a s b : string) : includes (a +:+ (s +:+ b)) s = true.
Proof.
  induction a as [|c a IH].
  - exact (includes_self_prefix s b).
  - change (String c a +:+ (s +:+ b)) with (String c (a +:+ (s +:+ b))).
    cbn [includes]. rewrite IH. apply orb_true_r.
Qed.

Lemma includes_refl (s : string) : includes s s = true.
Proof.
  assert (Hnil : s +:+ "" = s).
  { induction s as [|c s IH]; [done |].
    change (String c s +:+ "") with (String c (s +:+ "")). by rewrite IH. }
  pose proof (includes_self_prefix s "") as Hs.
  by rewrite Hnil in Hs.
Qed.

Lemma includes_canonical (x : string) :
  includes (GedcomParser.canonicalizeId x) x = true.
Proof.
  unfold GedcomParser.canonicalizeId.
  destruct (falsy x) eqn:Hx.
  - unfold falsy in Hx. apply bool_decide_eq_true_1 in Hx. by subst.
  - destruct (startsWith x "@" && endsWith x "@").
    + apply includes_refl.
    + exact (includes_middle "@" x "@").
Qed.

Lemma list_filter_idem {A} (f : A → bool) (l : list A) :
  List.filter f (List.filter f l) = List.filter f l.
Proof.
  induction l as [|x l IH]; simpl; [done |].
  destruct (f x) eqn:Hx; simpl; [| done]. by rewrite Hx, IH.
Qed.

Lemma list_filter_comm {A} (f g : A → bool) (l : list A) :
  List.filter f (List.filter g l) = List.filter g (List.filter f l).
Proof.
  induction l as [|x l IH]; simpl; [done |].
  destruct (f x) eqn:Hf, (g x) eqn:Hg; simpl; rewrite ?Hf, ?Hg, IH; done.
Qed.

Lemma list_filter_sublist {A} (f : A → bool) (l : list A) :
  sublist (List.filter f l) l.
Proof.
  induction l as [|x l IH]; simpl; [constructor |].
  destruct (f x); by constructor.
Qed.

Lemma list_filter_all {A} (f : A → bool) (l : list A) :
  (∀ x, f x = true) → List.filter f l = l.
Proof.
  intros Hall. induction l as [|x l IH]; simpl; [done |].
  by rewrite Hall, IH.
Qed.

Lemma list_filter_length {A} (f : A → bool) (l : list A) :
  length (List.filter f l) ≤ length l.
Proof. apply sublist_length, list_filter_sublist. Qed.

Section FinderFacts.
Variable toLowerCase : string → string.

Lemma unmet_unset (criterion : option string) (test : string → bool) :
  unset criterion → unmet criterion test = false.
Proof. by intros [-> | ->]. Qed.

Lemma unmet_false (criterion : option string) (test : string → bool) (c : string) :
  unmet criterion test = false → criterion = Some c → c ≠ "" → test c = true.
Proof.
  intros Hunmet -> Hne. simpl in Hunmet. unfold falsy in Hunmet.
  rewrite bool_decide_eq_false_2 in Hunmet by done. simpl in Hunmet.
  by apply negb_false_iff in Hunmet.
Qed.

Lemma personMatches_no_criterion (filter : PersonFilter.t) (p : ParsedPerson.t) :
  noPersonCriterion filter → personMatches toLowerCase filter p = true.
Proof.
  intros (H1 & H2 & H3 & H4 & H5 & H6). unfold personMatches.
  by rewrite !unmet_unset.
Qed.

Lemma familyMatches_no_criterion (filter : FamilyFilter.t) (f : ParsedFamily.t) :
  noFamilyCriterion filter → familyMatches filter f = true.
Proof.
  intros (H1 & H2 & H3 & H4). unfold familyMatches.
  by rewrite !unmet_unset.
Qed.

End FinderFacts.

(** X14. A filter without criteria (each absent or the empty string) keeps
    everything: [findIndividuals] returns all persons, [findFamilies] all
    families, and [findAll] with such filters returns what it returns without
    filters. *)
Theorem find_without_criterion (toLowerCase : string → string)
  (data : ParseResult.t) (personFilter : PersonFilter.t)
  (familyFilter : FamilyFilter.t) :
  noPersonCriterion personFilter →
  noFamilyCriterion familyFilter →
  findIndividuals toLowerCase data personFilter = ParseResult.persons data
  ∧ findFamilies data familyFilter = ParseResult.families data
  ∧ findAll toLowerCase data (Some personFilter) (Some familyFilter)
    = findAll toLowerCase data None None.
Proof.
  intros Hp Hf.
  assert (Hpersons : findIndividuals toLowerCase data personFilter
                     = ParseResult.persons data).
  { apply list_filter_all. intros p. by apply personMatches_no_criterion. }
  assert (Hfamilies : findFamilies data familyFilter = ParseResult.families data).
  { apply list_filter_all. intros f. by apply familyMatches_no_criterion. }
  split; [done |]. split; [done |].
  unfold findAll. by rewrite Hpersons, Hfamilies.
Qed.

Lemma find_without_criterion_witness :
  findIndividuals asciiLower smallFamily
    (PersonFilter.mk (Some "") None None None (Some "") None)
  = ParseResult.persons smallFamily
  ∧ findFamilies smallFamily (FamilyFilter.mk None (Some "") None None)
    = ParseResult.families smallFamily.
Proof.
  destruct (find_without_criterion asciiLower smallFamily
              (PersonFilter.mk (Some "") None None None (Some "") None)
              (FamilyFilter.mk None (Some "") None None))
    as (Hp & Hf & _).
  - unfold noPersonCriterion, unset. simpl. tauto.
  - unfold noFamilyCriterion, unset. simpl. tauto.
  - by split.
Defined.

(** X15. Searching only narrows: the persons (families) found are a sublist
    of those given, in their original order; searching the results again with
    the same filter changes nothing; and two successive searches give the same
    result in either order. *)
Theorem find_narrows (toLowerCase : string → string) (data : ParseResult.t)
  (f g : PersonFilter.t) (ff gg : FamilyFilter.t) :
  sublist (findIndividuals toLowerCase data f) (ParseResult.persons data)
  ∧ sublist (findFamilies data ff) (ParseResult.families data)
  ∧ findIndividuals toLowerCase
      (withPersons data (findIndividuals toLowerCase data f)) f
    = findIndividuals toLowerCase data f
  ∧ findFamilies (withFamilies data (findFamilies data ff)) ff
    = findFamilies data ff
  ∧ findIndividuals toLowerCase
      (withPersons data (findIndividuals toLowerCase data f)) g
    = findIndividuals toLowerCase
        (withPersons data (findIndividuals toLowerCase data g)) f
  ∧ findFamilies (withFamilies data (findFamilies data ff)) gg
    = findFamilies (withFamilies data (findFamilies data gg)) ff.
Proof.
  unfold findIndividuals, findFamilies, withPersons, withFamilies. simpl.
  split; [apply list_filter_sublist |].
  split; [apply list_filter_sublist |].
  split; [apply list_filter_idem |].
  split; [apply list_filter_idem |].
  split; apply list_filter_comm.
Qed.

(** X16. Searching by identifier finds the record: a person of [data] whose id
    is the canonical form of a non-empty [x] is returned by a search on the
    id criterion [x], whether [x] is given bare or wrapped. *)
Theorem find_by_id (toLowerCase : string → string) (data : ParseResult.t)
  (p : ParsedPerson.t) (x : string) :
  p ∈ ParseResult.persons data →
  ParsedPerson.id p = GedcomParser.canonicalizeId x →
  p ∈ findIndividuals toLowerCase data (byId x).
Proof.
  intros Hin Hid. unfold findIndividuals.
  apply list_elem_of_In, filter_In. split; [by apply list_elem_of_In |].
  unfold personMatches, byId. simpl.
  by rewrite Hid, includes_canonical, andb_false_r.
Qed.

Lemma find_by_id_witness :
  person "@I3@" ["@F1@"] [] ∈ findIndividuals asciiLower smallFamily (byId "I3").
Proof.
  apply find_by_id.
  - simpl. apply elem_of_cons. right. apply elem_of_cons. right.
    apply elem_of_cons. by left.
  - reflexivity.
Defined.

(** X17. [findAll] over a result of [parseGedcomWithFallback] reports counts
    that are the lengths of the lists it returns and never exceed the totals
    it copies from the parsed data, whose encoding tag it keeps. *)
Theorem findAll_counts `{Platform} (toLowerCase : string → string)
  (buffer : Buffer) (data : ParseResult.t)
  (personFilter : option PersonFilter.t) (familyFilter : option FamilyFilter.t) :
  parseGedcomWithFallback buffer = Returns data →
  let found := findAll toLowerCase data personFilter familyFilter in
  FoundMeta.individuals (Found.meta found) = length (Found.persons found)
  ∧ FoundMeta.families (Found.meta found) = length (Found.families found)
  ∧ FoundMeta.individuals (Found.meta found)
    ≤ FoundMeta.totalIndividuals (Found.meta found)
  ∧ FoundMeta.families (Found.meta found)
    ≤ FoundMeta.totalFamilies (Found.meta found)
  ∧ FoundMeta.totalIndividuals (Found.meta found)
    = length (ParseResult.persons data)
  ∧ FoundMeta.totalFamilies (Found.meta found)
    = length (ParseResult.families data)
  ∧ FoundMeta.encodingTag (Found.meta found)
    = Meta.encodingTag (ParseResult.meta data).
Proof.
  intros Hret.
  assert (Hcounts :
            Meta.individuals (ParseResult.meta data)
            = length (ParseResult.persons data)
            ∧ Meta.families (ParseResult.meta data)
              = length (ParseResult.families data)).
  { apply parse_returns_inv in Hret
      as (gedcomText & _ & [Hprimary | (error & result & _ & _ & ->)]).
    - unfold primaryAttempt in Hprimary.
      destruct (parseGedcom gedcomText) as [tree | e]; [| discriminate].
      by eapply normalizeParseGedcomResult_counts.
    - apply normalizeReadGedcomResult_counts. }
  destruct Hcounts as [Hind Hfam]. simpl. rewrite Hind, Hfam.
  repeat split; try done.
  - destruct personFilter; [apply list_filter_length | done].
  - destruct familyFilter; [apply list_filter_length | done].
Qed.

Lemma findAll_counts_witness :
  FoundMeta.individuals
    (Found.meta
       (findAll asciiLower
          (ParseResult.mk (Meta.mk 2 1 "ANSEL")
             [ParsedPerson.mk "@I1@" "John /Doe/" None None "01 JAN 1900" ""
                [] ["@F1@"];
              ParsedPerson.mk "@I3@" "" None None "" "" ["@F1@"] []]
             [ParsedFamily.mk "@F1@" (Some "@I1@") None ["@I3@"]])
          (Some (byId "I3")) None))
  ≤ 2.
Proof.
  destruct (@findAll_counts
              (nodePlatform (Returns (Some sampleTree)) (Returns sampleGraph))
              asciiLower markedHeadLine _ (Some (byId "I3")) None eq_refl)
    as (_ & _ & Hle & _).
  exact Hle.
Defined.

(** X18. Every record a search returns meets every criterion that is set.
    For a person: the id, birth and death dates contain the criterion, the
    lower-cased name contains the lower-cased criterion, and some [fams]
    ([famc]) entry contains the [fams] ([famc]) criterion.  For a family: the
    id contains the criterion, some child contains the children criterion,
    and for the husband (wife) criterion the family has a non-empty husband
    (wife) that contains it, so a family without one is never returned. *)
Theorem find_results_meet_criteria (toLowerCase : string → string)
  (data : ParseResult.t) (f : PersonFilter.t) (ff : FamilyFilter.t) :
  (∀ p, p ∈ findIndividuals toLowerCase data f →
     p ∈ ParseResult.persons data
     ∧ (∀ c, PersonFilter.id f = Some c → c ≠ "" →
          includes (ParsedPerson.id p) c = true)
     ∧ (∀ c, PersonFilter.name f = Some c → c ≠ "" →
          includes (toLowerCase (ParsedPerson.name p)) (toLowerCase c) = true)
     ∧ (∀ c, PersonFilter.birthDate f = Some c → c ≠ "" →
          includes (ParsedPerson.birthDate p) c = true)
     ∧ (∀ c, PersonFilter.deathDate f = Some c → c ≠ "" →
          includes (ParsedPerson.deathDate p) c = true)
     ∧ (∀ c, PersonFilter.fams f = Some c → c ≠ "" →
          ∃ id, id ∈ ParsedPerson.fams p ∧ includes id c = true)
     ∧ (∀ c, PersonFilter.famc f = Some c → c ≠ "" →
          ∃ id, id ∈ ParsedPerson.famc p ∧ includes id c = true))
  ∧ (∀ fam, fam ∈ findFamilies data ff →
       fam ∈ ParseResult.families data
       ∧ (∀ c, FamilyFilter.id ff = Some c → c ≠ "" →
            includes (ParsedFamily.id fam) c = true)
       ∧ (∀ c, FamilyFilter.husband ff = Some c → c ≠ "" →
            ∃ h, ParsedFamily.husband fam = Some h ∧ h ≠ ""
                 ∧ includes h c = true)
       ∧ (∀ c, FamilyFilter.wife ff = Some c → c ≠ "" →
            ∃ w, ParsedFamily.wife fam = Some w ∧ w ≠ ""
                 ∧ includes w c = true)
       ∧ (∀ c, FamilyFilter.children ff = Some c → c ≠ "" →
            ∃ id, id ∈ ParsedFamily.children fam ∧ includes id c = true)).
Proof.
  assert (Hsome : ∀ (l : list string) c,
            existsb (λ id, includes id c) l = true →
            ∃ id, id ∈ l ∧ includes id c = true).
  { intros l c Hex. apply existsb_exists in Hex as (id & Hin & Hinc).
    exists id. split; [by apply list_elem_of_In | done]. }
  assert (Hspouse : ∀ (s : option string) c,
            spouseIncludes s c = true →
            ∃ h, s = Some h ∧ h ≠ "" ∧ includes h c = true).
  { intros [h|] c Hs; simpl in Hs; [| discriminate].
    apply andb_true_iff in Hs as [Hne Hinc]. exists h.
    split; [done |]. split; [| done].
    unfold falsy in Hne. apply negb_true_iff in Hne.
    by apply bool_decide_eq_false_1 in Hne. }
  split.
  - intros p Hin. unfold findIndividuals in Hin.
    apply list_elem_of_In, filter_In in Hin as [Hin Hmatch].
    split; [by apply list_elem_of_In |].
    unfold personMatches in Hmatch.
    destruct (unmet (PersonFilter.id f) _) eqn:H1; [discriminate |].
    destruct (unmet (PersonFilter.name f) _) eqn:H2; [discriminate |].
    destruct (unmet (PersonFilter.birthDate f) _) eqn:H3; [discriminate |].
    destruct (unmet (PersonFilter.deathDate f) _) eqn:H4; [discriminate |].
    destruct (unmet (PersonFilter.fams f) _) eqn:H5; [discriminate |].
    destruct (unmet (PersonFilter.famc f) _) eqn:H6; [discriminate |].
    split; [intros c Hc Hne; exact (unmet_false _ _ c H1 Hc Hne) |].
    split; [intros c Hc Hne; exact (unmet_false _ _ c H2 Hc Hne) |].
    split; [intros c Hc Hne; exact (unmet_false _ _ c H3 Hc Hne) |].
    split; [intros c Hc Hne; exact (unmet_false _ _ c H4 Hc Hne) |].
    split; intros c Hc Hne; apply Hsome.
    + exact (unmet_false _ _ c H5 Hc Hne).
    + exact (unmet_false _ _ c H6 Hc Hne).
  - intros fam Hin. unfold findFamilies in Hin.
    apply list_elem_of_In, filter_In in Hin as [Hin Hmatch].
    split; [by apply list_elem_of_In |].
    unfold familyMatches in Hmatch.
    destruct (unmet (FamilyFilter.id ff) _) eqn:H1; [discriminate |].
    destruct (unmet (FamilyFilter.husband ff) _) eqn:H2; [discriminate |].
    destruct (unmet (FamilyFilter.wife ff) _) eqn:H3; [discriminate |].
    destruct (unmet (FamilyFilter.children ff) _) eqn:H4; [discriminate |].
    split; [intros c Hc Hne; exact (unmet_false _ _ c H1 Hc Hne) |].
    split; [intros c Hc Hne; apply Hspouse; exact (unmet_false _ _ c H2 Hc Hne) |].
    split; [intros c Hc Hne; apply Hspouse; exact (unmet_false _ _ c H3 Hc Hne) |].
    intros c Hc Hne. apply Hsome. exact (unmet_false _ _ c H4 Hc Hne).
Qed.

Lemma find_results_meet_criteria_witness :
  ∃ h, ParsedFamily.husband
         (ParsedFamily.mk "@F1@" (Some "@I1@") (Some "@I2@") ["@I3@"]) = Some h
       ∧ h ≠ "" ∧ includes h "I1" = true.
Proof.
  destruct (find_results_meet_criteria asciiLower smallFamily
              (byId "") (FamilyFilter.mk None (Some "I1") None None))
    as [_ Hfam].
  destruct (Hfam (ParsedFamily.mk "@F1@" (Some "@I1@") (Some "@I2@") ["@I3@"]))
    as (_ & _ & Hh & _).
  - unfold findFamilies. simpl. apply elem_of_cons. by left.
  - apply (Hh "I1"); [reflexivity | discriminate].
Defined.
(** ** Generating GEDCOM lines *)

Lemma tagged_app (tag : string) (l1 l2 : list string) :
  tagged tag (l1 ++ l2) = tagged tag l1 ++ tagged tag l2.
Proof. apply omap_app. Qed.

Lemma tagged_map (tag tag' : string) (keep : bool) (l : list string) :
  (∀ x, afterTag tag (tag' +:+ x) = if keep then Some x else None) →
  tagged tag (map (λ x, tag' +:+ x) l) = if keep then l else [].
Proof.
  intros Htag. unfold tagged.
  destruct keep; induction l as [|x l IH]; simpl; try done; rewrite Htag.
  - f_equal. exact IH.
  - exact IH.
Qed.

Lemma tagged_concat_map {A} (tag : string) (f : A → list string)
  (g : A → list string) (l : list A) :
  (∀ a, tagged tag (f a) = g a) →
  tagged tag (concat (map f l)) = concat (map g l).
Proof.
  intros Hfg. induction l as [|a l IH]; simpl; [done |].
  by rewrite tagged_app, Hfg, IH.
Qed.

(** Unfolds a record's lines and reads the tagged ones back, field by field. *)
Ltac read_back :=
  rewrite ?tagged_app;
  repeat match goal with
         | |- context [tagged ?t (map (λ x, ?t +:+ x) ?l)] =>
             rewrite (tagged_map t t true l) by reflexivity
         | |- context [tagged ?t (map (λ x, ?t' +:+ x) ?l)] =>
             rewrite (tagged_map t t' false l) by reflexivity
         end;
  unfold whenSet, setField;
  repeat match goal with
         | |- context [falsy ?s] => destruct (falsy s)
         | |- context [truthy ?o] => destruct (truthy o) eqn:?
         end;
  simpl; rewrite ?app_nil_r; try reflexivity.

Lemma generateIndividual_level0 (p : ParsedPerson.t) :
  tagged "0 " (generateIndividual p) = [ParsedPerson.id p +:+ " INDI"].
Proof. unfold generateIndividual. read_back. Qed.

Lemma generateFamily_level0 (f : ParsedFamily.t) :
  tagged "0 " (generateFamily f) = [ParsedFamily.id f +:+ " FAM"].
Proof. unfold generateFamily. read_back. Qed.

Lemma generateIndividual_no_char (p : ParsedPerson.t) :
  tagged "1 CHAR " (generateIndividual p) = [].
Proof. unfold generateIndividual. read_back. Qed.

Lemma generateFamily_no_char (f : ParsedFamily.t) :
  tagged "1 CHAR " (generateFamily f) = [].
Proof. unfold generateFamily. read_back. Qed.

Lemma concat_map_singleton {A B} (f : A → B) (l : list A) :
  concat (map (λ a, [f a]) l) = map f l.
Proof. induction l as [|a l IH]; simpl; [done | by rewrite IH]. Qed.

Lemma concat_map_nil {A B} (l : list A) :
  concat (map (λ _ : A, @nil B) l) = [].
Proof. induction l as [|a l IH]; simpl; done. Qed.

(** X19. The generated lines open with [0 HEAD] and close with [0 TRLR]; the
    level-0 lines are [0 HEAD], then one [0 <id> INDI] line per person in
    order, then one [0 <id> FAM] line per family in order, then [0 TRLR];
    and exactly one line carries the [CHAR] tag, with the encoding tag of the
    data. *)
Theorem generated_envelope (isoNow : string) (data : ParseResult.t) :
  generateLines isoNow data !! 0 = Some "0 HEAD"
  ∧ last (generateLines isoNow data) = Some "0 TRLR"
  ∧ tagged "0 " (generateLines isoNow data)
    = ["HEAD"]
      ++ map (λ p, ParsedPerson.id p +:+ " INDI") (ParseResult.persons data)
      ++ map (λ f, ParsedFamily.id f +:+ " FAM") (ParseResult.families data)
      ++ ["TRLR"]
  ∧ tagged "1 CHAR " (generateLines isoNow data)
    = [Meta.encodingTag (ParseResult.meta data)].
Proof.
  unfold generateLines.
  split; [done |].
  split; [by rewrite !app_assoc, last_snoc |].
  split.
  - rewrite !tagged_app.
    rewrite (tagged_concat_map "0 " generateIndividual
               (λ p, [ParsedPerson.id p +:+ " INDI"]))
      by apply generateIndividual_level0.
    rewrite (tagged_concat_map "0 " generateFamily
               (λ f, [ParsedFamily.id f +:+ " FAM"]))
      by apply generateFamily_level0.
    by rewrite !concat_map_singleton.
  - rewrite !tagged_app.
    rewrite (tagged_concat_map "1 CHAR " generateIndividual (λ _, []))
      by apply generateIndividual_no_char.
    rewrite (tagged_concat_map "1 CHAR " generateFamily (λ _, []))
      by apply generateFamily_no_char.
    by rewrite !concat_map_nil.
Qed.

(** X20. Every field of a record can be read back from its lines.  For a
    person: the [NAME] line carries the name when it is not empty, the [DATE]
    lines the non-empty birth and death dates in that order, the [FAMC] and
    [FAMS] lines the two lists in order.  For a family: the [HUSB] and [WIFE]
    lines carry the husband and wife when set and non-empty, the [CHIL] lines
    the children in order.  An empty or unset field produces no line. *)
Theorem generated_fields_read_back (p : ParsedPerson.t) (f : ParsedFamily.t) :
  tagged "1 NAME " (generateIndividual p) = setField (ParsedPerson.name p)
  ∧ tagged "2 DATE " (generateIndividual p)
    = setField (ParsedPerson.birthDate p) ++ setField (ParsedPerson.deathDate p)
  ∧ tagged "1 FAMC " (generateIndividual p) = ParsedPerson.famc p
  ∧ tagged "1 FAMS " (generateIndividual p) = ParsedPerson.fams p
  ∧ tagged "1 HUSB " (generateFamily f)
    = (if truthy (ParsedFamily.husband f)
       then [default "" (ParsedFamily.husband f)] else [])
  ∧ tagged "1 WIFE " (generateFamily f)
    = (if truthy (ParsedFamily.wife f)
       then [default "" (ParsedFamily.wife f)] else [])
  ∧ tagged "1 CHIL " (generateFamily f) = ParsedFamily.children f.
Proof.
  repeat split; unfold generateIndividual, generateFamily; read_back.
Qed.
(** ** Splitting names *)

Lemma append_cons (c : ascii) (s t : string) :
  String c s +:+ t = String c (s +:+ t).
Proof. reflexivity. Qed.

Lemma string_append_assoc (a b c : string) :
  (a +:+ b) +:+ c = a +:+ (b +:+ c).
Proof.
  induction a as [|x a IH]; [done |]. by rewrite !append_cons, IH.
Qed.

Lemma falsy_false (s : string) : s ≠ "" → falsy s = false.
Proof. intros Hne. unfold falsy. by apply bool_decide_eq_false_2. Qed.

Lemma falsy_true (s : string) : falsy s = true → s = "".
Proof. unfold falsy. apply bool_decide_eq_true_1. Qed.

Lemma append_nonempty_l (s t : string) : s ≠ "" → s +:+ t ≠ "".
Proof. by destruct s. Qed.

Lemma append_nonempty_r (s : string) (c : ascii) (t : string) :
  s +:+ String c t ≠ "".
Proof. by destruct s. Qed.

Lemma noSlash_append (a b : string) :
  noSlash (a +:+ b) = noSlash a && noSlash b.
Proof.
  induction a as [|x a IH]; [done |].
  rewrite append_cons. simpl. by rewrite IH, andb_assoc.
Qed.

Lemma spanNoSlash_stop (run after : string) :
  noSlash run = true →
  spanNoSlash (run +:+ String "/" after) = (run, String "/" after).
Proof.
  induction run as [|c run IH]; intros Hrun; [done |].
  simpl in Hrun. apply andb_true_iff in Hrun as [Hc Hrun].
  apply negb_true_iff in Hc.
  rewrite append_cons. cbn [spanNoSlash]. by rewrite Hc, IH.
Qed.

Lemma matchLastName_found (before group after : string) :
  noSlash before = true → noSlash group = true → group ≠ "" →
  matchLastName (before +:+ String "/" (group +:+ String "/" after))
  = Some (before, group, after).
Proof.
  intros Hbefore Hgroup Hne.
  induction before as [|c before IH].
  - change ("" +:+ String "/" (group +:+ String "/" after))
      with (String "/" (group +:+ String "/" after)).
    cbn [matchLastName]. rewrite spanNoSlash_stop by done.
    by destruct group.
  - simpl in Hbefore. apply andb_true_iff in Hbefore as [Hc Hbefore].
    apply negb_true_iff in Hc.
    rewrite append_cons. cbn [matchLastName]. by rewrite Hc, IH.
Qed.

Lemma matchLastName_none (s : string) :
  noSlash s = true → matchLastName s = None.
Proof.
  induction s as [|c s IH]; intros Hs; [done |].
  simpl in Hs. apply andb_true_iff in Hs as [Hc Hs].
  apply negb_true_iff in Hc. cbn [matchLastName]. by rewrite Hc, IH.
Qed.

Lemma trimStart_length (s : string) :
  String.length (trimStart s) ≤ String.length s.
Proof.
  induction s as [|c s IH]; simpl; [done |].
  destruct (isWhiteSpace c); simpl; lia.
Qed.

Lemma trimEnd_length (s : string) :
  String.length (trimEnd s) ≤ String.length s.
Proof.
  induction s as [|c s IH]; simpl; [done |].
  destruct (trimEnd s); simpl in *; [destruct (isWhiteSpace c); simpl |]; lia.
Qed.

Lemma trimEnd_snoc_space (s : string) (w : ascii) :
  isWhiteSpace w = true → trimEnd (s +:+ String w "") = trimEnd s.
Proof.
  intros Hw. induction s as [|c s IH].
  - simpl. by rewrite Hw.
  - rewrite append_cons. cbn [trimEnd]. by rewrite IH.
Qed.

Lemma trimEnd_snoc_kept (s : string) (x : ascii) :
  isWhiteSpace x = false →
  trimEnd (s +:+ String x "") = s +:+ String x "".
Proof.
  intros Hx. induction s as [|c s IH].
  - simpl. by rewrite Hx.
  - rewrite append_cons. cbn [trimEnd]. rewrite IH. by destruct s.
Qed.

(** A trimmed, non-empty string starts with a character that is kept, and
    both halves of [trim] leave it alone. *)
Lemma trimmed_start (s : string) :
  s ≠ "" → jsTrim s = s →
  ∃ c rest, s = String c rest ∧ isWhiteSpace c = false ∧ trimEnd s = s.
Proof.
  intros Hne Htrim. destruct s as [|c rest]; [done |].
  exists c, rest. split; [done |].
  destruct (isWhiteSpace c) eqn:Hc.
  - exfalso. unfold jsTrim in Htrim. simpl in Htrim. rewrite Hc in Htrim.
    pose proof (trimEnd_length (trimStart rest)) as H1.
    pose proof (trimStart_length rest) as H2.
    rewrite Htrim in H1. simpl in H1. lia.
  - split; [done |]. unfold jsTrim in Htrim. simpl in Htrim.
    by rewrite Hc in Htrim.
Qed.

Lemma jsTrim_given (given : string) :
  given ≠ "" → jsTrim given = given → jsTrim (given +:+ " ") = given.
Proof.
  intros Hne Htrim.
  destruct (trimmed_start given Hne Htrim) as (c & rest & -> & Hc & Hend).
  unfold jsTrim. rewrite append_cons. cbn [trimStart]. rewrite Hc.
  rewrite <- append_cons. by rewrite trimEnd_snoc_space.
Qed.

Lemma parseName_result (nameValue before group after : string) :
  nameValue ≠ "" →
  matchLastName nameValue = Some (before, group, after) →
  jsTrim group ≠ "" →
  GedcomNameParser.parseName nameValue
  = ParsedName.mk
      (if falsy (joinParts (jsTrim before) (jsTrim after)) then jsTrim group
       else joinParts (jsTrim before) (jsTrim after) +:+ " " +:+ jsTrim group)
      (orUndefined (joinParts (jsTrim before) (jsTrim after)))
      (Some (jsTrim group)).
Proof.
  intros Hne Hmatch Hgroup. unfold GedcomNameParser.parseName.
  rewrite (falsy_false _ Hne), Hmatch.
  unfold orUndefined at 2. rewrite (falsy_false _ Hgroup). simpl.
  destruct (joinParts (jsTrim before) (jsTrim after)) as [|c first] eqn:Hfirst.
  - simpl. by rewrite (falsy_false _ Hgroup).
  - by simpl.
Qed.

Lemma parseName_given_surname (given surname : string) :
  namePart given → namePart surname →
  GedcomNameParser.parseName (given +:+ " /" +:+ surname +:+ "/")
  = ParsedName.mk (given +:+ " " +:+ surname) (Some given) (Some surname).
Proof.
  intros (Hgne & Hgslash & Hgtrim) (Hsne & Hsslash & Hstrim).
  assert (Hform : given +:+ " /" +:+ surname +:+ "/"
                  = (given +:+ " ") +:+ String "/" (surname +:+ String "/" "")).
  { by rewrite string_append_assoc. }
  rewrite (parseName_result _ (given +:+ " ") surname "").
  - rewrite Hstrim, (jsTrim_given given) by done.
    change (jsTrim "") with "". unfold joinParts, orUndefined.
    rewrite (falsy_false _ Hgne). simpl. by rewrite (falsy_false _ Hgne).
  - by apply append_nonempty_l.
  - rewrite Hform. apply matchLastName_found; [| done | done].
    rewrite noSlash_append, Hgslash. done.
  - by rewrite Hstrim.
Qed.

Lemma jsTrim_name_form (given surname : string) :
  namePart given →
  jsTrim (given +:+ " /" +:+ surname +:+ "/") = given +:+ " /" +:+ surname +:+ "/".
Proof.
  intros (Hgne & _ & Hgtrim).
  destruct (trimmed_start given Hgne Hgtrim) as (c & rest & -> & Hc & _).
  unfold jsTrim. rewrite append_cons. cbn [trimStart]. rewrite Hc.
  rewrite <- append_cons.
  assert (Hform : String c rest +:+ " /" +:+ surname +:+ "/"
                  = (String c rest +:+ " /" +:+ surname) +:+ String "/" "").
  { by rewrite !string_append_assoc. }
  rewrite Hform. by apply trimEnd_snoc_kept.
Qed.

(** X21. For a non-empty name [parseName] never returns an empty [fullName],
    never an empty [firstName] or [lastName] (an empty part is left
    undefined), and when both parts are undefined the [fullName] is the name
    as given; for the empty name it returns the empty [fullName] alone. *)
Theorem parseName_never_empty (nameValue : string) :
  GedcomNameParser.parseName "" = ParsedName.mk "" None None
  ∧ (nameValue ≠ "" →
     ParsedName.fullName (GedcomNameParser.parseName nameValue) ≠ ""
     ∧ ParsedName.firstName (GedcomNameParser.parseName nameValue) ≠ Some ""
     ∧ ParsedName.lastName (GedcomNameParser.parseName nameValue) ≠ Some ""
     ∧ (ParsedName.firstName (GedcomNameParser.parseName nameValue) = None →
        ParsedName.lastName (GedcomNameParser.parseName nameValue) = None →
        ParsedName.fullName (GedcomNameParser.parseName nameValue) = nameValue)).
Proof.
  split; [done |]. intros Hne.
  unfold GedcomNameParser.parseName. rewrite (falsy_false _ Hne).
  destruct (match matchLastName nameValue with
            | Some (before, group, after) => _
            | None => _
            end) as [firstName lastName].
  unfold orUndefined. simpl.
  destruct (falsy firstName) eqn:Hf, (falsy lastName) eqn:Hl; simpl.
  - done.
  - rewrite Hl. split; [by intros Heq; rewrite Heq in Hl |].
    split; [done |]. split; [| done].
    intros [= Heq]. by rewrite Heq in Hl.
  - rewrite Hf. split; [by intros Heq; rewrite Heq in Hf |].
    split; [| done]. intros [= Heq]. by rewrite Heq in Hf.
  - assert (Hfull : falsy (firstName +:+ " " +:+ lastName) = false).
    { apply falsy_false. by destruct firstName. }
    rewrite Hfull. split; [by destruct firstName |].
    split; [intros [= Heq]; by rewrite Heq in Hf |].
    split; [intros [= Heq]; by rewrite Heq in Hl | done].
Qed.

Lemma parseName_never_empty_witness :
  ParsedName.fullName (GedcomNameParser.parseName "  ") ≠ "".
Proof.
  destruct (parseName_never_empty "  ") as [_ Hne].
  by destruct Hne as [Hfull _].
Defined.

(** X22. The GEDCOM name form is split as written: for a given name and a
    surname that are non-empty, without slash and without white space at
    either end, [parseName] of [<given> /<surname>/] returns the given name
    as [firstName], the surname as [lastName] and [<given> <surname>] as
    [fullName]; of [/<surname>/] alone, the surname as [lastName] and
    [fullName] and no [firstName]. *)
Theorem parseName_gedcom_form (given surname : string) :
  namePart surname →
  (namePart given →
   GedcomNameParser.parseName (given +:+ " /" +:+ surname +:+ "/")
   = ParsedName.mk (given +:+ " " +:+ surname) (Some given) (Some surname))
  ∧ GedcomNameParser.parseName ("/" +:+ surname +:+ "/")
    = ParsedName.mk surname None (Some surname).
Proof.
  intros Hsurname. split; [intros Hgiven; by apply parseName_given_surname |].
  destruct Hsurname as (Hsne & Hsslash & Hstrim).
  rewrite (parseName_result _ "" surname "").
  - by rewrite Hstrim.
  - done.
  - change ("/" +:+ surname +:+ "/")
      with ("" +:+ String "/" (surname +:+ String "/" "")).
    by apply matchLastName_found.
  - by rewrite Hstrim.
Qed.

Lemma parseName_gedcom_form_witness :
  GedcomNameParser.parseName ("Jean" +:+ " /" +:+ "Martin" +:+ "/")
  = ParsedName.mk ("Jean" +:+ " " +:+ "Martin") (Some "Jean") (Some "Martin").
Proof.
  destruct (parseName_gedcom_form "Jean" "Martin") as [Hboth _].
  - by repeat split.
  - apply Hboth. by repeat split.
Defined.

(** X23. A name without a slash is a given name only: [lastName] is
    undefined, [firstName] is the trimmed name (undefined if nothing is
    left), and [fullName] is the trimmed name, or the name as given when it
    consists of white space. *)
Theorem parseName_without_slash (nameValue : string) :
  nameValue ≠ "" →
  noSlash nameValue = true →
  GedcomNameParser.parseName nameValue
  = ParsedName.mk
      (if falsy (jsTrim nameValue) then nameValue else jsTrim nameValue)
      (orUndefined (jsTrim nameValue)) None.
Proof.
  intros Hne Hslash. unfold GedcomNameParser.parseName.
  rewrite (falsy_false _ Hne), matchLastName_none by done.
  unfold orUndefined. simpl.
  destruct (falsy (jsTrim nameValue)) eqn:Hf; simpl; [done |]. by rewrite Hf.
Qed.

Lemma parseName_without_slash_witness :
  GedcomNameParser.parseName " Jean-Paul "
  = ParsedName.mk "Jean-Paul" (Some "Jean-Paul") None.
Proof.
  rewrite parseName_without_slash; [reflexivity | discriminate | reflexivity].
Defined.

(** X24. The two normalizers split the same name alike.  With the
    repository's name parser, an individual of the object graph whose first
    name entry has given name [g] and surname [s] (both non-empty, without
    slash, trimmed) and a [NAME] child of the record tree with value
    [g /s/] both give the person the name [g s], the first name [g] and the
    last name [s]. *)
Theorem normalizers_agree_on_names (P : Platform) (id : string)
  (individual : Individual.t) (others : list NameRecord.t)
  (person : ParsedPerson.t) (child : Node.t) (given surname : string) :
  namePart given → namePart surname →
  Individual.name individual
  = Some (NameRecord.mk (Some given) (Some surname) :: others) →
  Node.type child = "NAME" →
  Node.value child = Some (given +:+ " /" +:+ surname +:+ "/") →
  let fromGraph := @parseReadGedcomIndividual (withNameParser P) id individual in
  let fromTree := @parseIndividualChild (withNameParser P) person child in
  ParsedPerson.name fromGraph = given +:+ " " +:+ surname
  ∧ ParsedPerson.firstName fromGraph = Some given
  ∧ ParsedPerson.lastName fromGraph = Some surname
  ∧ ParsedPerson.name fromTree = ParsedPerson.name fromGraph
  ∧ ParsedPerson.firstName fromTree = ParsedPerson.firstName fromGraph
  ∧ ParsedPerson.lastName fromTree = ParsedPerson.lastName fromGraph.
Proof.
  intros Hgiven Hsurname Hname Htype Hvalue.
  assert (Hg : orElse (Some given) "" = given).
  { simpl. by rewrite (falsy_false _ (proj1 Hgiven)). }
  assert (Hs : orElse (Some surname) "" = surname).
  { simpl. by rewrite (falsy_false _ (proj1 Hsurname)). }
  assert (Hgraph :
            ParsedPerson.name
              (@parseReadGedcomIndividual (withNameParser P) id individual)
            = given +:+ " " +:+ surname
            ∧ ParsedPerson.firstName
                (@parseReadGedcomIndividual (withNameParser P) id individual)
              = Some given
            ∧ ParsedPerson.lastName
                (@parseReadGedcomIndividual (withNameParser P) id individual)
              = Some surname).
  { unfold parseReadGedcomIndividual. rewrite Hname.
    cbn [NameRecord.given NameRecord.surname trim parseName withNameParser].
    rewrite Hg, Hs, jsTrim_name_form, parseName_given_surname by done.
    done. }
  destruct Hgraph as (Hn & Hf & Hl). cbn zeta. rewrite Hn, Hf, Hl.
  split; [done |]. split; [done |]. split; [done |].
  destruct person. unfold parseIndividualChild. rewrite Htype, Hvalue.
  cbn [String.eqb parseName withNameParser].
  assert (Hv : orElse (Some (given +:+ " /" +:+ surname +:+ "/")) ""
               = given +:+ " /" +:+ surname +:+ "/").
  { simpl. rewrite falsy_false; [done |]. apply append_nonempty_l, Hgiven. }
  rewrite Hv, parseName_given_surname by done. done.
Qed.

Lemma normalizers_agree_on_names_witness :
  ParsedPerson.name
    (@parseReadGedcomIndividual
       (withNameParser (nodePlatform (Returns None) (Returns sampleGraph))) "I1"
       (Individual.mk (Some [NameRecord.mk (Some "John") (Some "Doe")])
          None None None None))
  = "John" +:+ " " +:+ "Doe".
Proof.
  destruct (normalizers_agree_on_names
              (nodePlatform (Returns None) (Returns sampleGraph)) "I1"
              (Individual.mk (Some [NameRecord.mk (Some "John") (Some "Doe")])
                 None None None None)
              [] (person "@I1@" [] [])
              (Node.mk "NAME" (Some ("John" +:+ " /" +:+ "Doe" +:+ "/")) None None)
              "John" "Doe")
    as (Hname & _); try done; by repeat split.
Defined.
(** ** From the object graph to a traversal *)

(** X25. Every individual of an object graph can serve as root under its raw
    key: on the result of the object-graph normalizer both traversals return
    for the key of any entry of [individuals], with the canonicalized key as
    [root] and the person built from that key's canonical id as first node. *)
Theorem fallback_keys_are_roots `{Platform} (result : ReadResult.t)
  (key : string) (individual : Individual.t) (N : Z) :
  (key, individual) ∈ default [] (ReadResult.individuals result) →
  ∃ ra rd,
    computeAncestors (normalizeReadGedcomResult result) key N = Returns ra
    ∧ computeDescendants (normalizeReadGedcomResult result) key N = Returns rd
    ∧ AncestryResult.root ra = GedcomParser.canonicalizeId key
    ∧ AncestryResult.root rd = GedcomParser.canonicalizeId key
    ∧ (∃ p rest, AncestryResult.nodes ra = p :: rest
                 ∧ ParsedPerson.id p = GedcomParser.canonicalizeId key)
    ∧ (∃ p rest, AncestryResult.nodes rd = p :: rest
                 ∧ ParsedPerson.id p = GedcomParser.canonicalizeId key).
Proof.
  intros Hentry.
  assert (Hroot : GedcomAncestry.canonicalizeId key
                    ∈ map ParsedPerson.id
                        (ParseResult.persons (normalizeReadGedcomResult result))).
  { destruct (normalizeReadGedcomResult_ids result) as [-> _].
    apply list_elem_of_fmap. by exists (key, individual). }
  eexists _, _.
  split; [by apply computeAncestors_returns |].
  split; [by apply computeDescendants_returns |]. simpl.
  split; [done |]. split; [done |].
  destruct (nodes_shape _ _ _ _ _
              (ancestorsWalk_inv (normalizeReadGedcomResult result) key N) Hroot)
    as (_ & pa & resta & Ha & _ & Hida).
  destruct (nodes_shape _ _ _ _ _
              (descendantsWalk_inv (normalizeReadGedcomResult result) key N) Hroot)
    as (_ & pd & restd & Hd & _ & Hidd).
  split; eexists _, _; eauto.
Qed.

Lemma fallback_keys_are_roots_witness :
  ∃ ra,
    computeAncestors
      (@normalizeReadGedcomResult
         (nodePlatform (Returns None) (Returns sampleGraph)) sampleGraph)
      "I1" 3 = Returns ra
    ∧ AncestryResult.root ra = "@I1@".
Proof.
  destruct (@fallback_keys_are_roots
              (nodePlatform (Returns None) (Returns sampleGraph)) sampleGraph "I1"
              (Individual.mk (Some [NameRecord.mk (Some "John") (Some "Doe")])
                 None None None (Some [FamilyRef.mk (Some "F1")])) 3)
    as (ra & rd & Ha & _ & Hroot & _).
  - simpl. apply elem_of_cons. by left.
  - exists ra. split; [exact Ha | exact Hroot].
Defined.
